(** * Type-metadata layout, lookup and reference emission (lib/IRGen/GenMeta.cpp)

    A shallow embedding of the metadata subsystem of the IR generator:
    the override-compatibility check, the metadata searchers, the
    generic-template builder, the class-metadata builder's final
    overriders and the metadata-reference visitor. *)

From Stdlib Require Import ZArith Lia List Bool.
From stdpp Require Import base decidable option list gmap strings.

Local Open Scope Z_scope.
Set Warnings "-register-all".

(** ** The part of the AST the code reads *)

Inductive DeclKind := Class | Struct | Enum | Protocol.

(** A nominal type declaration, reduced to what GenMeta.cpp asks of it.
    [declId] stands for the address of the declaration node. *)
Record NominalTypeDecl := mkNominalTypeDecl {
  declId : positive;
  getKind : DeclKind;
  hasClangNode : bool;
  isObjC : bool;
  (** [getGenericParamsOfContext]: the archetypes of the generic clause, if any *)
  getGenericParamsOfContext : option (list positive);
  (** [getDeclContext()->isTypeContext()] *)
  isNestedInType : bool
}.

(** Canonical types.  A tuple field is a (name, type) pair; the empty
    name is an absent label ([TupleTypeElt::hasName]). *)
Inductive CanType : Type :=
| BuiltinIntegerType (numBits : Z)
| BuiltinFloatType (fpKind : nat)
| BuiltinRawPointerType
| BuiltinObjectPointerType
| BuiltinObjCPointerType
| BuiltinVectorType (elt : CanType) (numElts : nat)
| NominalType (decl : NominalTypeDecl)
| BoundGenericType (decl : NominalTypeDecl) (replacements : list CanType)
| TupleType (fields : list (string * CanType))
| FunctionType (input result : CanType)
| PolymorphicFunctionType (input result : CanType)
| GenericFunctionType (input result : CanType)
| ArrayType (base : CanType) (size : Z)
| MetaTypeType (instance : CanType)
| ModuleType (module : positive)
| ProtocolCompositionType (protocols : list CanType)
| ReferenceStorageType (referent : CanType)
| ArchetypeType (archetype : positive)
| GenericTypeParamType (depth index : nat)
| DependentMemberType (base : CanType) (name : string)
| LValueType (object : CanType).

Lemma DeclKind_eq_dec (a b : DeclKind) : {a = b} + {a <> b}.
Proof. decide equality. Defined.

Lemma NominalTypeDecl_eq_dec (a b : NominalTypeDecl) : {a = b} + {a <> b}.
Proof.
  decide equality; try apply Bool.bool_dec; try apply Pos.eq_dec;
    try apply DeclKind_eq_dec.
  decide equality. apply List.list_eq_dec, Pos.eq_dec.
Defined.

(** Identity of canonical types ([CanType::operator==]): canonical types
    are uniqued, so pointer equality is structural equality. *)
Fixpoint CanType_eq_dec (a b : CanType) {struct a} : {a = b} + {a <> b}.
Proof.
  decide equality;
    try apply Z.eq_dec; try apply Nat.eq_dec; try apply Pos.eq_dec;
    try apply String.string_dec; try apply NominalTypeDecl_eq_dec;
    try (apply List.list_eq_dec; apply CanType_eq_dec).
  apply List.list_eq_dec. intros [n1 t1] [n2 t2].
  destruct (String.string_dec n1 n2) as [->|Hn]; [|right; congruence].
  destruct (CanType_eq_dec t1 t2) as [->|Ht]; [left; reflexivity|right; congruence].
Defined.

Definition sameType (a b : CanType) : bool :=
  if CanType_eq_dec a b then true else false.


(** Assertions ([assert], [cast<>], [llvm_unreachable]) abort code
    generation: a computation that can hit one returns [option], and
    [None] is the abort. *)
Definition llvm_assert (b : bool) : option unit :=
  if b then Some tt else None.

Inductive ExplosionKind := Minimal | Maximal.

(** What a declaration's enclosing context is. *)
Inductive DeclContext :=
| NominalContext (d : NominalTypeDecl)
| ExtensionContext (extended : NominalTypeDecl)
| FileContext.

(** [dyn_cast<ClassDecl>(ctx)] *)
Definition dyn_cast_ClassDecl (ctx : DeclContext) : option NominalTypeDecl :=
  match ctx with
  | NominalContext d => match getKind d with Class => Some d | _ => None end
  | _ => None
  end.

(** A function declaration; [funcId] stands for the node's address. *)
Inductive FuncDecl := mkFuncDecl {
  funcId : positive;
  getDeclContext : DeclContext;
  getType : CanType;
  funcHasClangNode : bool;
  getOverriddenDecl : option FuncDecl
}.

(** A reference to a function at an explosion and uncurry level. *)
Record FunctionRef := mkFunctionRef {
  getDecl : FuncDecl;
  getExplosionLevel : ExplosionKind;
  getUncurryLevel : Z
}.

Definition ExplosionKind_eqb (a b : ExplosionKind) : bool :=
  match a, b with
  | Minimal, Minimal | Maximal, Maximal => true
  | _, _ => false
  end.

(** [FunctionRef::operator==]; declarations are compared by address. *)
Definition FunctionRef_eqb (a b : FunctionRef) : bool :=
  Pos.eqb (funcId (getDecl a)) (funcId (getDecl b))
  && ExplosionKind_eqb (getExplosionLevel a) (getExplosionLevel b)
  && Z.eqb (getUncurryLevel a) (getUncurryLevel b).

(** LLVM types and constants, kept symbolic. *)

Inductive LLVMType :=
| TypeMetadataPtrTy
| TypeMetadataPatternPtrTy
| WitnessTablePtrTy
| Int8PtrTy
| SizeTy
| IntPtrTy
| Int32Ty
| Int16Ty
| MetadataKindTy
| VoidTy
| PointerTo (t : LLVMType)
| ArrayTy (elt : LLVMType) (n : Z)
| StructTy (elts : list LLVMType)
| FunctionTy (result : LLVMType) (args : list LLVMType).

(** A fill operation of a metadata template. *)
Record FillOp := mkFillOp {
  FromIndex : Z;
  ToIndex : Z
}.

Inductive MetadataKind := MK_Class | MK_Struct | MK_Enum | MK_Existential.

Inductive Constant :=
| ConstantInt (ty : LLVMType) (value : Z)
| ConstantPointerNull (ty : LLVMType)
| ConstantArray (eltTy : LLVMType) (elts : list Constant)
| ConstantStruct (elts : list Constant)
| ConstantPtrToInt (c : Constant) (ty : LLVMType)
| ConstantAdd (a b : Constant)
| ConstantInBoundsGEP (c : Constant) (indices : list Z)
| MetadataKindConstant (kind : MetadataKind)
| AddrOfTypeMetadata (type : CanType) (isIndirect isPattern : bool)
| AddrOfObjCClass (cls : positive)
| AddrOfMetaclassObject (cls : positive)
| AddrOfValueWitnessTable (type : CanType)
| AddrOfDestructor (cls : positive)
| AddrOfFunction (fn : FunctionRef)
| AddrOfGlobalString (s : string)
| EmptyTupleMetadata
| ObjCEmptyCachePtr
| ObjCEmptyVTablePtr
| ClassPrivateData (cls : positive)
| ValueWitnessTable (type : CanType)
(** The function [emitFillFunction] emits: its fill operations and, with
    a dependent value witness table, the table's slot and the address
    point it initialises from. *)
| FillFunction (ops : list FillOp) (dependentVWT : option (Z * Z)).

(** The services of [IRGenModule] that GenMeta.cpp calls and that are
    implemented in other files of the code generator. *)
Record IRGenModule := mkIRGenModule {
  requiresIndirectResult : CanType -> ExplosionKind -> bool;
  differsByAbstractionInExplosion : CanType -> CanType -> ExplosionKind -> bool;
  differsByAbstractionInMemory : CanType -> CanType -> bool;
  (** [getPointerSize()], in bytes *)
  getPointerSize : Z;
  ObjCInterop : bool;
  (** the address of the declaration [getSwiftRootClass()] returns *)
  getSwiftRootClass : positive;
  hasDependentValueWitnessTable : CanType -> bool;
  (** the fields [emitDependentValueWitnessTablePattern] appends *)
  dependentValueWitnessTablePattern : CanType -> list Constant;
  (** size and alignment, in bytes, of the fixed type info of a type *)
  getFixedSize : CanType -> Z;
  getFixedAlignment : CanType -> Z
}.

(** [Type::getClassOrBoundGenericClass() != nullptr] *)
Definition getClassOrBoundGenericClass (t : CanType) : bool :=
  match t with
  | NominalType d | BoundGenericType d _ =>
      match getKind d with Class => true | _ => false end
  | _ => false
  end.

(** ** Override compatibility *)

Module IsIncompatibleOverride.
Section Visitor.
Variable IGM : IRGenModule.
Variable ExplosionLevel : ExplosionKind.
Variable AsExplosion : bool.

Definition visitType (overridden override : CanType) : bool :=
  if AsExplosion
  then differsByAbstractionInExplosion IGM overridden override ExplosionLevel
  else differsByAbstractionInMemory IGM overridden override.

Definition visitClassType (override : CanType) : option bool :=
  _ ← llvm_assert (getClassOrBoundGenericClass override); Some false.

(** [visit(overridden, override)]; the dispatch of [CanTypeVisitor] is
    on the kind of [overridden]. *)
Fixpoint visit (overridden override : CanType) {struct overridden} : option bool :=
  if sameType override overridden then Some false else
  match overridden with
  | NominalType d =>
      match getKind d with
      | Class => visitClassType override
      | _ => Some (visitType overridden override)
      end
  | BoundGenericType d _ =>
      match getKind d with
      | Class => visitClassType override
      | _ => Some (visitType overridden override)
      end
  | TupleType fields =>
      match override with
      | TupleType ofields =>
          _ ← llvm_assert (Nat.eqb (length fields) (length ofields));
          (fix elements (fs ofs : list (string * CanType)) : option bool :=
             match fs, ofs with
             | (_, t) :: fs', (_, t') :: ofs' =>
                 r ← visit t t';
                 if r : bool then Some true else elements fs' ofs'
             | _, _ => Some false
             end) fields ofields
      | _ => None
      end
  | _ => Some (visitType overridden override)
  end.
End Visitor.
End IsIncompatibleOverride.

Definition isIncompatibleOverrideArgument (IGM : IRGenModule)
    (overrideTy overriddenTy : CanType) (explosionLevel : ExplosionKind)
  : option bool :=
  IsIncompatibleOverride.visit IGM explosionLevel true overriddenTy overrideTy.

Definition isIncompatibleOverrideResult (IGM : IRGenModule)
    (overrideTy overriddenTy : CanType) (explosionLevel : ExplosionKind)
  : option bool :=
  if sameType overrideTy overriddenTy then Some false else
  if negb (requiresIndirectResult IGM overriddenTy explosionLevel) then
    _ ← llvm_assert (negb (requiresIndirectResult IGM overrideTy explosionLevel));
    IsIncompatibleOverride.visit IGM explosionLevel true overriddenTy overrideTy
  else if negb (requiresIndirectResult IGM overrideTy explosionLevel) then
    Some true
  else
    IsIncompatibleOverride.visit IGM explosionLevel false overriddenTy overrideTy.

(** [cast<AnyFunctionType>(ty)], giving the input and the result *)
Definition cast_AnyFunctionType (ty : CanType) : option (CanType * CanType) :=
  match ty with
  | FunctionType i r | PolymorphicFunctionType i r | GenericFunctionType i r =>
      Some (i, r)
  | _ => None
  end.

(** The argument loop of [isCompatibleOverride] with [n] iterations
    left, followed by the function's final return. *)
Fixpoint isCompatibleOverride_from (IGM : IRGenModule)
    (explosionLevel : ExplosionKind) (n : nat)
    (overrideTy overriddenTy : CanType) : option bool :=
  match n with
  | O => isIncompatibleOverrideResult IGM overrideTy overriddenTy explosionLevel
  | S n' =>
      if sameType overrideTy overriddenTy then Some true else
      overrideFnTy ← cast_AnyFunctionType overrideTy;
      overriddenFnTy ← cast_AnyFunctionType overriddenTy;
      bad ← isIncompatibleOverrideArgument IGM overrideFnTy.1 overriddenFnTy.1
              explosionLevel;
      if bad : bool then Some false
      else isCompatibleOverride_from IGM explosionLevel n'
             overrideFnTy.2 overriddenFnTy.2
  end.

(** [unsigned] arithmetic *)
Definition UINT_MAX : Z := 2 ^ 32 - 1.
Definition wrap32 (z : Z) : Z := z mod 2 ^ 32.

(** [for (++uncurryLevel; uncurryLevel; --uncurryLevel)] runs
    [uncurryLevel + 1] times, the increment being that of an [unsigned]. *)
Definition isCompatibleOverride (IGM : IRGenModule)
    (override overridden : FuncDecl) (explosionLevel : ExplosionKind)
    (uncurryLevel : Z) : option bool :=
  isCompatibleOverride_from IGM explosionLevel
    (Z.to_nat (wrap32 (uncurryLevel + 1)))
    (getType override) (getType overridden).

Definition hasKnownSwiftImplementation (theClass : NominalTypeDecl) : bool :=
  negb (hasClangNode theClass).

Definition hasKnownSwiftMetadata (theClass : NominalTypeDecl) : bool :=
  hasKnownSwiftImplementation theClass.

Definition hasKnownVTableEntry (theMethod : FuncDecl) : option bool :=
  match dyn_cast_ClassDecl (getDeclContext theMethod) with
  | None => _ ← llvm_assert (funcHasClangNode theMethod); Some false
  | Some theClass => Some (hasKnownSwiftImplementation theClass)
  end.

(** The body of the [do ... while] of [doesMethodRequireOverrideEntry],
    entered with a non-null [overridden]. *)
Fixpoint overrideEntryWalk (IGM : IRGenModule) (fn : FuncDecl)
    (explosionLevel : ExplosionKind) (uncurryLevel : Z)
    (overridden : FuncDecl) {struct overridden} : option bool :=
  known ← hasKnownVTableEntry overridden;
  if negb known then Some true else
  compatible ← isCompatibleOverride IGM fn overridden explosionLevel uncurryLevel;
  if compatible : bool then Some false else
  match overridden with
  | mkFuncDecl _ _ _ _ (Some next) =>
      overrideEntryWalk IGM fn explosionLevel uncurryLevel next
  | mkFuncDecl _ _ _ _ None => Some true
  end.

Definition doesMethodRequireOverrideEntry (IGM : IRGenModule) (fn : FuncDecl)
    (explosionLevel : ExplosionKind) (uncurryLevel : Z) : option bool :=
  overridden ← getOverriddenDecl fn;
  overrideEntryWalk IGM fn explosionLevel uncurryLevel overridden.

(** A member of a class: [dyn_cast<FuncDecl>(member)] succeeds on the
    first kind only. *)
Inductive Decl :=
| FuncMember (fn : FuncDecl)
| VarMember (var : positive)
| OtherMember.

(** A class declaration with what the class-metadata builder reads. *)
Inductive ClassDecl := mkClassDecl {
  asNominal : NominalTypeDecl;
  getMembers : list Decl;
  (** [getDeclContext()->getDeclaredTypeInContext()], canonical *)
  getDeclaredTypeOfContext : CanType;
  (** the superclass type and the class it names
      ([getSuperclass()->getClassOrBoundGenericClass()]); [None] without
      a superclass *)
  getSuperclass : option (CanType * ClassDecl)
}.

(** The address of a class declaration. *)
Definition classId (cls : ClassDecl) : positive := declId (asNominal cls).

(** ** Metadata layouts

    The layout classes ([ClassMetadataLayout], [StructMetadataLayout],
    [EnumMetadataLayout] and their scanners) live in headers; their
    [layout()] is a fixed sequence of calls to the hooks below, made on
    the most-derived class.  A layout is that sequence of calls. *)

Module ClassLayout.
(** The hooks of a class-metadata layout; fields, archetypes and
    protocols are given by their addresses. *)
Inductive Hook :=
| noteAddressPoint
| addMetadataFlags
| addValueWitnessTable
| addDestructorFunction
| addParentMetadataRef (forClass : ClassDecl)
| addSuperClass
| addClassCacheData
| addClassDataPointer
| addFieldOffset (var : positive)
| addMethod (fn : FunctionRef)
| addGenericArgument (archetype : positive) (forClass : ClassDecl)
| addGenericWitnessTable (archetype : positive) (protocol : positive)
                         (forClass : ClassDecl).

Definition isNoteAddressPoint (h : Hook) : bool :=
  match h with noteAddressPoint => true | _ => false end.
End ClassLayout.

Module ValueLayout.
(** The hooks of a struct- or enum-metadata layout. *)
Inductive Hook :=
| noteAddressPoint
| addMetadataFlags
| addNominalTypeDescriptor
| addParentMetadataRef
| addValueWitnessTable
| addGenericArgument (archetype : positive)
| addGenericWitnessTable (archetype : positive) (protocol : positive).

Definition isNoteAddressPoint (h : Hook) : bool :=
  match h with noteAddressPoint => true | _ => false end.
End ValueLayout.

(** ** MetadataSearcher *)

Definition InvalidIndex : Z := UINT_MAX.

(** [(int) u] for an [unsigned] [u] *)
Definition to_int (u : Z) : Z :=
  if u <? 2 ^ 31 then u else u - 2 ^ 32.

Module MetadataSearcher.
(** [NextIndex] is the scanner's field, which starts at 0; the other two
    are the searcher's. *)
Record State := mkState {
  NextIndex : Z;
  TargetIndex : Z;
  AddressPoint : Z
}.

Definition initial : State := mkState 0 InvalidIndex InvalidIndex.

Definition setTargetIndex (s : State) : option State :=
  _ ← llvm_assert (TargetIndex s =? InvalidIndex);
  Some (mkState (NextIndex s) (NextIndex s) (AddressPoint s)).

Definition noteAddressPoint (s : State) : State :=
  mkState (NextIndex s) (TargetIndex s) (NextIndex s).

(** [NextIndex += n], as an [unsigned] *)
Definition advance (n : Z) (s : State) : State :=
  mkState (wrap32 (NextIndex s + n)) (TargetIndex s) (AddressPoint s).

Section Searcher.
Context {Hook : Type}.
Variable isNoteAddressPoint : Hook -> bool.
(** The scanner base class: the number of slots by which a hook the
    searcher leaves alone advances [NextIndex]. *)
Variable scannerSlots : Hook -> Z.
(** The hook the searcher subclass overrides: [Some b] on a call it
    overrides, [b] being its test for the target. *)
Variable overridden : Hook -> option bool.

Definition call (s : State) (h : Hook) : option State :=
  if isNoteAddressPoint h then Some (noteAddressPoint s)
  else match overridden h with
       | Some isTarget =>
           s' ← (if isTarget : bool then setTargetIndex s else Some s);
           Some (advance 1 s')
       | None => Some (advance (scannerSlots h) s)
       end.

(** [this->layout()] on the given sequence of hook calls *)
Fixpoint layout (calls : list Hook) (s : State) : option State :=
  match calls with
  | [] => Some s
  | h :: rest => s' ← call s h; layout rest s'
  end.

Definition getTargetIndex (calls : list Hook) : option Z :=
  let s := initial in
  _ ← llvm_assert (TargetIndex s =? InvalidIndex);
  s' ← layout calls s;
  _ ← llvm_assert (negb (TargetIndex s' =? InvalidIndex));
  _ ← llvm_assert (negb (AddressPoint s' =? InvalidIndex));
  Some (to_int (TargetIndex s') - to_int (AddressPoint s')).
End Searcher.
End MetadataSearcher.

(** The searcher subclasses, each by the hook it overrides. *)

Definition FindClassParentIndex (TargetClass : positive)
  : ClassLayout.Hook -> option bool := fun h =>
  match h with
  | ClassLayout.addParentMetadataRef forClass =>
      Some (Pos.eqb (classId forClass) TargetClass)
  | _ => None
  end.


Definition FindValueTypeArgumentIndex (TargetArchetype : positive)
  : ValueLayout.Hook -> option bool := fun h =>
  match h with
  | ValueLayout.addGenericArgument argument =>
      Some (Pos.eqb argument TargetArchetype)
  | _ => None
  end.


Definition FindValueTypeWitnessTableIndex
    (TargetArchetype TargetProtocol : positive)
  : ValueLayout.Hook -> option bool := fun h =>
  match h with
  | ValueLayout.addGenericWitnessTable argument protocol =>
      Some (Pos.eqb argument TargetArchetype && Pos.eqb protocol TargetProtocol)
  | _ => None
  end.

Definition FindClassFieldOffset (TargetField : positive)
  : ClassLayout.Hook -> option bool := fun h =>
  match h with
  | ClassLayout.addFieldOffset field => Some (Pos.eqb field TargetField)
  | _ => None
  end.

Definition FindClassMethodIndex (TargetMethod : FunctionRef)
  : ClassLayout.Hook -> option bool := fun h =>
  match h with
  | ClassLayout.addMethod fn => Some (FunctionRef_eqb TargetMethod fn)
  | _ => None
  end.

(** ** The emitted IR

    LLVM is the code-emission target.  Constants are kept symbolic, an
    instruction is recorded in the order the builder creates it, and the
    value of an instruction is its position in the function.  LLVM types
    of values are not tracked, so the asserts that only compare the LLVM
    type of a value are not modelled. *)

(** Width in bits of the integer types, on a target with the given
    pointer size. *)
Definition intWidth (IGM : IRGenModule) (ty : LLVMType) : Z :=
  match ty with
  | Int16Ty => 16
  | Int32Ty => 32
  | SizeTy | IntPtrTy => 8 * getPointerSize IGM
  | MetadataKindTy => 8
  | _ => 0
  end.

(** [llvm::ConstantInt::get(ty, v)] and [getSigned]: the value is cut
    to the width of the type. *)
Definition ConstantInt_get (IGM : IRGenModule) (ty : LLVMType) (v : Z) : Constant :=
  ConstantInt ty (v mod 2 ^ intWidth IGM ty).

Inductive RuntimeFn :=
| GetObjCClassMetadataFn
| GetGenericMetadataFn
| GetTupleMetadataFn
| GetTupleMetadata2Fn
| GetTupleMetadata3Fn
| GetFunctionMetadataFn
| GetMetatypeMetadataFn.

Inductive Value :=
| Const (c : Constant)
| Inst (n : nat)
| Undef (ty : LLVMType).

Inductive Instruction :=
| CreateCall (fn : RuntimeFn) (args : list Value)
| CreateBitCast (v : Value) (ty : LLVMType)
| CreateInBoundsGEP (ptr index : Value)
| CreateStructGEP (base : Value) (index : Z)
| CreateLoad (addr : Value)
| CreateStore (v addr : Value)
| CreateAlloca (ty : LLVMType) (name : string).

(** The per-function state of code generation: the instructions built
    so far, the local type data of kind [LocalTypeData::Metatype] (which
    GenMeta.cpp only reads), and the features reported unimplemented. *)
Record IRGenFunction := mkIRGenFunction {
  Builder : list Instruction;
  LocalTypeData : CanType -> option Value;
  Unimplemented : list string
}.

(** Code generation in a function: a state monad over [IRGenFunction]
    in which an assertion failure is [None]. *)
Definition IRGen (A : Type) : Type := IRGenFunction -> option (A * IRGenFunction).

Definition ret {A} (a : A) : IRGen A := fun IGF => Some (a, IGF).

Definition bind {A B} (c : IRGen A) (k : A -> IRGen B) : IRGen B :=
  fun IGF => match c IGF with
             | Some (a, IGF') => k a IGF'
             | None => None
             end.

Definition abort {A} : IRGen A := fun _ => None.

Notation "x <~ c1 ;; c2" := (bind c1 (fun x => c2))
  (at level 100, c1 at next level, right associativity).
Notation "c1 ;;; c2" := (bind c1 (fun _ => c2))
  (at level 100, right associativity).

Definition check (b : bool) : IRGen unit :=
  if b then ret tt else abort.

(** Append an instruction; its value is its position. *)
Definition emit (i : Instruction) : IRGen Value := fun IGF =>
  Some (Inst (length (Builder IGF)),
        mkIRGenFunction (Builder IGF ++ [i]) (LocalTypeData IGF) (Unimplemented IGF)).

Definition unimplemented (Message : string) : IRGen unit := fun IGF =>
  Some (tt, mkIRGenFunction (Builder IGF) (LocalTypeData IGF)
              (Unimplemented IGF ++ [Message])).

Definition tryGetLocalTypeData (type : CanType) : IRGen (option Value) :=
  fun IGF => Some (LocalTypeData IGF type, IGF).

(** [getLocalTypeData] requires the entry to be there. *)
Definition getLocalTypeData (type : CanType) : IRGen Value := fun IGF =>
  match LocalTypeData IGF type with
  | Some v => Some (v, IGF)
  | None => None
  end.

(** ** Loads from metadata *)

Definition emitLoadFromMetadataAtIndex (IGM : IRGenModule) (metadata : Value)
    (index : Z) (objectTy : LLVMType) : IRGen Value :=
  let objectPtrTy := PointerTo objectTy in
  metadata' <~ emit (CreateBitCast metadata objectPtrTy) ;;
  let indexV := Const (ConstantInt_get IGM SizeTy index) in
  slot <~ emit (CreateInBoundsGEP metadata' indexV) ;;
  emit (CreateLoad slot).

Definition emitLoadOfMetadataRefAtIndex (IGM : IRGenModule) (metadata : Value)
    (index : Z) : IRGen Value :=
  emitLoadFromMetadataAtIndex IGM metadata index TypeMetadataPtrTy.


(** Lift an aborting computation that emits nothing. *)
Definition liftOption {A} (o : option A) : IRGen A :=
  match o with Some a => ret a | None => abort end.

Section ParentMetadataRef.
Variable IGM : IRGenModule.
(** [ClassMetadataScanner]: the layout of a class and the slots of
    each hook. *)
Variable ClassMetadataScanner_layout : NominalTypeDecl -> list ClassLayout.Hook.
Variable ClassMetadataScanner_slots : ClassLayout.Hook -> Z.

Definition emitParentMetadataRef (decl : NominalTypeDecl) (metadata : Value)
  : IRGen Value :=
  check (isNestedInType decl) ;;;
  match getKind decl with
  | Protocol => abort
  | Class =>
      index <~ liftOption
        (MetadataSearcher.getTargetIndex ClassLayout.isNoteAddressPoint
           ClassMetadataScanner_slots (FindClassParentIndex (declId decl))
           (ClassMetadataScanner_layout decl)) ;;
      emitLoadOfMetadataRefAtIndex IGM metadata index
  | Enum | Struct => emitLoadOfMetadataRefAtIndex IGM metadata 2
  end.
End ParentMetadataRef.

(** ** References to type metadata *)

Definition emitObjCMetadataRef (theClass : NominalTypeDecl) : IRGen Value :=
  let classPtr := Const (AddrOfObjCClass (declId theClass)) in
  emit (CreateCall GetObjCClassMetadataFn [classPtr]).

Definition isMetadataIndirect (theDecl : NominalTypeDecl) : bool := false.

(** [theDecl->getDeclaredType()->getCanonicalType()].  The declared type
    of a generic declaration is its unbound type, written [NominalType]
    here as well; as a type to emit a reference to, the visitor rejects
    it. *)
Definition getDeclaredType (theDecl : NominalTypeDecl) : CanType :=
  NominalType theDecl.

Definition isa_BoundGenericType (t : CanType) : bool :=
  match t with BoundGenericType _ _ => true | _ => false end.

Definition isa_NominalType (t : CanType) : bool :=
  match t with NominalType _ => true | _ => false end.

(** [tryEmitConstantHeapMetadataRef] *)
Definition tryEmitConstantHeapMetadataRef (type : CanType)
  : option (option Constant) :=
  _ ← llvm_assert (isa_NominalType type || isa_BoundGenericType type);
  match type with
  | NominalType theDecl =>
      if bool_decide (is_Some (getGenericParamsOfContext theDecl)) then Some None
      else if (match getKind theDecl with Class => true | _ => false end)
                && negb (hasKnownSwiftMetadata theDecl)
      then Some (Some (AddrOfObjCClass (declId theDecl)))
      else if isMetadataIndirect theDecl then Some None
      else Some (Some (AddrOfTypeMetadata type false false))
  | _ => Some None
  end.

(** Store the collected values into the argument buffer, one after the
    other from index [i] on. *)
Fixpoint storeArguments (argsBuffer : Value) (i : Z) (values : list Value)
  : IRGen unit :=
  match values with
  | [] => ret tt
  | v :: rest =>
      elt <~ emit (CreateStructGEP argsBuffer i) ;;
      emit (CreateStore v elt) ;;;
      storeArguments argsBuffer (i + 1) rest
  end.

(** [emitNominalMetadataRef].  [collect] is [GenericArguments::collect]
    on the bound generic type: the values and their types; it is [None]
    when [theType] is not a bound generic type of [theDecl]. *)
Definition emitNominalMetadataRef
    (collect : option (IRGen (list Value * list LLVMType)))
    (theDecl : NominalTypeDecl) (theType : CanType) : IRGen Value :=
  let generics := getGenericParamsOfContext theDecl in
  let isObjCClass :=
    (match getKind theDecl with Class => true | _ => false end)
    && negb (hasKnownSwiftMetadata theDecl) in
  if isObjCClass then
    check (negb (bool_decide (is_Some generics))) ;;;
    emitObjCMetadataRef theDecl
  else
  let isPattern := bool_decide (is_Some generics) in
  check (negb isPattern || isa_BoundGenericType theType) ;;;
  check (isPattern || isa_NominalType theType) ;;;
  cache <~ (if isPattern then tryGetLocalTypeData theType else ret None) ;;
  match cache with
  | Some cached => ret cached
  | None =>
      let isIndirect := isMetadataIndirect theDecl in
      let declaredType := getDeclaredType theDecl in
      metadata <~ (if isIndirect
                   then emit (CreateLoad
                          (Const (AddrOfTypeMetadata declaredType isIndirect isPattern)))
                   else ret (Const (AddrOfTypeMetadata declaredType isIndirect isPattern))) ;;
      if negb isPattern then ret metadata else
      match collect with
      | None => abort
      | Some collect =>
          genericArgs <~ collect ;;
          argsBuffer <~ emit (CreateAlloca (StructTy genericArgs.2)
                                "generic.arguments") ;;
          storeArguments argsBuffer 0 genericArgs.1 ;;;
          arguments <~ emit (CreateBitCast argsBuffer Int8PtrTy) ;;
          emit (CreateCall GetGenericMetadataFn [metadata; arguments])
      end
  end.

(** [getTupleLabelsString] *)
Definition getTupleLabelsString (fields : list (string * CanType)) : Constant :=
  let '(hasLabels, buffer) :=
    fold_left (fun (acc : bool * string) (elt : string * CanType) =>
                 let '(hasLabels, buffer) := acc in
                 let '(hasLabels, buffer) :=
                   if negb (String.eqb elt.1 EmptyString)
                   then (true, String.append buffer elt.1)
                   else (hasLabels, buffer) in
                 (hasLabels, String.append buffer " "))
              fields (false, EmptyString) in
  if negb hasLabels then ConstantPointerNull Int8PtrTy
  else AddrOfGlobalString buffer.

Definition isPowerOf2 (z : Z) : bool :=
  (0 <? z) && (Z.land z (z - 1) =? 0).

Module EmitTypeMetadataRef.
Section Visitor.
Variable IGM : IRGenModule.
(** [emitWitnessTableRefs] of GenProto, for the substitution with the
    given replacement type: the witness-table values it appends. *)
Variable emitWitnessTableRefs : CanType -> IRGen (list Value).

Definition emitDirectMetadataRef (type : CanType) : Value :=
  Const (AddrOfTypeMetadata type false false).

Definition visitOpaqueType (type : CanType) : IRGen Value :=
  check (getFixedSize IGM type =? getFixedAlignment IGM type) ;;;
  check (isPowerOf2 (getFixedSize IGM type)) ;;;
  let numBits := 8 * getFixedSize IGM type in
  ret (emitDirectMetadataRef (BuiltinIntegerType numBits)).

Definition tryGetLocal (type : CanType) : IRGen (option Value) :=
  tryGetLocalTypeData type.

Definition setLocal (type : CanType) (metatype : Value) : IRGen Value :=
  ret metatype.

Definition unimplementedType (Message : string) : IRGen Value :=
  unimplemented Message ;;;
  ret (Undef TypeMetadataPtrTy).

(** The second loop of [GenericArguments::collect]. *)
Fixpoint collectWitnessTables (subs : list CanType) : IRGen (list Value) :=
  match subs with
  | [] => ret []
  | sub :: rest =>
      tables <~ emitWitnessTableRefs sub ;;
      more <~ collectWitnessTables rest ;;
      ret (tables ++ more)
  end.

(** The first loop of [GenericArguments::collect], [visit] being
    [emitTypeMetadataRef]. *)
Definition collectMetadataRefs (visit : CanType -> IRGen Value)
  : list CanType -> IRGen (list Value) :=
  fix metadataRefs (subs : list CanType) : IRGen (list Value) :=
    match subs with
    | [] => ret []
    | subbed :: rest =>
        v <~ visit subbed ;;
        vs <~ metadataRefs rest ;;
        ret (v :: vs)
    end.

(** The loop of [visitTupleType] over the elements of a tuple of more
    than three: the metadata of element [i] is stored in the buffer, and
    the address of the first slot is remembered. *)
Definition storeElements (visit : CanType -> IRGen Value) (buffer : Value)
  : list (string * CanType) -> Z -> option Value -> IRGen (option Value) :=
  fix elements (elts : list (string * CanType)) (i : Z)
      (pointerToFirst : option Value) : IRGen (option Value) :=
    match elts with
    | [] => ret pointerToFirst
    | (_, elt) :: rest =>
        eltMetadata <~ visit elt ;;
        eltPtr <~ emit (CreateStructGEP buffer i) ;;
        emit (CreateStore eltMetadata eltPtr) ;;;
        elements rest (i + 1)
          (if i =? 0 then Some eltPtr else pointerToFirst)
    end.

(** [visit]; each branch is the [visit...Type] method of that kind. *)
Fixpoint visit (type : CanType) {struct type} : IRGen Value :=
  match type with
  | BuiltinIntegerType _ | BuiltinFloatType _ | BuiltinRawPointerType =>
      visitOpaqueType type
  | BuiltinObjectPointerType | BuiltinObjCPointerType | BuiltinVectorType _ _ =>
      ret (emitDirectMetadataRef type)
  | NominalType decl => emitNominalMetadataRef None decl type
  | BoundGenericType decl replacements =>
      let collect :=
        metadatas <~ collectMetadataRefs visit replacements ;;
        tables <~ collectWitnessTables replacements ;;
        ret (metadatas ++ tables,
             repeat TypeMetadataPtrTy (length metadatas)
             ++ repeat WitnessTablePtrTy (length tables)) in
      emitNominalMetadataRef (Some collect) decl type
  | TupleType fields =>
      cached <~ tryGetLocal type ;;
      match cached with
      | Some cached => ret cached
      | None =>
          match fields with
          | [] =>
              ret (Const (ConstantInBoundsGEP EmptyTupleMetadata [0; 1]))
          | [(_, elt0)] => visit elt0
          | [(_, elt0); (_, elt1)] =>
              elt0Metadata <~ visit elt0 ;;
              elt1Metadata <~ visit elt1 ;;
              call <~ emit (CreateCall GetTupleMetadata2Fn
                        [elt0Metadata; elt1Metadata;
                         Const (getTupleLabelsString fields);
                         Const (ConstantPointerNull WitnessTablePtrTy)]) ;;
              setLocal type call
          | [(_, elt0); (_, elt1); (_, elt2)] =>
              elt0Metadata <~ visit elt0 ;;
              elt1Metadata <~ visit elt1 ;;
              elt2Metadata <~ visit elt2 ;;
              call <~ emit (CreateCall GetTupleMetadata3Fn
                        [elt0Metadata; elt1Metadata; elt2Metadata;
                         Const (getTupleLabelsString fields);
                         Const (ConstantPointerNull WitnessTablePtrTy)]) ;;
              setLocal type call
          | _ =>
              buffer <~ emit (CreateAlloca
                          (ArrayTy TypeMetadataPtrTy (Z.of_nat (length fields)))
                          "tuple-elements") ;;
              pointerToFirst <~ storeElements visit buffer fields 0 None ;;
              match pointerToFirst with
              | None => abort
              | Some pointerToFirst =>
                  call <~ emit (CreateCall GetTupleMetadataFn
                            [Const (ConstantInt_get IGM SizeTy
                                      (Z.of_nat (length fields)));
                             pointerToFirst;
                             Const (getTupleLabelsString fields);
                             Const (ConstantPointerNull WitnessTablePtrTy)]) ;;
                  setLocal type call
              end
          end
      end
  | PolymorphicFunctionType _ _ =>
      unimplementedType "metadata ref for polymorphic function type"
  | GenericFunctionType _ _ =>
      unimplementedType "metadata ref for generic function type"
  | FunctionType input result =>
      metatype <~ tryGetLocal type ;;
      match metatype with
      | Some metatype => ret metatype
      | None =>
          argMetadata <~ visit input ;;
          resultMetadata <~ visit result ;;
          call <~ emit (CreateCall GetFunctionMetadataFn
                    [argMetadata; resultMetadata]) ;;
          setLocal type call
      end
  | ArrayType _ _ => unimplementedType "metadata ref for array type"
  | MetaTypeType instance =>
      metatype <~ tryGetLocal type ;;
      match metatype with
      | Some metatype => ret metatype
      | None =>
          instMetadata <~ visit instance ;;
          call <~ emit (CreateCall GetMetatypeMetadataFn [instMetadata]) ;;
          setLocal type call
      end
  | ModuleType _ => unimplementedType "metadata ref for module type"
  | ProtocolCompositionType _ =>
      unimplementedType "metadata ref for protocol comp type"
  | ReferenceStorageType _ =>
      unimplementedType "metadata ref for ref storage type"
  | ArchetypeType _ => getLocalTypeData type
  | GenericTypeParamType _ _ =>
      unimplementedType "metadata ref for generic type parameter"
  | DependentMemberType _ _ =>
      unimplementedType "metadata ref for dependent member type"
  | LValueType _ => unimplementedType "metadata ref for l-value type"
  end.
End Visitor.
End EmitTypeMetadataRef.

(** [IRGenFunction::emitTypeMetadataRef] *)
Definition emitTypeMetadataRef (IGM : IRGenModule)
    (emitWitnessTableRefs : CanType -> IRGen (list Value)) (type : CanType)
  : IRGen Value :=
  EmitTypeMetadataRef.visit IGM emitWitnessTableRefs type.

(** ** Metadata builders

    A builder hook appends constants to [Fields]; a hook is given here by
    the constants it appends, from the number of fields already there
    and the builder's other state. *)

Module ClassMetadataBuilderBase.
Import ClassLayout.

Record State := mkState {
  (** [DenseMap<FuncDecl*,FuncDecl*>], keyed by the declaration's address *)
  FinalOverriders : gmap positive FuncDecl;
  (** the initialisers set on witness-table offset variables *)
  WitnessTableOffsets : list (FunctionRef * Constant)
}.

(** The body of the loop over the members of one class. *)
Definition noteMember (FO : gmap positive FuncDecl) (member : Decl)
  : gmap positive FuncDecl :=
  match member with
  | FuncMember fn =>
      let finalOverrider := default fn (FO !! funcId fn) in
      let FO := <[funcId fn := finalOverrider]> FO in
      match getOverriddenDecl fn with
      | Some overridden =>
          match FO !! funcId overridden with
          | Some _ => FO
          | None => <[funcId overridden := finalOverrider]> FO
          end
      | None => FO
      end
  | _ => FO
  end.

(** The [do ... while] up the class hierarchy, from [cls]. *)
Fixpoint computeFinalOverriders_from (cls : ClassDecl)
    (FO : gmap positive FuncDecl) {struct cls} : gmap positive FuncDecl :=
  let FO := fold_left noteMember (getMembers cls) FO in
  match cls with
  | mkClassDecl _ _ _ (Some (_, super)) => computeFinalOverriders_from super FO
  | mkClassDecl _ _ _ None => FO
  end.

Definition computeFinalOverriders (TargetClass : ClassDecl)
  : gmap positive FuncDecl :=
  computeFinalOverriders_from TargetClass ∅.

(** The constructor. *)
Definition create (TargetClass : ClassDecl) : State :=
  mkState (computeFinalOverriders TargetClass) [].

Definition addReferenceToType (type : CanType) : option Constant :=
  metadata ← tryEmitConstantHeapMetadataRef type;
  Some (default (ConstantPointerNull TypeMetadataPtrTy) metadata).

(** [fn.getDecl()->getDeclContext() == TargetClass] *)
Definition isDeclaredIn (fn : FuncDecl) (TargetClass : ClassDecl) : bool :=
  match getDeclContext fn with
  | NominalContext d => Pos.eqb (declId d) (classId TargetClass)
  | _ => false
  end.

Section Hooks.
Variable IGM : IRGenModule.
Variable TargetClass : ClassDecl.

Definition addMethod (fn : FunctionRef) (size : Z) (s : State)
  : option (list Constant * State) :=
  let s' :=
    if isDeclaredIn (getDecl fn) TargetClass then
      let offset := size * getPointerSize IGM in
      mkState (FinalOverriders s)
        (WitnessTableOffsets s ++ [(fn, ConstantInt_get IGM SizeTy offset)])
    else s in
  finalOverrider ← FinalOverriders s !! funcId (getDecl fn);
  let fn' := mkFunctionRef finalOverrider (getExplosionLevel fn)
               (getUncurryLevel fn) in
  Some ([AddrOfFunction fn'], s').

Definition call (h : Hook) (size : Z) (s : State)
  : option (list Constant * State) :=
  match h with
  | noteAddressPoint => Some ([], s)
  | addMetadataFlags =>
      Some ([ConstantPtrToInt (AddrOfMetaclassObject (classId TargetClass))
               IntPtrTy], s)
  | addValueWitnessTable =>
      let type := if isObjC (asNominal TargetClass)
                  then BuiltinObjCPointerType
                  else BuiltinObjectPointerType in
      Some ([AddrOfValueWitnessTable type], s)
  | addDestructorFunction =>
      Some ([AddrOfDestructor (classId TargetClass)], s)
  | addParentMetadataRef forClass =>
      c ← addReferenceToType (getDeclaredTypeOfContext forClass);
      Some ([c], s)
  | addSuperClass =>
      match getSuperclass TargetClass with
      | None =>
          if negb (ObjCInterop IGM)
          then Some ([ConstantPointerNull TypeMetadataPtrTy], s)
          else Some ([AddrOfObjCClass (getSwiftRootClass IGM)], s)
      | Some (superclass, _) =>
          c ← addReferenceToType superclass; Some ([c], s)
      end
  | addClassCacheData => Some ([ObjCEmptyCachePtr; ObjCEmptyVTablePtr], s)
  | addClassDataPointer =>
      let data := ClassPrivateData (classId TargetClass) in
      let data := ConstantPtrToInt data IntPtrTy in
      Some ([ConstantAdd data (ConstantInt_get IGM IntPtrTy 1)], s)
  | addFieldOffset var => Some ([ConstantInt_get IGM IntPtrTy 0], s)
  | ClassLayout.addMethod fn => addMethod fn size s
  | addGenericArgument archetype forClass =>
      Some ([ConstantPointerNull TypeMetadataPtrTy], s)
  | addGenericWitnessTable archetype protocol forClass =>
      Some ([ConstantPointerNull WitnessTablePtrTy], s)
  end.

(** [layout()] of the non-generic builder on a sequence of hook calls:
    the fields and the state after it. *)
Fixpoint layout (calls : list Hook) (Fields : list Constant) (s : State)
  : option (list Constant * State) :=
  match calls with
  | [] => Some (Fields, s)
  | h :: rest =>
      r ← call h (Z.of_nat (length Fields)) s;
      layout rest (Fields ++ r.1) r.2
  end.
End Hooks.
End ClassMetadataBuilderBase.

Module StructMetadataBuilderBase.
Import ValueLayout.

(** The hooks of the base; [addValueWitnessTable] is the subclass's. *)
Definition call (h : Hook) : list Constant :=
  match h with
  | noteAddressPoint => []
  | addMetadataFlags => [MetadataKindConstant MK_Struct]
  | addNominalTypeDescriptor => [ConstantPointerNull Int8PtrTy]
  | addParentMetadataRef => [ConstantPointerNull TypeMetadataPtrTy]
  | addValueWitnessTable => []
  | addGenericArgument type => [ConstantPointerNull TypeMetadataPtrTy]
  | addGenericWitnessTable type protocol => [ConstantPointerNull WitnessTablePtrTy]
  end.
End StructMetadataBuilderBase.

Module EnumMetadataBuilderBase.
Import ValueLayout.

Definition call (h : Hook) : list Constant :=
  match h with
  | noteAddressPoint => []
  | addMetadataFlags => [MetadataKindConstant MK_Enum]
  | addNominalTypeDescriptor => [ConstantPointerNull Int8PtrTy]
  | addParentMetadataRef => [ConstantPointerNull TypeMetadataPtrTy]
  | addValueWitnessTable => []
  | addGenericArgument type => [ConstantPointerNull TypeMetadataPtrTy]
  | addGenericWitnessTable type protocol => [ConstantPointerNull WitnessTablePtrTy]
  end.
End EnumMetadataBuilderBase.

(** [addValueWitnessTableSlotForGenericValueType]: the field it appends
    and whether the table is dependent. *)
Definition addValueWitnessTableSlotForGenericValueType (IGM : IRGenModule)
    (decl : NominalTypeDecl) : list Constant * bool :=
  let unboundType := getDeclaredType decl in
  let dependent := hasDependentValueWitnessTable IGM unboundType in
  (if dependent then [ConstantPointerNull Int8PtrTy]
   else [ValueWitnessTable unboundType],
   dependent).

(** How [GenericMetadataBuilderBase] treats a hook. *)
Inductive HookKind :=
| NoteAddressPoint
| GenericArgument
| GenericWitnessTable
| OtherHook.

Module GenericMetadataBuilderBase.
Definition TemplateHeaderFieldCount : Z := 5.

Record State (Extra : Type) := mkState {
  Fields : list (option Constant);
  base : Extra;
  NumGenericWitnesses : Z;
  AddressPoint : Z;
  FillOps : list FillOp;
  HasDependentVWT : bool;
  DependentVWTPoint : Z
}.
Arguments mkState {Extra}.
Arguments Fields {Extra}.
Arguments base {Extra}.
Arguments NumGenericWitnesses {Extra}.
Arguments AddressPoint {Extra}.
Arguments FillOps {Extra}.
Arguments HasDependentVWT {Extra}.
Arguments DependentVWTPoint {Extra}.

Section Builder.
Context {Hook Extra : Type}.
Variable IGM : IRGenModule.
Variable classify : Hook -> HookKind.
(** The hook as the classes under the adapter define it: the fields
    appended, the new state of the base, and the value assigned to
    [HasDependentVWT] when the hook assigns it. *)
Variable superCall :
  Hook -> Z -> Extra -> option (list Constant * Extra * option bool).
(** [asImpl().addDependentValueWitnessTablePattern()] *)
Variable addDependentValueWitnessTablePattern : option (list Constant).

Definition initial (b : Extra) : State Extra :=
  mkState [] b 0 0 [] false 0.

(** [super::getNextIndex()] is [Fields.size()] as an [unsigned]. *)
Definition getNextIndex (s : State Extra) : Z :=
  wrap32 (wrap32 (Z.of_nat (length (Fields s))) - TemplateHeaderFieldCount).

Definition callSuper (h : Hook) (s : State Extra) : option (State Extra) :=
  r ← superCall h (Z.of_nat (length (Fields s))) (base s);
  Some (mkState (Fields s ++ map Some r.1.1) r.1.2
          (NumGenericWitnesses s) (AddressPoint s) (FillOps s)
          (default (HasDependentVWT s) r.2) (DependentVWTPoint s)).

Definition noteAddressPoint (h : Hook) (s : State Extra) : option (State Extra) :=
  callSuper h
    (mkState (Fields s) (base s) (NumGenericWitnesses s) (getNextIndex s)
       (FillOps s) (HasDependentVWT s) (DependentVWTPoint s)).

(** [addGenericArgument] and [addGenericWitnessTable] *)
Definition addGenericSlot (h : Hook) (s : State Extra) : option (State Extra) :=
  callSuper h
    (mkState (Fields s) (base s) (wrap32 (NumGenericWitnesses s + 1))
       (AddressPoint s)
       (FillOps s ++ [mkFillOp (NumGenericWitnesses s) (getNextIndex s)])
       (HasDependentVWT s) (DependentVWTPoint s)).

Definition call (h : Hook) (s : State Extra) : option (State Extra) :=
  match classify h with
  | NoteAddressPoint => noteAddressPoint h s
  | GenericArgument | GenericWitnessTable => addGenericSlot h s
  | OtherHook => callSuper h s
  end.

(** [super::layout()] on a sequence of hook calls *)
Fixpoint superLayout (calls : list Hook) (s : State Extra)
  : option (State Extra) :=
  match calls with
  | [] => Some s
  | h :: rest => s' ← call h s; superLayout rest s'
  end.

Definition emitFillFunction (s : State Extra) : option Constant :=
  if HasDependentVWT s then
    _ ← llvm_assert (1 <=? AddressPoint s);
    _ ← llvm_assert (negb (DependentVWTPoint s =? 0));
    Some (FillFunction (FillOps s)
            (Some (DependentVWTPoint s, AddressPoint s)))
  else Some (FillFunction (FillOps s) None).

Definition getPrivateDataInit : Constant :=
  let null := ConstantPointerNull Int8PtrTy in
  ConstantArray Int8PtrTy [null; null; null; null; null; null; null; null].

Definition setFields (s : State Extra) (fs : list (option Constant))
  : State Extra :=
  mkState fs (base s) (NumGenericWitnesses s) (AddressPoint s) (FillOps s)
    (HasDependentVWT s) (DependentVWTPoint s).

(** [Fields.append(TemplateHeaderFieldCount, nullptr)] *)
Definition reserveHeader (s : State Extra) : State Extra :=
  setFields s (Fields s ++ repeat None (Z.to_nat TemplateHeaderFieldCount)).

Definition layout (calls : list Hook) (s : State Extra)
  : option (State Extra) :=
  let s := reserveHeader s in
  s ← superLayout calls s;
  s ← (if HasDependentVWT s then
         pattern ← addDependentValueWitnessTablePattern;
         Some (mkState (Fields s ++ map Some pattern) (base s)
                 (NumGenericWitnesses s) (AddressPoint s) (FillOps s)
                 (HasDependentVWT s) (getNextIndex s))
       else Some s);
  let Field := 0%nat in
  fill ← emitFillFunction s;
  let s := setFields s (<[Field := Some fill]> (Fields s)) in
  let Field := S Field in
  let size := getNextIndex s * getPointerSize IGM in
  let s := setFields s
             (<[Field := Some (ConstantInt_get IGM Int32Ty size)]> (Fields s)) in
  let Field := S Field in
  let s := setFields s
             (<[Field := Some (ConstantInt_get IGM Int16Ty (NumGenericWitnesses s))]>
                (Fields s)) in
  let Field := S Field in
  _ ← llvm_assert (negb (AddressPoint s =? 0));
  let addressPoint := AddressPoint s * getPointerSize IGM in
  let s := setFields s
             (<[Field := Some (ConstantInt_get IGM Int16Ty addressPoint)]>
                (Fields s)) in
  let Field := S Field in
  let s := setFields s (<[Field := Some getPrivateDataInit]> (Fields s)) in
  let Field := S Field in
  _ ← llvm_assert (TemplateHeaderFieldCount =? Z.of_nat Field);
  Some s.
End Builder.
End GenericMetadataBuilderBase.

Definition classifyClassHook (h : ClassLayout.Hook) : HookKind :=
  match h with
  | ClassLayout.noteAddressPoint => NoteAddressPoint
  | ClassLayout.addGenericArgument _ _ => GenericArgument
  | ClassLayout.addGenericWitnessTable _ _ _ => GenericWitnessTable
  | _ => OtherHook
  end.

Definition classifyValueHook (h : ValueLayout.Hook) : HookKind :=
  match h with
  | ValueLayout.noteAddressPoint => NoteAddressPoint
  | ValueLayout.addGenericArgument _ => GenericArgument
  | ValueLayout.addGenericWitnessTable _ _ => GenericWitnessTable
  | _ => OtherHook
  end.

Module GenericClassMetadataBuilder.
Definition superCall (IGM : IRGenModule) (TargetClass : ClassDecl)
    (h : ClassLayout.Hook) (size : Z) (s : ClassMetadataBuilderBase.State)
  : option (list Constant * ClassMetadataBuilderBase.State * option bool) :=
  r ← ClassMetadataBuilderBase.call IGM TargetClass h size s;
  Some (r, None).

(** [llvm_unreachable("classes should never have dependent vwtables")] *)
Definition addDependentValueWitnessTablePattern : option (list Constant) := None.

Definition layout (IGM : IRGenModule) (TargetClass : ClassDecl)
    (calls : list ClassLayout.Hook)
  : option (GenericMetadataBuilderBase.State ClassMetadataBuilderBase.State) :=
  GenericMetadataBuilderBase.layout IGM classifyClassHook
    (superCall IGM TargetClass) addDependentValueWitnessTablePattern calls
    (GenericMetadataBuilderBase.initial (ClassMetadataBuilderBase.create TargetClass)).
End GenericClassMetadataBuilder.

Module GenericStructMetadataBuilder.
Definition superCall (IGM : IRGenModule) (Target : NominalTypeDecl)
    (h : ValueLayout.Hook) (size : Z) (s : unit)
  : option (list Constant * unit * option bool) :=
  match h with
  | ValueLayout.addValueWitnessTable =>
      let r := addValueWitnessTableSlotForGenericValueType IGM Target in
      Some (r.1, s, Some r.2)
  | _ => Some (StructMetadataBuilderBase.call h, s, None)
  end.

Definition addDependentValueWitnessTablePattern (IGM : IRGenModule)
    (Target : NominalTypeDecl) : option (list Constant) :=
  Some (dependentValueWitnessTablePattern IGM (getDeclaredType Target)).

Definition layout (IGM : IRGenModule) (Target : NominalTypeDecl)
    (calls : list ValueLayout.Hook)
  : option (GenericMetadataBuilderBase.State unit) :=
  GenericMetadataBuilderBase.layout IGM classifyValueHook
    (superCall IGM Target) (addDependentValueWitnessTablePattern IGM Target)
    calls (GenericMetadataBuilderBase.initial tt).
End GenericStructMetadataBuilder.

Module GenericEnumMetadataBuilder.
Definition superCall (IGM : IRGenModule) (Target : NominalTypeDecl)
    (h : ValueLayout.Hook) (size : Z) (s : unit)
  : option (list Constant * unit * option bool) :=
  match h with
  | ValueLayout.addValueWitnessTable =>
      let r := addValueWitnessTableSlotForGenericValueType IGM Target in
      Some (r.1, s, Some r.2)
  | _ => Some (EnumMetadataBuilderBase.call h, s, None)
  end.

Definition addDependentValueWitnessTablePattern (IGM : IRGenModule)
    (Target : NominalTypeDecl) : option (list Constant) :=
  Some (dependentValueWitnessTablePattern IGM (getDeclaredType Target)).

Definition layout (IGM : IRGenModule) (Target : NominalTypeDecl)
    (calls : list ValueLayout.Hook)
  : option (GenericMetadataBuilderBase.State unit) :=
  GenericMetadataBuilderBase.layout IGM classifyValueHook
    (superCall IGM Target) (addDependentValueWitnessTablePattern IGM Target)
    calls (GenericMetadataBuilderBase.initial tt).
End GenericEnumMetadataBuilder.

(** ** Notions the statements use *)

(** The declarations a method overrides, the closest first. *)
Fixpoint overrideChainFrom (overridden : FuncDecl) : list FuncDecl :=
  overridden ::
  match overridden with
  | mkFuncDecl _ _ _ _ (Some next) => overrideChainFrom next
  | mkFuncDecl _ _ _ _ None => []
  end.

Definition overrideChain (fn : FuncDecl) : list FuncDecl :=
  match getOverriddenDecl fn with
  | Some overridden => overrideChainFrom overridden
  | None => []
  end.

(** An ancestor the walk of [doesMethodRequireOverrideEntry] passes: it
    has a v-table entry and is judged not compatible. *)
Definition passed (IGM : IRGenModule) (fn : FuncDecl)
    (explosionLevel : ExplosionKind) (uncurryLevel : Z) (x : FuncDecl) : Prop :=
  hasKnownVTableEntry x = Some true /\
  isCompatibleOverride IGM fn x explosionLevel uncurryLevel = Some false.

(** The methods among the members of a class. *)
Definition methodsOf (cls : ClassDecl) : list FuncDecl :=
  omap (fun member => match member with FuncMember fn => Some fn | _ => None end)
       (getMembers cls).

(** The methods of a class and of its superclasses, in the order
    [computeFinalOverriders] meets them, each with the depth of its class
    ([depth] for [cls], one more for each step up). *)
Fixpoint hierarchyMethodsFrom (depth : nat) (cls : ClassDecl) {struct cls}
  : list (nat * FuncDecl) :=
  map (pair depth) (methodsOf cls) ++
  match cls with
  | mkClassDecl _ _ _ (Some (_, super)) => hierarchyMethodsFrom (S depth) super
  | mkClassDecl _ _ _ None => []
  end.

Definition hierarchyMethods (cls : ClassDecl) : list (nat * FuncDecl) :=
  hierarchyMethodsFrom 0 cls.

(** [overridesThrough L f k]: [f] is, or overrides through methods of
    [L], the declaration at address [k]. *)
Inductive overridesThrough (L : list FuncDecl) (f : FuncDecl) : positive -> Prop :=
| overrides_self : overridesThrough L f (funcId f)
| overrides_step g h :
    g ∈ L -> getOverriddenDecl g = Some h ->
    overridesThrough L f (funcId g) ->
    overridesThrough L f (funcId h).

(** What the type checker guarantees of a class hierarchy: distinct
    methods have distinct addresses, a method overrides a method of a
    strict ancestor, and no two methods of the hierarchy override the
    same declaration directly. *)
Record WellFormedHierarchy (cls : ClassDecl) : Prop := {
  wf_addresses : NoDup (map (fun x => funcId x.2) (hierarchyMethods cls));
  wf_override_up : forall i g j m h,
    (i, g) ∈ hierarchyMethods cls -> (j, m) ∈ hierarchyMethods cls ->
    getOverriddenDecl g = Some h -> funcId h = funcId m -> (i < j)%nat;
  wf_single_overrider : forall i1 g1 i2 g2 h1 h2,
    (i1, g1) ∈ hierarchyMethods cls -> (i2, g2) ∈ hierarchyMethods cls ->
    getOverriddenDecl g1 = Some h1 -> getOverriddenDecl g2 = Some h2 ->
    funcId h1 = funcId h2 -> funcId g1 = funcId g2
}.

(** [f] is the final overrider of [m] in the hierarchy of [cls]: a method
    of the hierarchy that is or overrides [m], that overrides every
    method of the hierarchy that is or overrides [m], and whose class is
    at least as derived as theirs. *)
Definition isFinalOverrider (cls : ClassDecl) (m f : FuncDecl) : Prop :=
  let L := hierarchyMethods cls in
  (exists i, (i, f) ∈ L) /\
  overridesThrough L.*2 f (funcId m) /\
  forall j g, (j, g) ∈ L -> overridesThrough L.*2 g (funcId m) ->
    overridesThrough L.*2 f (funcId g) /\
    forall i, (i, f) ∈ L -> (i <= j)%nat.

(** The step of [computeFinalOverriders] on a member that is a method. *)
Definition noteMethod (FO : gmap positive FuncDecl) (fn : FuncDecl)
  : gmap positive FuncDecl :=
  ClassMetadataBuilderBase.noteMember FO (FuncMember fn).

(** No method of [L] overrides [f]. *)
Definition unoverridden (L : list FuncDecl) (f : FuncDecl) : Prop :=
  forall g h, g ∈ L -> getOverriddenDecl g = Some h -> funcId h <> funcId f.

(** The invariant of [computeFinalOverriders] once the methods [P] of
    the methods [HM] of the hierarchy have been met. *)
Record FinalOverridersInv (HM P : list (nat * FuncDecl))
    (FO : gmap positive FuncDecl) : Prop := {
  inv_entries : forall k f, FO !! k = Some f ->
    f ∈ P.*2 /\ unoverridden HM.*2 f /\ overridesThrough HM.*2 f k;
  inv_members : forall g, g ∈ P.*2 -> is_Some (FO !! funcId g);
  inv_overridden : forall g h, g ∈ P.*2 -> getOverriddenDecl g = Some h ->
    is_Some (FO !! funcId h)
}.

(** The slots a layout takes up under a searcher, and the calls the
    searcher takes for its target. *)
Section SearcherSlots.
Context {Hook : Type}.
Variable isNoteAddressPoint : Hook -> bool.
Variable scannerSlots : Hook -> Z.
Variable overridden : Hook -> option bool.

Definition slotsOf (h : Hook) : Z :=
  if isNoteAddressPoint h then 0
  else match overridden h with
       | Some _ => 1
       | None => scannerSlots h
       end.

Definition slotCount (calls : list Hook) : Z :=
  foldr (fun h n => slotsOf h + n) 0 calls.

Definition isTargetCall (h : Hook) : bool :=
  negb (isNoteAddressPoint h)
  && match overridden h with Some true => true | _ => false end.
End SearcherSlots.

(** The calls of a layout that are generic-argument or
    generic-witness-table hooks. *)
Definition isGenericSlot (k : HookKind) : bool :=
  match k with
  | GenericArgument | GenericWitnessTable => true
  | _ => false
  end.

Definition isAddressPointNote (k : HookKind) : bool :=
  match k with NoteAddressPoint => true | _ => false end.

Definition genericSlotCalls {Hook : Type} (classify : Hook -> HookKind)
    (calls : list Hook) : nat :=
  length (filter (fun h => isGenericSlot (classify h) = true) calls).

(** The fill operations recorded so far are numbered from zero and
    [NumGenericWitnesses] counts them. *)
Definition numbered {Extra : Type} (s : GenericMetadataBuilderBase.State Extra)
  : Prop :=
  GenericMetadataBuilderBase.NumGenericWitnesses s
  = wrap32 (Z.of_nat (length (GenericMetadataBuilderBase.FillOps s))) /\
  forall i op, GenericMetadataBuilderBase.FillOps s !! i = Some op ->
    FromIndex op = wrap32 (Z.of_nat i).

(** Width in bits of a value of an LLVM type on the target. *)
Fixpoint typeWidth (IGM : IRGenModule) (ty : LLVMType) : Z :=
  match ty with
  | Int16Ty => 16
  | Int32Ty => 32
  | MetadataKindTy => 8
  | VoidTy => 0
  | SizeTy | IntPtrTy | TypeMetadataPtrTy | TypeMetadataPatternPtrTy
  | WitnessTablePtrTy | Int8PtrTy | PointerTo _ | FunctionTy _ _ =>
      8 * getPointerSize IGM
  | ArrayTy elt n => n * typeWidth IGM elt
  | StructTy elts => foldr (fun t n => typeWidth IGM t + n) 0 elts
  end.

(** The LLVM type of the constants a template header is made of. *)
Definition headerFieldType (c : Constant) : LLVMType :=
  match c with
  | ConstantInt ty _ => ty
  | ConstantPointerNull ty => ty
  | ConstantArray eltTy elts => ArrayTy eltTy (Z.of_nat (length elts))
  | FillFunction _ _ => PointerTo (FunctionTy VoidTy [Int8PtrTy; Int8PtrTy])
  | _ => Int8PtrTy
  end.

(** A field of a record is machine-word-sized. *)
Definition wordSized (IGM : IRGenModule) (field : option Constant) : Prop :=
  exists c, field = Some c /\
    typeWidth IGM (headerFieldType c) = 8 * getPointerSize IGM.

(** Two emissions of a reference to the same type, one after the other
    in one function. *)
Definition emitTwice (IGM : IRGenModule)
    (emitWitnessTableRefs : CanType -> IRGen (list Value)) (type : CanType)
  : IRGen (Value * Value) :=
  first <~ emitTypeMetadataRef IGM emitWitnessTableRefs type ;;
  second <~ emitTypeMetadataRef IGM emitWitnessTableRefs type ;;
  ret (first, second).

Definition RuntimeFn_eqb (a b : RuntimeFn) : bool :=
  match a, b with
  | GetObjCClassMetadataFn, GetObjCClassMetadataFn
  | GetGenericMetadataFn, GetGenericMetadataFn
  | GetTupleMetadataFn, GetTupleMetadataFn
  | GetTupleMetadata2Fn, GetTupleMetadata2Fn
  | GetTupleMetadata3Fn, GetTupleMetadata3Fn
  | GetFunctionMetadataFn, GetFunctionMetadataFn
  | GetMetatypeMetadataFn, GetMetatypeMetadataFn => true
  | _, _ => false
  end.

(** The calls to a runtime entry point among the instructions built. *)
Definition isCallTo (fn : RuntimeFn) (i : Instruction) : bool :=
  match i with
  | CreateCall callee _ => RuntimeFn_eqb callee fn
  | _ => false
  end.

Definition runtimeCalls (fn : RuntimeFn) (instructions : list Instruction) : nat :=
  length (filter (fun i => isCallTo fn i = true) instructions).

(** The types a canonical type is made of, one level down. *)
Definition componentTypes (t : CanType) : list CanType :=
  match t with
  | BuiltinVectorType elt _ => [elt]
  | BoundGenericType _ replacements => replacements
  | TupleType fields => fields.*2
  | FunctionType input result
  | PolymorphicFunctionType input result
  | GenericFunctionType input result => [input; result]
  | ArrayType base _ => [base]
  | MetaTypeType instance => [instance]
  | ProtocolCompositionType protocols => protocols
  | ReferenceStorageType referent => [referent]
  | DependentMemberType base _ => [base]
  | LValueType object => [object]
  | _ => []
  end.

(** A piece of code generation leaves the local type data of the
    function as it was. *)
Definition keepsLocalTypeData {A : Type} (c : IRGen A) : Prop :=
  forall IGF a IGF', c IGF = Some (a, IGF') -> LocalTypeData IGF' = LocalTypeData IGF.

(** ** Declarations used in the examples *)

Module Scenario.
Definition isArchetype (t : CanType) : bool :=
  match t with ArchetypeType _ => true | _ => false end.

(** A 64-bit target on which a value of archetype type is passed and
    returned in memory and every other value directly. *)
Definition IGM64 : IRGenModule := {|
  requiresIndirectResult := fun t _ => isArchetype t;
  differsByAbstractionInExplosion := fun a b _ => xorb (isArchetype a) (isArchetype b);
  differsByAbstractionInMemory := fun a b => xorb (isArchetype a) (isArchetype b);
  getPointerSize := 8;
  ObjCInterop := true;
  getSwiftRootClass := 1000;
  hasDependentValueWitnessTable := fun _ => false;
  dependentValueWitnessTablePattern := fun _ => [];
  getFixedSize := fun _ => 8;
  getFixedAlignment := fun _ => 8
|}.

Definition IntDecl : NominalTypeDecl :=
  mkNominalTypeDecl 1 Struct false false None false.
Definition Int : CanType := NominalType IntDecl.

(** [class Base<T> { func f(Int) -> T }] and
    [class Derived : Base<Int> { override func f(Int) -> Int }] *)
Definition T : CanType := ArchetypeType 10.
Definition BaseDecl : NominalTypeDecl :=
  mkNominalTypeDecl 2 Class false false (Some [10%positive]) false.
Definition DerivedDecl : NominalTypeDecl :=
  mkNominalTypeDecl 3 Class false false None false.
Definition Base_f : FuncDecl :=
  mkFuncDecl 100 (NominalContext BaseDecl)
    (FunctionType (BoundGenericType BaseDecl [T]) (FunctionType Int T))
    false None.
Definition Derived_f : FuncDecl :=
  mkFuncDecl 101 (NominalContext DerivedDecl)
    (FunctionType (NominalType DerivedDecl) (FunctionType Int Int))
    false (Some Base_f).

(** An imported class [View] with a method [draw], a native subclass
    [Panel] overriding it, and [Dialog : Panel] overriding it again. *)
Definition Void : CanType := TupleType [].
Definition ViewDecl : NominalTypeDecl :=
  mkNominalTypeDecl 20 Class true true None false.
Definition PanelDecl : NominalTypeDecl :=
  mkNominalTypeDecl 21 Class false true None false.
Definition DialogDecl : NominalTypeDecl :=
  mkNominalTypeDecl 22 Class false true None false.
Definition View_draw : FuncDecl :=
  mkFuncDecl 200 (NominalContext ViewDecl)
    (FunctionType (NominalType ViewDecl) (FunctionType Void Void)) true None.
Definition Panel_draw : FuncDecl :=
  mkFuncDecl 201 (NominalContext PanelDecl)
    (FunctionType (NominalType PanelDecl) (FunctionType Void Void)) false
    (Some View_draw).
Definition Dialog_draw : FuncDecl :=
  mkFuncDecl 202 (NominalContext DialogDecl)
    (FunctionType (NominalType DialogDecl) (FunctionType Void Void)) false
    (Some Panel_draw).

(** Nested in [struct Geometry]: [class Shape { func area(); func name() }],
    [class Polygon : Shape { override func area() }] and
    [class Square : Polygon { override func area(); func side() }] *)
Definition GeometryDecl : NominalTypeDecl :=
  mkNominalTypeDecl 29 Struct false false None false.
Definition ShapeDecl : NominalTypeDecl :=
  mkNominalTypeDecl 30 Class false false None true.
Definition PolygonDecl : NominalTypeDecl :=
  mkNominalTypeDecl 31 Class false false None true.
Definition SquareDecl : NominalTypeDecl :=
  mkNominalTypeDecl 32 Class false false None true.
Definition methodType (self : NominalTypeDecl) : CanType :=
  FunctionType (NominalType self) (FunctionType Void Int).
Definition Shape_area : FuncDecl :=
  mkFuncDecl 300 (NominalContext ShapeDecl) (methodType ShapeDecl) false None.
Definition Shape_name : FuncDecl :=
  mkFuncDecl 301 (NominalContext ShapeDecl) (methodType ShapeDecl) false None.
Definition Polygon_area : FuncDecl :=
  mkFuncDecl 310 (NominalContext PolygonDecl) (methodType PolygonDecl) false
    (Some Shape_area).
Definition Square_area : FuncDecl :=
  mkFuncDecl 320 (NominalContext SquareDecl) (methodType SquareDecl) false
    (Some Polygon_area).
Definition Square_side : FuncDecl :=
  mkFuncDecl 321 (NominalContext SquareDecl) (methodType SquareDecl) false None.
Definition ShapeClass : ClassDecl :=
  mkClassDecl ShapeDecl [VarMember 1; FuncMember Shape_area; FuncMember Shape_name]
    (NominalType GeometryDecl) None.
Definition PolygonClass : ClassDecl :=
  mkClassDecl PolygonDecl [FuncMember Polygon_area] (NominalType GeometryDecl)
    (Some (NominalType ShapeDecl, ShapeClass)).
Definition SquareClass : ClassDecl :=
  mkClassDecl SquareDecl [FuncMember Square_area; VarMember 2; FuncMember Square_side]
    (NominalType GeometryDecl) (Some (NominalType PolygonDecl, PolygonClass)).

(** A class layout in the order flags, value witness table, destructor,
    parent, superclass, address point, then the field and the methods,
    with one slot for each hook. *)
Definition squareLayout : list ClassLayout.Hook :=
  [ClassLayout.addMetadataFlags; ClassLayout.addValueWitnessTable;
   ClassLayout.addDestructorFunction; ClassLayout.addParentMetadataRef SquareClass;
   ClassLayout.addSuperClass; ClassLayout.noteAddressPoint;
   ClassLayout.addFieldOffset 2;
   ClassLayout.addMethod (mkFunctionRef Shape_area Minimal 1);
   ClassLayout.addMethod (mkFunctionRef Shape_name Minimal 1);
   ClassLayout.addMethod (mkFunctionRef Square_side Minimal 1)].
Definition oneSlot (h : ClassLayout.Hook) : Z := 1.

(** [struct Box<T : P>], laid out in the order flags, descriptor, parent,
    address point, value witness table, generic argument, witness
    table. *)
Definition BoxDecl : NominalTypeDecl :=
  mkNominalTypeDecl 40 Struct false false (Some [10%positive]) false.
Definition boxLayout : list ValueLayout.Hook :=
  [ValueLayout.addMetadataFlags; ValueLayout.addNominalTypeDescriptor;
   ValueLayout.addParentMetadataRef; ValueLayout.noteAddressPoint;
   ValueLayout.addValueWitnessTable; ValueLayout.addGenericArgument 10;
   ValueLayout.addGenericWitnessTable 10 50].

(** The template built for [Box], and the builder once the hooks before
    the address point have run. *)
Definition boxTemplate : GenericMetadataBuilderBase.State unit :=
  Eval vm_compute in
    default (GenericMetadataBuilderBase.initial tt)
      (GenericStructMetadataBuilder.layout IGM64 BoxDecl boxLayout).
Definition boxBeforeAddressPoint : GenericMetadataBuilderBase.State unit :=
  Eval vm_compute in
    default (GenericMetadataBuilderBase.initial tt)
      (GenericMetadataBuilderBase.superLayout classifyValueHook
         (GenericStructMetadataBuilder.superCall IGM64 BoxDecl)
         (firstn 3 boxLayout)
         (GenericMetadataBuilderBase.reserveHeader
            (GenericMetadataBuilderBase.initial tt))).

(** A function-generation session that has built nothing and has no
    local type data, and a code generator without witness tables to
    pass. *)
Definition newSession : IRGenFunction := mkIRGenFunction [] (fun _ => None) [].
Definition noWitnessTables (replacement : CanType) : IRGen (list Value) := ret [].

(** [(Int, Int)], [(x: Int)] and [Box<Int>] *)
Definition IntPair : CanType := TupleType [(EmptyString, Int); (EmptyString, Int)].
Definition IntSingleton : CanType := TupleType [("x"%string, Int)].
Definition BoxOfInt : CanType := BoundGenericType BoxDecl [Int].
End Scenario.

(** ** Virtual dispatch *)

(** The body of the [while] of [findOverriddenFunction], entered with
    [cur] advanced to a declaration that is there. *)
Fixpoint findOverriddenFunction_from (IGM : IRGenModule)
    (explosionLevel : ExplosionKind) (uncurryLevel : Z)
    (method cur : FuncDecl) {struct cur} : option FuncDecl :=
  known ← hasKnownVTableEntry cur;
  if negb known then Some method else
  compatible ← isCompatibleOverride IGM method cur explosionLevel uncurryLevel;
  let method := if compatible : bool then cur else method in
  match cur with
  | mkFuncDecl _ _ _ _ (Some next) =>
      findOverriddenFunction_from IGM explosionLevel uncurryLevel method next
  | mkFuncDecl _ _ _ _ None => Some method
  end.

(** [findOverriddenFunction]: the function which will actually appear
    in the virtual table. *)
Definition findOverriddenFunction (IGM : IRGenModule) (method : FuncDecl)
    (explosionLevel : ExplosionKind) (uncurryLevel : Z) : option FuncDecl :=
  match getOverriddenDecl method with
  | Some cur =>
      findOverriddenFunction_from IGM explosionLevel uncurryLevel method cur
  | None => Some method
  end.

(** ** Metatypes with trivial representation *)

(** [TypeBase::isExistentialType()] of the AST: a protocol type or a
    protocol composition. *)
Definition isExistentialType (t : CanType) : bool :=
  match t with
  | NominalType d => match getKind d with Protocol => true | _ => false end
  | ProtocolCompositionType _ => true
  | _ => false
  end.

Module HasTrivialMetatype.
Definition visitType (type : CanType) : bool := negb (isExistentialType type).

(** [visit]; a class type and a bound generic class type go to
    [visitClassType] and [visitBoundGenericClassType], an archetype to
    [visitArchetypeType], a metatype to [visitMetaTypeType], every other
    type to [visitType]. *)
Fixpoint visit (type : CanType) : bool :=
  match type with
  | NominalType d | BoundGenericType d _ =>
      match getKind d with
      | Class => false
      | _ => visitType type
      end
  | ArchetypeType _ => false
  | MetaTypeType instance => visit instance
  | _ => visitType type
  end.
End HasTrivialMetatype.

(** [IRGenModule::hasTrivialMetatype] *)
Definition hasTrivialMetatype (instanceType : CanType) : bool :=
  HasTrivialMetatype.visit instanceType.

(** [emitMetaTypeRef]; the explosion is the list of values added to it
    so far. *)
Definition emitMetaTypeRef (IGM : IRGenModule)
    (emitWitnessTableRefs : CanType -> IRGen (list Value)) (type : CanType)
    (explosion : list Value) : IRGen (list Value) :=
  if hasTrivialMetatype type then ret explosion else
  metadata <~ emitTypeMetadataRef IGM emitWitnessTableRefs type ;;
  ret (explosion ++ [metadata]).

(** [emitClassHeapMetadataRef]: on a class type the visitor's
    [visitClassType] is its [visitNominalType], on a bound generic class
    type its [visitBoundGenericType]. *)
Definition emitClassHeapMetadataRef (IGM : IRGenModule)
    (emitWitnessTableRefs : CanType -> IRGen (list Value)) (type : CanType)
  : IRGen Value :=
  check (getClassOrBoundGenericClass type) ;;;
  match type with
  | NominalType theClass =>
      if hasKnownSwiftMetadata theClass
      then EmitTypeMetadataRef.visit IGM emitWitnessTableRefs type
      else ret (Const (AddrOfObjCClass (declId theClass)))
  | BoundGenericType theClass _ =>
      check (hasKnownSwiftMetadata theClass) ;;;
      EmitTypeMetadataRef.visit IGM emitWitnessTableRefs type
  | _ => abort
  end.

(** ** Generic arguments and field offsets read from metadata *)

Section ArgumentMetadataRef.
Variable IGM : IRGenModule.
(** [getGenericParams()->getAllArchetypes()] of a declaration; [None]
    where [getGenericParams()] is null. *)
Variable getAllArchetypes : NominalTypeDecl -> option (list positive).
(** The scanners: the layout of a declaration and the slots of each
    hook. *)
Variable ClassMetadataScanner_layout : NominalTypeDecl -> list ClassLayout.Hook.
Variable ClassMetadataScanner_slots : ClassLayout.Hook -> Z.
Variable StructMetadataScanner_layout : NominalTypeDecl -> list ValueLayout.Hook.
Variable StructMetadataScanner_slots : ValueLayout.Hook -> Z.
Variable EnumMetadataScanner_layout : NominalTypeDecl -> list ValueLayout.Hook.
Variable EnumMetadataScanner_slots : ValueLayout.Hook -> Z.



End ArgumentMetadataRef.

(** ** The metadata variable of a declaration *)

(** The global variable [emitClassMetadata], [emitStructMetadata] and
    [emitEnumMetadata] define: the arguments of [getAddrOfTypeMetadata]
    that name it, the fields of its initializer, whether the initializer
    has the type [FullHeapMetadataStructTy] or is an anonymous struct,
    whether the variable is constant, and the metadata the function adds
    to the list of Objective-C classes. *)
Record TypeMetadataVariable := mkTypeMetadataVariable {
  declaredType : CanType;
  isIndirect : bool;
  isPattern : bool;
  getInit : list Constant;
  hasFullHeapMetadataStructTy : bool;
  isConstant : bool;
  addedObjCClass : option Constant
}.

Module StructMetadataBuilder.
Definition call (Target : NominalTypeDecl) (h : ValueLayout.Hook)
  : list Constant :=
  match h with
  | ValueLayout.addValueWitnessTable =>
      [ValueWitnessTable (getDeclaredType Target)]
  | _ => StructMetadataBuilderBase.call h
  end.

Definition layout (Target : NominalTypeDecl) (calls : list ValueLayout.Hook)
  : list Constant :=
  flat_map (call Target) calls.
End StructMetadataBuilder.

Module EnumMetadataBuilder.
Definition call (Target : NominalTypeDecl) (h : ValueLayout.Hook)
  : list Constant :=
  match h with
  | ValueLayout.addValueWitnessTable =>
      [ValueWitnessTable (getDeclaredType Target)]
  | _ => EnumMetadataBuilderBase.call h
  end.

Definition layout (Target : NominalTypeDecl) (calls : list ValueLayout.Hook)
  : list Constant :=
  flat_map (call Target) calls.
End EnumMetadataBuilder.

(** The fields of a template for [ConstantStruct::getAnon]: none of them
    is still the null of the reserved header. *)
Definition templateFields {Extra : Type}
    (s : GenericMetadataBuilderBase.State Extra) : option (list Constant) :=
  mapM id (GenericMetadataBuilderBase.Fields s).

Section EmitMetadata.
Variable IGM : IRGenModule.
(** [NumHeapMetadataFields], a constant of the code generator. *)
Variable NumHeapMetadataFields : nat.
(** The layout classes: the calls of [layout()] for a declaration. *)
Variable ClassMetadataLayout : ClassDecl -> list ClassLayout.Hook.
Variable StructMetadataLayout : NominalTypeDecl -> list ValueLayout.Hook.
Variable EnumMetadataLayout : NominalTypeDecl -> list ValueLayout.Hook.

Definition emitClassMetadata (classDecl : ClassDecl)
  : option TypeMetadataVariable :=
  builder ←
    match getGenericParamsOfContext (asNominal classDecl) with
    | Some generics =>
        s ← GenericClassMetadataBuilder.layout IGM classDecl
              (ClassMetadataLayout classDecl);
        init ← templateFields s;
        Some (init, false, true)
    | None =>
        r ← ClassMetadataBuilderBase.layout IGM classDecl
              (ClassMetadataLayout classDecl) []
              (ClassMetadataBuilderBase.create classDecl);
        Some (r.1, Nat.eqb (length r.1) NumHeapMetadataFields, false)
    end;
  let '(init, named, isPattern) := builder in
  let isIndirect := false in
  let declaredType := getDeclaredType (asNominal classDecl) in
  Some (mkTypeMetadataVariable declaredType isIndirect isPattern init named
          false
          (if ObjCInterop IGM && negb isPattern && negb isIndirect
           then Some (AddrOfTypeMetadata declaredType isIndirect isPattern)
           else None)).

Definition emitStructMetadata (structDecl : NominalTypeDecl)
  : option TypeMetadataVariable :=
  builder ←
    match getGenericParamsOfContext structDecl with
    | Some generics =>
        s ← GenericStructMetadataBuilder.layout IGM structDecl
              (StructMetadataLayout structDecl);
        init ← templateFields s;
        Some (init, true)
    | None =>
        Some (StructMetadataBuilder.layout structDecl
                (StructMetadataLayout structDecl), false)
    end;
  let '(init, isPattern) := builder in
  let isIndirect := false in
  let declaredType := getDeclaredType structDecl in
  Some (mkTypeMetadataVariable declaredType isIndirect isPattern init false
          (negb isPattern) None).

Definition emitEnumMetadata (theEnum : NominalTypeDecl)
  : option TypeMetadataVariable :=
  builder ←
    match getGenericParamsOfContext theEnum with
    | Some generics =>
        s ← GenericEnumMetadataBuilder.layout IGM theEnum
              (EnumMetadataLayout theEnum);
        init ← templateFields s;
        Some (init, true)
    | None =>
        Some (EnumMetadataBuilder.layout theEnum
                (EnumMetadataLayout theEnum), false)
    end;
  let '(init, isPattern) := builder in
  let isIndirect := false in
  let declaredType := getDeclaredType theEnum in
  Some (mkTypeMetadataVariable declaredType isIndirect isPattern init false
          (negb isPattern) None).
End EmitMetadata.

(** * Per-function IR generation (lib/IRGen/IRGenFunction.cpp)

    The functions of this file build LLVM instructions.  The builder is
    given by the instructions it has created, each with the type of its
    result; the value of an instruction is its position. *)

Module FunctionIR.

Inductive Ty :=
| IntegerTy (bits : Z)
| PointerTy (element : Ty)
| VoidTy.

Fixpoint Ty_eqb (a b : Ty) : bool :=
  match a, b with
  | IntegerTy m, IntegerTy n => m =? n
  | PointerTy x, PointerTy y => Ty_eqb x y
  | VoidTy, VoidTy => true
  | _, _ => false
  end.

(** What the functions read of [IRGenModule]: the widths of the integer
    types of the target and the options.  [FarRelativeAddressTy] is
    [IntPtrTy]: a far relative address is used as an [IntPtrTy] without
    a conversion. *)
Record IRGenModule := mkIRGenModule {
  pointerBits : Z;
  relativeBits : Z;
  (** [IRGen.Opts.shouldOptimize()] *)
  shouldOptimize : bool;
  (** [DebugInfo] is there *)
  DebugInfo : bool;
  (** the command-line option [-enable-trap-debug-info] *)
  EnableTrapDebugInfo : bool
}.

Definition IntPtrTy (IGM : IRGenModule) : Ty := IntegerTy (pointerBits IGM).
Definition RelativeAddressTy (IGM : IRGenModule) : Ty :=
  IntegerTy (relativeBits IGM).
Definition FarRelativeAddressTy (IGM : IRGenModule) : Ty := IntPtrTy IGM.
Definition Int8PtrTy : Ty := PointerTy (IntegerTy 8).
Definition Int32Ty : Ty := IntegerTy 32.

Inductive Value :=
| Argument (n : nat) (ty : Ty)
| ConstantInt (ty : Ty) (value : Z)
| Inst (n : nat).

(** [llvm::ConstantInt::get]: the constant of an integer type is kept
    to the width of the type. *)
Definition getIntegerBitWidth (ty : Ty) : Z :=
  match ty with IntegerTy bits => bits | _ => 0 end.
Definition ConstantInt_get (ty : Ty) (v : Z) : Value :=
  ConstantInt ty (v mod 2 ^ getIntegerBitWidth ty).

Record Address := mkAddress {
  getAddress : Value;
  getAlignment : Z
}.

(** A basic block, by the order of creation; the entry block is 0. *)
Definition BasicBlock := nat.

(** The instructions, and [Label], the mark in the list of instructions
    of the place where a block starts. *)
Inductive Instruction :=
| PtrToInt (v : Value)
| IntToPtr (v : Value)
| BitCast (v : Value)
| Sub (a b : Value)
| Add (a b : Value)
| And (a b : Value)
| Not (a : Value)
| Trunc (v : Value)
| SExt (v : Value)
| Load (addr : Value)
| Store (v addr : Value)
| IsNotNull (v : Value)
| CondBr (cond : Value) (ifTrue ifFalse : BasicBlock)
| Br (dest : BasicBlock)
| PHI (incoming : list (Value * BasicBlock))
| Label (bb : BasicBlock)
| AsmCall (asmString constraints : string) (sideEffects : bool) (arg : Value)
| TrapCall
| Unreachable.

(** [IRBuilder]: the instructions created, the counter of trap
    barriers (an [unsigned]), the failure messages given to the debug
    info, the number of blocks created and the block instructions are
    inserted into. *)
Record IRBuilder := mkIRBuilder {
  Insts : list (Instruction * Ty);
  NumTrapBarriers : Z;
  FailureMessages : list string;
  NumBlocks : nat;
  InsertBlock : BasicBlock
}.

Definition getType (B : IRBuilder) (v : Value) : Ty :=
  match v with
  | Argument _ ty => ty
  | ConstantInt ty _ => ty
  | Inst n => match Insts B !! n with Some (_, ty) => ty | None => VoidTy end
  end.

(** Insert an instruction with the given result type. *)
Definition Insert (i : Instruction) (ty : Ty) (B : IRBuilder)
  : Value * IRBuilder :=
  (Inst (length (Insts B)),
   mkIRBuilder (Insts B ++ [(i, ty)]) (NumTrapBarriers B) (FailureMessages B)
     (NumBlocks B) (InsertBlock B)).

Definition CreatePtrToInt (v : Value) (ty : Ty) := Insert (PtrToInt v) ty.
Definition CreateIntToPtr (v : Value) (ty : Ty) := Insert (IntToPtr v) ty.
Definition CreateBitCast (v : Value) (ty : Ty) := Insert (BitCast v) ty.
Definition CreateTrunc (v : Value) (ty : Ty) := Insert (Trunc v) ty.
Definition CreateSExt (v : Value) (ty : Ty) := Insert (SExt v) ty.
Definition CreateSub (a b : Value) (B : IRBuilder) :=
  Insert (Sub a b) (getType B a) B.
Definition CreateAdd (a b : Value) (B : IRBuilder) :=
  Insert (Add a b) (getType B a) B.
Definition CreateAnd (a b : Value) (B : IRBuilder) :=
  Insert (And a b) (getType B a) B.
Definition CreateNot (a : Value) (B : IRBuilder) :=
  Insert (Not a) (getType B a) B.
Definition CreateLoad (addr : Address) (B : IRBuilder) :=
  Insert (Load (getAddress addr))
    (match getType B (getAddress addr) with
     | PointerTy element => element
     | _ => VoidTy
     end) B.
Definition CreateStore (v : Value) (addr : Address) (B : IRBuilder)
  : IRBuilder :=
  (Insert (Store v (getAddress addr)) VoidTy B).2.
Definition CreateIsNotNull (v : Value) := Insert (IsNotNull v) (IntegerTy 1).
Definition CreateCondBr (cond : Value) (ifTrue ifFalse : BasicBlock)
    (B : IRBuilder) : IRBuilder :=
  (Insert (CondBr cond ifTrue ifFalse) VoidTy B).2.
Definition CreateBr (dest : BasicBlock) (B : IRBuilder) : IRBuilder :=
  (Insert (Br dest) VoidTy B).2.
Definition CreatePHI (ty : Ty) := Insert (PHI []) ty.

(** [PHINode::addIncoming] changes the instruction created. *)
Definition addIncoming (phi : Value) (v : Value) (bb : BasicBlock)
    (B : IRBuilder) : IRBuilder :=
  match phi with
  | Inst n =>
      mkIRBuilder
        (alter (fun i : Instruction * Ty =>
                  match i.1 with
                  | PHI incoming => (PHI (incoming ++ [(v, bb)]), i.2)
                  | _ => i
                  end) n (Insts B))
        (NumTrapBarriers B) (FailureMessages B) (NumBlocks B) (InsertBlock B)
  | _ => B
  end.

Definition GetInsertBlock (B : IRBuilder) : BasicBlock := InsertBlock B.

(** [createBasicBlock]: a new block, not yet in the function. *)
Definition createBasicBlock (B : IRBuilder) : BasicBlock * IRBuilder :=
  (NumBlocks B,
   mkIRBuilder (Insts B) (NumTrapBarriers B) (FailureMessages B)
     (S (NumBlocks B)) (InsertBlock B)).

(** [emitBlock]: the block comes after the code emitted so far, and the
    instructions that follow are inserted into it. *)
Definition emitBlock (bb : BasicBlock) (B : IRBuilder) : IRBuilder :=
  mkIRBuilder (Insts B ++ [(Label bb, VoidTy)]) (NumTrapBarriers B)
    (FailureMessages B) (NumBlocks B) bb.

(** [emitStoreOfRelativeIndirectablePointer] *)
Definition emitStoreOfRelativeIndirectablePointer (IGM : IRGenModule)
    (value : Value) (addr : Address) (isFar : bool) (B : IRBuilder)
  : IRBuilder :=
  let '(value, B) := CreatePtrToInt value (IntPtrTy IGM) B in
  let '(addrAsInt, B) := CreatePtrToInt (getAddress addr) (IntPtrTy IGM) B in
  let '(difference, B) := CreateSub value addrAsInt B in
  let '(difference, B) :=
    if negb isFar then CreateTrunc difference (RelativeAddressTy IGM) B
    else (difference, B) in
  CreateStore difference addr B.

(** [emitLoadOfRelativePointer]; the assertion on the type of the
    loaded value is an abort. *)
Definition emitLoadOfRelativePointer (IGM : IRGenModule) (addr : Address)
    (isFar : bool) (expectedType : Ty) (pointerAlignment : Z) (B : IRBuilder)
  : option (Value * IRBuilder) :=
  let '(value, B) := CreateLoad addr B in
  _ ← llvm_assert (Ty_eqb (getType B value)
                      (if isFar then FarRelativeAddressTy IGM
                       else RelativeAddressTy IGM));
  let '(value, B) :=
    if negb isFar then CreateSExt value (IntPtrTy IGM) B else (value, B) in
  let '(addrInt, B) := CreatePtrToInt (getAddress addr) (IntPtrTy IGM) B in
  let '(uncastPointerInt, B) := CreateAdd addrInt value B in
  let '(uncastPointer, B) := CreateIntToPtr uncastPointerInt Int8PtrTy B in
  let uncastPointerAddress := mkAddress uncastPointer pointerAlignment in
  let '(pointer, B) :=
    CreateBitCast (getAddress uncastPointerAddress) expectedType B in
  Some (pointer, B).

(** [emitLoadOfRelativeIndirectablePointer] *)
Definition emitLoadOfRelativeIndirectablePointer (IGM : IRGenModule)
    (addr : Address) (isFar : bool) (expectedType : Ty)
    (pointerAlignment : Z) (B : IRBuilder) : option (Value * IRBuilder) :=
  let '(value, B) := CreateLoad addr B in
  _ ← llvm_assert (Ty_eqb (getType B value)
                      (if isFar then FarRelativeAddressTy IGM
                       else RelativeAddressTy IGM));
  let '(value, B) :=
    if negb isFar then CreateSExt value (IntPtrTy IGM) B else (value, B) in
  _ ← llvm_assert (Ty_eqb (getType B value) (IntPtrTy IGM));
  let origBB := GetInsertBlock B in
  let '(directResult, B) := CreateIntToPtr value expectedType B in
  let one := ConstantInt_get (IntPtrTy IGM) 1 in
  let '(indirectBB, B) := createBasicBlock B in
  let '(contBB, B) := createBasicBlock B in
  let '(isIndirect, B) := CreateAnd value one B in
  let '(isIndirect, B) := CreateIsNotNull isIndirect B in
  let B := CreateCondBr isIndirect indirectBB contBB B in
  let B := emitBlock indirectBB B in
  let '(ptr, B) := CreateSub value one B in
  let '(ptr, B) := CreateIntToPtr ptr (PointerTy expectedType) B in
  let indirectAddr := mkAddress ptr pointerAlignment in
  let '(indirectResult, B) := CreateLoad indirectAddr B in
  let B := CreateBr contBB B in
  let B := emitBlock contBB B in
  let '(phi, B) := CreatePHI expectedType B in
  let B := addIncoming phi directResult origBB B in
  let B := addIncoming phi indirectResult indirectBB B in
  Some (phi, B).

(** [alignUpToMaximumAlignment]; [MaximumAlignment] is a constant of the
    ABI.  Each call of the builder is kept as an instruction, also where
    the builder would fold constants. *)
Definition alignUpToMaximumAlignment (MaximumAlignment : Z) (sizeTy : Ty)
    (val : Value) (B : IRBuilder) : Value * IRBuilder :=
  let alignMask := ConstantInt_get sizeTy (MaximumAlignment - 1) in
  let '(invertedMask, B) := CreateNot alignMask B in
  let '(sum, B) := CreateAdd val alignMask B in
  CreateAnd sum invertedMask B.



(** [Offset]: a static size (a 64-bit unsigned number) or a value. *)
Inductive Offset :=
| Static (size : Z)
| Dynamic (value : Value).

Definition SizeTy (IGM : IRGenModule) : Ty := IntegerTy (pointerBits IGM).

(** [IRGenModule::getSize] *)
Definition getSize (IGM : IRGenModule) (size : Z) : Value :=
  ConstantInt_get (SizeTy IGM) size.

(** [Offset::getAsValue] *)
Definition getAsValue (IGM : IRGenModule) (offset : Offset) : Value :=
  match offset with
  | Static size => getSize IGM size
  | Dynamic value => value
  end.

(** [Offset::offsetBy] *)
Definition offsetBy (IGM : IRGenModule) (offset : Offset) (other : Z)
    (B : IRBuilder) : Offset * IRBuilder :=
  match offset with
  | Static size => (Static ((size + other) mod 2 ^ 64), B)
  | Dynamic value =>
      let otherVal := ConstantInt_get (SizeTy IGM) other in
      let '(sum, B) := CreateAdd value otherVal B in
      (Dynamic sum, B)
  end.

(** ** What the instructions compute

    Integers are kept unsigned; a pointer is an integer of the width of
    a pointer.  The arguments of the function come from [env], memory
    is a map from addresses to the integers stored.  The instructions
    run in the order of the list; a branch goes forward, to the mark of
    its block, and the instructions passed over are not run. *)

Definition bitsOf (IGM : IRGenModule) (ty : Ty) : Z :=
  match ty with
  | IntegerTy bits => bits
  | PointerTy _ => pointerBits IGM
  | VoidTy => 0
  end.

(** The signed reading of an unsigned integer of [bits] bits. *)
Definition signed (bits : Z) (x : Z) : Z :=
  if x <? 2 ^ (bits - 1) then x else x - 2 ^ bits.

Record Machine := mkMachine {
  (** the result of each instruction of the list so far, with its type;
      none for an instruction passed over *)
  regs : list (option (Ty * Z));
  mem : Z -> Z;
  (** the block being run and the block control came from *)
  block : BasicBlock;
  from : BasicBlock;
  (** the block a branch taken is going to *)
  goingTo : option BasicBlock
}.

Section Semantics.
Variable IGM : IRGenModule.
Variable env : nat -> Z.

Definition valueOf (m : Machine) (v : Value) : option Z :=
  match v with
  | Argument n _ => Some (env n)
  | ConstantInt ty value => Some (value mod 2 ^ bitsOf IGM ty)
  | Inst n => r ← regs m !! n; snd <$> r
  end.

Definition typeOf (m : Machine) (v : Value) : Ty :=
  match v with
  | Argument _ ty => ty
  | ConstantInt ty _ => ty
  | Inst n =>
      match regs m !! n with Some (Some (ty, _)) => ty | _ => VoidTy end
  end.

Definition result (m : Machine) (ty : Ty) (x : Z) : option Machine :=
  Some (mkMachine (regs m ++ [Some (ty, x)]) (mem m) (block m) (from m) None).

Definition branch (m : Machine) (dest : BasicBlock) : option Machine :=
  Some (mkMachine (regs m ++ [None]) (mem m) (block m) (from m) (Some dest)).

(** One instruction with result type [ty], run. *)
Definition compute (m : Machine) (i : Instruction * Ty) : option Machine :=
  let ty := i.2 in
  let w := bitsOf IGM ty in
  match i.1 with
  | PtrToInt v | IntToPtr v | Trunc v =>
      x ← valueOf m v; result m ty (x mod 2 ^ w)
  | BitCast v => x ← valueOf m v; result m ty x
  | Sub a b =>
      x ← valueOf m a; y ← valueOf m b; result m ty ((x - y) mod 2 ^ w)
  | Add a b =>
      x ← valueOf m a; y ← valueOf m b; result m ty ((x + y) mod 2 ^ w)
  | And a b => x ← valueOf m a; y ← valueOf m b; result m ty (Z.land x y)
  | Not a => x ← valueOf m a; result m ty (2 ^ w - 1 - x)
  | SExt v =>
      x ← valueOf m v;
      result m ty (signed (bitsOf IGM (typeOf m v)) x mod 2 ^ w)
  | Load addr => a ← valueOf m addr; result m ty (mem m a)
  | Store v addr =>
      x ← valueOf m v; a ← valueOf m addr;
      Some (mkMachine (regs m ++ [Some (ty, 0)])
              (fun a' => if a' =? a then x else mem m a')
              (block m) (from m) None)
  | IsNotNull v => x ← valueOf m v; result m ty (if x =? 0 then 0 else 1)
  | CondBr cond ifTrue ifFalse =>
      x ← valueOf m cond; branch m (if x =? 0 then ifFalse else ifTrue)
  | Br dest => branch m dest
  | PHI incoming =>
      p ← list_find (fun p : Value * BasicBlock => p.2 = from m) incoming;
      x ← valueOf m p.2.1; result m ty x
  | Label _ | AsmCall _ _ _ _ | TrapCall | Unreachable => None
  end.

(** One instruction of the list: run, or passed over on the way to the
    block a branch is going to. *)
Definition step (m : Machine) (i : Instruction * Ty) : option Machine :=
  match goingTo m with
  | None => compute m i
  | Some dest =>
      match i.1 with
      | Label bb =>
          if Nat.eqb bb dest
          then Some (mkMachine (regs m ++ [None]) (mem m) bb (block m) None)
          else Some (mkMachine (regs m ++ [None]) (mem m) (block m) (from m)
                       (Some dest))
      | _ => Some (mkMachine (regs m ++ [None]) (mem m) (block m) (from m)
                     (Some dest))
      end
  end.

Fixpoint exec (m : Machine) (insts : list (Instruction * Ty))
  : option Machine :=
  match insts with
  | [] => Some m
  | i :: rest => m' ← step m i; exec m' rest
  end.
End Semantics.

(** Run all the instructions of a builder from the given memory, to the
    end of the code emitted so far. *)
Definition run (IGM : IRGenModule) (env : nat -> Z) (memory : Z -> Z)
    (B : IRBuilder) : option Machine :=
  m ← exec IGM env (mkMachine [] memory 0%nat 0%nat None) (Insts B);
  match goingTo m with Some _ => None | None => Some m end.

Definition emptyBuilder : IRBuilder := mkIRBuilder [] 0 [] 1%nat 0%nat.




(** The code the builder holds runs to the machine [m], from the memory
    given; the block it ends in is the block the builder inserts into,
    one of the blocks created. *)
Definition ranTo (IGM : IRGenModule) (env : nat -> Z) (memory : Z -> Z)
    (B : IRBuilder) (m : Machine) : Prop :=
  run IGM env memory B = Some m /\
  block m = InsertBlock B /\
  (InsertBlock B < NumBlocks B)%nat.

(** What an offset stands for once the code has run. *)
Definition offsetValue (IGM : IRGenModule) (env : nat -> Z) (m : Machine)
    (offset : Offset) : option Z :=
  valueOf IGM env m (getAsValue IGM offset).
End FunctionIR.

(** ** Notions the further statements use *)

(** The instance type under all the metatype levels of a type. *)
Fixpoint innermostInstanceType (t : CanType) : CanType :=
  match t with
  | MetaTypeType instance => innermostInstanceType instance
  | _ => t
  end.

Definition isa_ArchetypeType (t : CanType) : bool :=
  match t with ArchetypeType _ => true | _ => false end.

(** [emitOne] run on the types of a list, one after the other from the
    first, each run in the function as the one before left it: the
    values returned, in that order, and the function at the end. *)
Inductive emittedInOrder {A : Type} (emitOne : CanType -> IRGen A)
  : list CanType -> IRGenFunction -> list A -> IRGenFunction -> Prop :=
| emitted_none (IGF : IRGenFunction) : emittedInOrder emitOne [] IGF [] IGF
| emitted_next (type : CanType) (types : list CanType)
    (IGF IGF1 IGF2 : IRGenFunction) (value : A) (values : list A) :
    emitOne type IGF = Some (value, IGF1) ->
    emittedInOrder emitOne types IGF1 values IGF2 ->
    emittedInOrder emitOne (type :: types) IGF (value :: values) IGF2.

(** The number of fields a hook of the class-metadata builder appends
    to the metadata. *)
Definition classFieldCount (h : ClassLayout.Hook) : Z :=
  match h with
  | ClassLayout.noteAddressPoint => 0
  | ClassLayout.addClassCacheData => 2
  | _ => 1
  end.

(** The field at index [k] of the fields [F] is the one field the
    class-metadata builder appended on a call that a searcher, given by
    the hook it overrides, takes for its target, the builder's final
    overriders being [FO]. *)
Definition targetFieldAt (IGM : IRGenModule) (TargetClass : ClassDecl)
    (overridden : ClassLayout.Hook -> option bool)
    (FO : gmap positive FuncDecl) (F : list Constant) (k : Z) : Prop :=
  exists h size s1 c s2,
    overridden h = Some true /\
    ClassMetadataBuilderBase.call IGM TargetClass h size s1 = Some ([c], s2) /\
    ClassMetadataBuilderBase.FinalOverriders s1 = FO /\
    0 <= k /\ F !! Z.to_nat k = Some c.

(** The initialiser [generic] of a witness-table offset variable is the
    initialiser [plain] of the same variable moved up by the header
    fields of a template. *)
Definition shiftedByHeader (IGM : IRGenModule)
    (generic plain : FunctionRef * Constant) : Prop :=
  generic.1 = plain.1 /\
  exists k : Z,
    plain.2 = ConstantInt_get IGM SizeTy (k * getPointerSize IGM) /\
    generic.2 = ConstantInt_get IGM SizeTy
                  ((k + GenericMetadataBuilderBase.TemplateHeaderFieldCount)
                   * getPointerSize IGM).

(** The call of the layout [calls] that a searcher takes for its target
    is made when the class-metadata builder, started in [s0], has laid
    out [k] fields. *)
Definition targetCallAt (IGM : IRGenModule) (TargetClass : ClassDecl)
    (overridden : ClassLayout.Hook -> option bool)
    (s0 : ClassMetadataBuilderBase.State) (calls : list ClassLayout.Hook)
    (k : Z) : Prop :=
  exists before t after Fb sb,
    calls = before ++ t :: after /\
    overridden t = Some true /\
    ClassMetadataBuilderBase.layout IGM TargetClass before [] s0
      = Some (Fb, sb) /\
    k = Z.of_nat (length Fb).

Definition space : Ascii.ascii := Ascii.ascii_of_nat 32.

(** The labels a label string encodes, read the way it is written: a
    label runs up to the space that ends it. *)
Fixpoint decodeLabels_from (label : string) (s : string) : list string :=
  match s with
  | EmptyString => []
  | String c rest =>
      if Ascii.eqb c space
      then label :: decodeLabels_from EmptyString rest
      else decodeLabels_from (String.append label (String c EmptyString)) rest
  end.

Definition decodeLabels (s : string) : list string :=
  decodeLabels_from EmptyString s.

Fixpoint hasSpace (s : string) : bool :=
  match s with
  | EmptyString => false
  | String c rest => Ascii.eqb c space || hasSpace rest
  end.

(** A type for which the metadata-reference visitor hits no assertion
    and reports nothing unimplemented, in a function whose local type
    data is [L]: its builtin types have a fixed size that is their
    alignment and a power of two, its nominal types are of declarations
    without generic parameters, its bound generic types of declarations
    with generic parameters that are not imported classes, its
    archetypes have local type data, and it is made of these with
    tuples, functions and metatypes. *)
Fixpoint emittable (IGM : IRGenModule) (L : CanType -> option Value)
    (t : CanType) {struct t} : bool :=
  match t with
  | BuiltinIntegerType _ | BuiltinFloatType _ | BuiltinRawPointerType =>
      (getFixedSize IGM t =? getFixedAlignment IGM t)
      && isPowerOf2 (getFixedSize IGM t)
  | BuiltinObjectPointerType | BuiltinObjCPointerType | BuiltinVectorType _ _ =>
      true
  | NominalType d => negb (bool_decide (is_Some (getGenericParamsOfContext d)))
  | BoundGenericType d replacements =>
      bool_decide (is_Some (getGenericParamsOfContext d))
      && negb ((match getKind d with Class => true | _ => false end)
               && negb (hasKnownSwiftMetadata d))
      && forallb (emittable IGM L) replacements
  | TupleType fields =>
      forallb (fun f : string * CanType => emittable IGM L f.2) fields
  | FunctionType input result => emittable IGM L input && emittable IGM L result
  | MetaTypeType instance => emittable IGM L instance
  | ArchetypeType _ => bool_decide (is_Some (L t))
  | _ => false
  end.

(** A piece of code generation that, in a function whose local type
    data is [L], returns a result with the property [Q], leaves the
    local type data as it was and reports nothing unimplemented. *)
Definition runsCleanly {A : Type} (L : CanType -> option Value)
    (Q : A -> Prop) (c : IRGen A) : Prop :=
  forall IGF, LocalTypeData IGF = L ->
    exists a IGF', c IGF = Some (a, IGF') /\ Q a /\
      LocalTypeData IGF' = L /\ Unimplemented IGF' = Unimplemented IGF.

(** ** Further declarations used in the examples *)

Module Cases.
(** The fields of the metadata of [Square]. *)
Definition squareMetadata : list Constant :=
  Eval vm_compute in
    (default ([], ClassMetadataBuilderBase.create Scenario.SquareClass)
       (ClassMetadataBuilderBase.layout Scenario.IGM64 Scenario.SquareClass
          Scenario.squareLayout []
          (ClassMetadataBuilderBase.create Scenario.SquareClass))).1.

(** The initialisers the layout of [Square] gives to witness-table
    offset variables. *)
Definition squareOffsets : list (FunctionRef * Constant) :=
  Eval vm_compute in
    ClassMetadataBuilderBase.WitnessTableOffsets
      (default ([], ClassMetadataBuilderBase.create Scenario.SquareClass)
         (ClassMetadataBuilderBase.layout Scenario.IGM64 Scenario.SquareClass
            Scenario.squareLayout []
            (ClassMetadataBuilderBase.create Scenario.SquareClass))).2.

(** [class Stack<T> { func push(T) }], laid out in the order flags,
    value witness table, destructor, parent, superclass, address point,
    generic argument, then the method. *)
Definition StackDecl : NominalTypeDecl :=
  mkNominalTypeDecl 60 Class false false (Some [10%positive]) false.
Definition Stack_push : FuncDecl :=
  mkFuncDecl 600 (NominalContext StackDecl)
    (FunctionType (BoundGenericType StackDecl [Scenario.T])
       (FunctionType Scenario.T Scenario.Void))
    false None.
Definition StackClass : ClassDecl :=
  mkClassDecl StackDecl [FuncMember Stack_push] (ModuleType 1) None.
Definition stackLayout : list ClassLayout.Hook :=
  [ClassLayout.addMetadataFlags; ClassLayout.addValueWitnessTable;
   ClassLayout.addDestructorFunction; ClassLayout.addSuperClass;
   ClassLayout.noteAddressPoint;
   ClassLayout.addGenericArgument 10 StackClass;
   ClassLayout.addMethod (mkFunctionRef Stack_push Minimal 1)].
Definition stackTemplate
  : GenericMetadataBuilderBase.State ClassMetadataBuilderBase.State :=
  Eval vm_compute in
    default (GenericMetadataBuilderBase.initial
               (ClassMetadataBuilderBase.create StackClass))
      (GenericClassMetadataBuilder.layout Scenario.IGM64 StackClass stackLayout).

(** The fields of [(x: Int, Int, y: Int)]. *)
Definition pointFields : list (string * CanType) :=
  [("x"%string, Scenario.Int); (EmptyString, Scenario.Int);
   ("y"%string, Scenario.Int)].

(** [(Box<Int>, (Int, Int, Int, Int, Int).Type) -> View] *)
Definition callbackType : CanType :=
  FunctionType
    (TupleType
       [(EmptyString, Scenario.BoxOfInt);
        (EmptyString,
         MetaTypeType
           (TupleType
              [(EmptyString, Scenario.Int); (EmptyString, Scenario.Int);
               (EmptyString, Scenario.Int); (EmptyString, Scenario.Int);
               (EmptyString, Scenario.Int)]))])
    (NominalType Scenario.ViewDecl).

(** The instructions built for a reference to the metadata of
    [Box<Int>] in a fresh session. *)
Definition boxOfIntCode : list Instruction :=
  Eval vm_compute in
    match emitTypeMetadataRef Scenario.IGM64 Scenario.noWitnessTables
            Scenario.BoxOfInt Scenario.newSession with
    | Some (_, IGF) => Builder IGF
    | None => []
    end.
Definition optimizing : FunctionIR.IRGenModule :=
  FunctionIR.mkIRGenModule 64 32 true true true.


(** The arguments of a function: a pointer and the address of a field. *)
Definition arguments (n : nat) : Z :=
  match n with
  | O => 4160
  | _ => 4096
  end.

Definition relativeField : FunctionIR.Address :=
  FunctionIR.mkAddress
    (FunctionIR.Argument 1 (FunctionIR.PointerTy (FunctionIR.IntegerTy 32))) 4.



(** The variables of the metadata of [Box] and of [Square]. *)
Definition noVariable : TypeMetadataVariable :=
  mkTypeMetadataVariable (TupleType []) false false [] false false None.
Definition boxVariable : TypeMetadataVariable :=
  Eval vm_compute in
    default noVariable
      (emitStructMetadata Scenario.IGM64 (fun _ => Scenario.boxLayout)
         Scenario.BoxDecl).
Definition squareVariable : TypeMetadataVariable :=
  Eval vm_compute in
    default noVariable
      (emitClassMetadata Scenario.IGM64 5 (fun _ => Scenario.squareLayout)
         Scenario.SquareClass).

(** An imported class [Node] with a method [copy() -> Node], a native
    subclass [Branch] overriding it with [copy() -> Branch], and
    [Leaf : Branch] overriding that with [copy() -> Leaf]. *)
Definition NodeDecl : NominalTypeDecl :=
  mkNominalTypeDecl 70 Class true true None false.
Definition BranchDecl : NominalTypeDecl :=
  mkNominalTypeDecl 71 Class false true None false.
Definition LeafDecl : NominalTypeDecl :=
  mkNominalTypeDecl 72 Class false true None false.
Definition copyType (self : NominalTypeDecl) : CanType :=
  FunctionType (NominalType self) (FunctionType Scenario.Void (NominalType self)).
Definition Node_copy : FuncDecl :=
  mkFuncDecl 700 (NominalContext NodeDecl) (copyType NodeDecl) true None.
Definition Branch_copy : FuncDecl :=
  mkFuncDecl 701 (NominalContext BranchDecl) (copyType BranchDecl) false
    (Some Node_copy).
Definition Leaf_copy : FuncDecl :=
  mkFuncDecl 702 (NominalContext LeafDecl) (copyType LeafDecl) false
    (Some Branch_copy).

End Cases.

(** * Properties *)

(** ** Override compatibility *)

Section OverrideWalk.
Variable IGM : IRGenModule.
Variable fn : FuncDecl.
Variable explosionLevel : ExplosionKind.
Variable uncurryLevel : Z.

Lemma overrideEntryWalk_decided pre :
  forall o a post known,
    overrideChainFrom o = pre ++ a :: post ->
    Forall (passed IGM fn explosionLevel uncurryLevel) pre ->
    hasKnownVTableEntry a = Some known ->
    (known = true ->
     isCompatibleOverride IGM fn a explosionLevel uncurryLevel = Some true) ->
    overrideEntryWalk IGM fn explosionLevel uncurryLevel o = Some (negb known).
Proof.
  induction pre as [|x pre IH]; intros o a post known Hchain Hpre Hknown Hcompat.
  - destruct o as [i c t cl next]. simpl in Hchain.
    injection Hchain as Ha _. subst a.
    simpl. simpl in Hknown. rewrite Hknown. simpl.
    destruct known; simpl; [|reflexivity].
    rewrite (Hcompat eq_refl). reflexivity.
  - destruct o as [i c t cl next]. simpl in Hchain.
    injection Hchain as Hx Hrest. subst x.
    apply Forall_cons in Hpre as [[Hvt Hc] Hpre].
    simpl. simpl in Hvt. rewrite Hvt. simpl. rewrite Hc. simpl.
    destruct next as [next|]; [|by destruct pre].
    eapply IH; eauto.
Qed.

(** When every ancestor is passed, the walk runs off the chain and a
    new entry is required. *)
Lemma overrideEntryWalk_exhausted :
  forall o, Forall (passed IGM fn explosionLevel uncurryLevel) (overrideChainFrom o) ->
    overrideEntryWalk IGM fn explosionLevel uncurryLevel o = Some true.
Proof.
  fix IH 1. intros [i c t cl next] Hall. simpl in Hall.
  apply Forall_cons in Hall as [[Hvt Hc] Hall].
  simpl. simpl in Hvt. rewrite Hvt. simpl. rewrite Hc. simpl.
  destruct next as [next|]; [|reflexivity].
  apply IH, Hall.
Qed.
End OverrideWalk.

(** When the result check is reached with an overridden result returned
    in memory and an overriding result returned directly, the result is
    found incompatible, and that answer is what [isCompatibleOverride]
    returns as its own. *)
Lemma isCompatibleOverride_from_result_mismatch IGM explosionLevel
    (overrideTy overriddenTy : CanType) :
  requiresIndirectResult IGM overriddenTy explosionLevel = true ->
  requiresIndirectResult IGM overrideTy explosionLevel = false ->
  isIncompatibleOverrideResult IGM overrideTy overriddenTy explosionLevel
    = Some true /\
  isCompatibleOverride_from IGM explosionLevel 0 overrideTy overriddenTy
    = Some true.
Proof.
  intros Hin Hdir. simpl. unfold isIncompatibleOverrideResult, sameType.
  destruct (CanType_eq_dec overrideTy overriddenTy) as [->|_]; [congruence|].
  rewrite Hin, Hdir. simpl. split; reflexivity.
Qed.

(** C1, evaluated on [Base<T>.f(Int) -> T] overridden by
    [Derived.f(Int) -> Int]: the overridden result is returned in memory,
    the overriding one directly; the result check finds them
    incompatible, [isCompatibleOverride] answers that the override is
    compatible, and no new v-table entry is required. *)
Theorem indirect_result_made_direct_reuses_slot :
  requiresIndirectResult Scenario.IGM64 Scenario.T Minimal = true /\
  requiresIndirectResult Scenario.IGM64 Scenario.Int Minimal = false /\
  isIncompatibleOverrideResult Scenario.IGM64 Scenario.Int Scenario.T Minimal
    = Some true /\
  isCompatibleOverride Scenario.IGM64 Scenario.Derived_f Scenario.Base_f
    Minimal 1 = Some true /\
  doesMethodRequireOverrideEntry Scenario.IGM64 Scenario.Derived_f Minimal 1
    = Some false.
Proof. repeat split; vm_compute; reflexivity. Qed.

(** The walk does not go past the ancestor that decides it:
    [Dialog.draw] overrides [Panel.draw], which overrides the imported
    [View.draw]; the walk stops at [Panel.draw], which is compatible, and
    [View.draw] is not examined. *)
Example walk_stops_before_imported_ancestor :
  Scenario.View_draw ∈ overrideChain Scenario.Dialog_draw /\
  hasKnownVTableEntry Scenario.View_draw = Some false /\
  doesMethodRequireOverrideEntry Scenario.IGM64 Scenario.Dialog_draw Minimal 1
    = Some false.
Proof.
  split; [|split]; [|vm_compute; reflexivity..].
  unfold overrideChain; simpl. set_solver.
Qed.

(** C8: the overridden declarations are examined closest-derived first,
    and the first one the walk does not pass decides.  If it is judged
    compatible the walk stops there and no new v-table entry is needed;
    if it did not get a v-table entry, a new entry is required whatever
    its type.  An ancestor is passed when it has a v-table entry and is
    judged not compatible. *)
Theorem override_walk_decided_by_first_reached IGM fn explosionLevel
    uncurryLevel pre a post known :
  overrideChain fn = pre ++ a :: post ->
  Forall (passed IGM fn explosionLevel uncurryLevel) pre ->
  hasKnownVTableEntry a = Some known ->
  (known = true ->
   isCompatibleOverride IGM fn a explosionLevel uncurryLevel = Some true) ->
  doesMethodRequireOverrideEntry IGM fn explosionLevel uncurryLevel
    = Some (negb known).
Proof.
  unfold overrideChain, doesMethodRequireOverrideEntry.
  destruct (getOverriddenDecl fn) as [o|]; [|by destruct pre].
  simpl. apply overrideEntryWalk_decided.
Qed.

Lemma override_walk_decided_by_first_reached_witness :
  doesMethodRequireOverrideEntry Scenario.IGM64 Scenario.Dialog_draw Minimal 1
    = Some (negb true) /\
  doesMethodRequireOverrideEntry Scenario.IGM64 Scenario.Panel_draw Minimal 1
    = Some (negb false) /\
  doesMethodRequireOverrideEntry Scenario.IGM64 Cases.Leaf_copy Minimal 1
    = Some (negb false).
Proof.
  split; [|split].
  - apply (override_walk_decided_by_first_reached Scenario.IGM64
             Scenario.Dialog_draw Minimal 1 [] Scenario.Panel_draw
             [Scenario.View_draw] true);
      [reflexivity | constructor | reflexivity | intros _; reflexivity].
  - apply (override_walk_decided_by_first_reached Scenario.IGM64
             Scenario.Panel_draw Minimal 1 [] Scenario.View_draw [] false);
      [reflexivity | constructor | reflexivity | intros H; discriminate H].
  - apply (override_walk_decided_by_first_reached Scenario.IGM64
             Cases.Leaf_copy Minimal 1 [Cases.Branch_copy] Cases.Node_copy
             [] false);
      [reflexivity
      | constructor; [split; reflexivity | constructor]
      | reflexivity
      | intros H; discriminate H].
Defined.

(** ** Arithmetic on [unsigned] *)

Lemma wrap32_add_l a b : wrap32 (wrap32 a + b) = wrap32 (a + b).
Proof. unfold wrap32. apply Zplus_mod_idemp_l. Qed.

Lemma wrap32_small a : 0 <= a < 2 ^ 32 -> wrap32 a = a.
Proof. intros. unfold wrap32. apply Z.mod_small. lia. Qed.

(** ** The metadata searcher *)

Section SearcherProofs.
Context {Hook : Type}.
Variable isNoteAddressPoint : Hook -> bool.
Variable scannerSlots : Hook -> Z.
Variable overridden : Hook -> option bool.

Local Abbreviation layout := (MetadataSearcher.layout isNoteAddressPoint scannerSlots overridden).
Local Abbreviation call := (MetadataSearcher.call isNoteAddressPoint scannerSlots overridden).
Local Abbreviation getTargetIndex := (MetadataSearcher.getTargetIndex isNoteAddressPoint scannerSlots overridden).
Local Abbreviation slots := (slotsOf isNoteAddressPoint scannerSlots overridden).
Local Abbreviation count := (slotCount isNoteAddressPoint scannerSlots overridden).
Local Abbreviation target := (isTargetCall isNoteAddressPoint overridden).

Lemma layout_app l1 l2 s :
  layout (l1 ++ l2) s = layout l1 s ≫= layout l2.
Proof.
  revert s. induction l1 as [|h l1 IH]; intros s; simpl; [reflexivity|].
  destruct (call s h) as [s'|]; simpl; [apply IH|reflexivity].
Qed.

Lemma slotCount_app l1 l2 : count (l1 ++ l2) = count l1 + count l2.
Proof. induction l1 as [|h l1 IH]; simpl; [reflexivity|]. unfold count in *. simpl. lia. Qed.

Lemma slotCount_nonneg l : (forall h, h ∈ l -> 0 <= slots h) -> 0 <= count l.
Proof.
  induction l as [|h l IH]; intros Hl; unfold count in *; simpl; [lia|].
  pose proof (Hl h ltac:(left)). 
  assert (0 <= foldr (λ h n, slots h + n) 0 l) by (apply IH; intros; apply Hl; by right).
  lia.
Qed.

(** One call advances [NextIndex] by the slots of the hook. *)
Lemma call_NextIndex s h s' :
  call s h = Some s' ->
  MetadataSearcher.NextIndex s' = wrap32 (MetadataSearcher.NextIndex s + slots h)
  \/ (isNoteAddressPoint h = true /\ MetadataSearcher.NextIndex s' = MetadataSearcher.NextIndex s).
Proof.
  unfold MetadataSearcher.call, slotsOf.
  destruct (isNoteAddressPoint h); [intros [= <-]; right; done|].
  destruct (overridden h) as [[|]|]; simpl.
  - unfold MetadataSearcher.setTargetIndex.
    destruct (MetadataSearcher.TargetIndex s =? InvalidIndex); simpl; [|done].
    intros [= <-]. by left.
  - intros [= <-]. by left.
  - intros [= <-]. by left.
Qed.

Lemma layout_NextIndex l : forall s s',
  0 <= MetadataSearcher.NextIndex s < 2 ^ 32 ->
  layout l s = Some s' ->
  MetadataSearcher.NextIndex s' = wrap32 (MetadataSearcher.NextIndex s + count l).
Proof.
  induction l as [|h l IH]; intros s s' Hr; simpl.
  - intros [= <-]. unfold slotCount; simpl. rewrite Z.add_0_r, wrap32_small; done.
  - destruct (call s h) as [s1|] eqn:Hc; simpl; [|done].
    intros Hl. 
    assert (Hn1 : MetadataSearcher.NextIndex s1 = wrap32 (MetadataSearcher.NextIndex s + slots h)).
    { destruct (call_NextIndex _ _ _ Hc) as [H|[Hn H]]; [done|].
      rewrite H. unfold slotsOf. rewrite Hn, Z.add_0_r, wrap32_small; done. }
    rewrite (IH s1 s'); [|rewrite Hn1; unfold wrap32; apply Z.mod_pos_bound; lia|done].
    rewrite Hn1, wrap32_add_l. f_equal. unfold slotCount. simpl. lia.
Qed.

Lemma layout_no_target l : forall s,
  (forall x, x ∈ l -> target x = false) ->
  exists s', layout l s = Some s' /\ MetadataSearcher.TargetIndex s' = MetadataSearcher.TargetIndex s.
Proof.
  induction l as [|h l IH]; intros s Hl; simpl; [eauto|].
  assert (Hh : target h = false) by (apply Hl; left).
  assert (exists s1, call s h = Some s1 /\ MetadataSearcher.TargetIndex s1 = MetadataSearcher.TargetIndex s) as (s1 & -> & Ht).
  { unfold MetadataSearcher.call. unfold isTargetCall in Hh.
    destruct (isNoteAddressPoint h); [eauto|]. simpl in Hh.
    destruct (overridden h) as [[|]|]; simpl; [done|eauto|eauto]. }
  simpl. destruct (IH s1) as (s' & -> & Ht'); [intros; apply Hl; by right|].
  exists s'. split; [done|congruence].
Qed.

Lemma layout_no_note l : forall s s',
  (forall x, x ∈ l -> isNoteAddressPoint x = false) ->
  layout l s = Some s' ->
  MetadataSearcher.AddressPoint s' = MetadataSearcher.AddressPoint s.
Proof.
  induction l as [|h l IH]; intros s s' Hl; simpl; [by intros [= <-]|].
  destruct (call s h) as [s1|] eqn:Hc; simpl; [|done].
  intros Hs'. rewrite (IH s1 s'); [|intros; apply Hl; by right|done].
  unfold MetadataSearcher.call in Hc. rewrite (Hl h) in Hc by (left).
  destruct (overridden h) as [[|]|]; simpl in Hc.
  - unfold MetadataSearcher.setTargetIndex in Hc.
    destruct (MetadataSearcher.TargetIndex s =? InvalidIndex); simpl in Hc; [|done].
    by injection Hc as <-.
  - by injection Hc as <-.
  - by injection Hc as <-.
Qed.

Lemma to_int_small a : 0 <= a < 2 ^ 31 -> to_int a = a.
Proof. intros. unfold to_int. destruct (Z.ltb_spec a (2^31)); lia. Qed.

(** The searcher on a layout with one target call and a last note of
    the address point. *)
Lemma getTargetIndex_found (calls : list Hook) :
  (forall h, h ∈ calls -> 0 <= slots h) ->
  count calls < 2 ^ 31 ->
  forall pre t post pre' ap post',
    calls = pre ++ t :: post ->
    target t = true ->
    (forall x, x ∈ pre ++ post -> target x = false) ->
    calls = pre' ++ ap :: post' ->
    isNoteAddressPoint ap = true ->
    (forall x, x ∈ post' -> isNoteAddressPoint x = false) ->
    getTargetIndex calls = Some (count pre - count pre').
Proof.
  intros Hnn Hbound pre t post pre' ap post' Hcalls Ht Hothers Hcalls' Hap Hpost'.
  assert (Hnnpre : 0 <= count pre) by (apply slotCount_nonneg; intros; apply Hnn; subst calls; set_solver).
  assert (Hnnpost : 0 <= count post) by (apply slotCount_nonneg; intros; apply Hnn; subst calls; set_solver).
  assert (Hnnpre' : 0 <= count pre') by (apply slotCount_nonneg; intros; apply Hnn; rewrite Hcalls'; set_solver).
  assert (Hnnpost' : 0 <= count post') by (apply slotCount_nonneg; intros; apply Hnn; rewrite Hcalls'; set_solver).
  assert (Hnnt : 0 <= slots t) by (apply Hnn; subst calls; set_solver).
  assert (Hnnap : 0 <= slots ap) by (apply Hnn; rewrite Hcalls'; set_solver).
  assert (Hsum : count calls = count pre + (slots t + count post)).
  { rewrite Hcalls, slotCount_app. reflexivity. }
  assert (Hsum' : count calls = count pre' + (slots ap + count post')).
  { rewrite Hcalls', slotCount_app. reflexivity. }
  (* the run up to the target *)
  destruct (layout_no_target pre MetadataSearcher.initial) as (s1 & Hs1 & Ht1);
    [intros; apply Hothers; set_solver|].
  assert (Hn1 := layout_NextIndex pre MetadataSearcher.initial s1 ltac:(simpl; lia) Hs1).
  simpl in Hn1, Ht1. rewrite Z.add_0_l, wrap32_small in Hn1 by lia.
  assert (Hc : call s1 t = Some (MetadataSearcher.advance 1
                 (MetadataSearcher.mkState (count pre) (count pre)
                    (MetadataSearcher.AddressPoint s1)))).
  { unfold MetadataSearcher.call. unfold isTargetCall in Ht.
    destruct (isNoteAddressPoint t); [done|]. simpl in Ht.
    destruct (overridden t) as [[|]|]; try done. simpl.
    unfold MetadataSearcher.setTargetIndex. rewrite Ht1, Z.eqb_refl. simpl.
    by rewrite Hn1. }
  destruct (layout_no_target post (MetadataSearcher.advance 1
                 (MetadataSearcher.mkState (count pre) (count pre)
                    (MetadataSearcher.AddressPoint s1)))) as (s3 & Hs3 & Ht3);
    [intros; apply Hothers; set_solver|].
  simpl in Ht3.
  assert (Hrun : layout calls MetadataSearcher.initial = Some s3).
  { rewrite Hcalls, layout_app, Hs1. simpl. rewrite Hc. simpl. exact Hs3. }
  (* the run up to the address point *)
  pose proof Hrun as Hrun'. rewrite Hcalls', layout_app in Hrun'.
  destruct (layout pre' MetadataSearcher.initial) as [u1|] eqn:Hu1; [|done].
  simpl in Hrun'.
  assert (Hm1 := layout_NextIndex pre' MetadataSearcher.initial u1 ltac:(simpl; lia) Hu1).
  simpl in Hm1. rewrite Z.add_0_l, wrap32_small in Hm1 by lia.
  assert (Hcap : call u1 ap = Some (MetadataSearcher.noteAddressPoint u1)).
  { unfold MetadataSearcher.call. by rewrite Hap. }
  rewrite Hcap in Hrun'. simpl in Hrun'.
  pose proof (layout_no_note post' _ _ Hpost' Hrun') as Ha3. simpl in Ha3.
  unfold MetadataSearcher.getTargetIndex. simpl. rewrite Hrun. simpl.
  rewrite Ht3, Ha3, Hm1.
  assert (Hne : (count pre =? InvalidIndex) = false)
    by (apply Z.eqb_neq; unfold InvalidIndex, UINT_MAX; lia).
  assert (Hne' : (count pre' =? InvalidIndex) = false)
    by (apply Z.eqb_neq; unfold InvalidIndex, UINT_MAX; lia).
  rewrite Hne. simpl. rewrite Hne'. simpl. rewrite !to_int_small by lia. reflexivity.
Qed.

(** The searcher on a layout without a target call. *)
Lemma getTargetIndex_not_found (calls : list Hook) :
  (forall x, x ∈ calls -> target x = false) ->
  getTargetIndex calls = None.
Proof.
  intros Hno. unfold MetadataSearcher.getTargetIndex. simpl.
  destruct (layout_no_target calls MetadataSearcher.initial Hno) as (s' & -> & Ht).
  simpl in *. rewrite Ht. reflexivity.
Qed.

(** C4: a searcher run on a layout in which exactly one call is the
    target and the address point is noted returns the slot of the target
    minus the slot of the last address point noted, a number that can be
    negative; when no call is the target, or the address point is never
    noted, it aborts.  The searcher is any of the locators
    ([FindClassParentIndex], [FindClassArgumentIndex],
    [FindClassWitnessTableIndex], [FindClassFieldOffset],
    [FindClassMethodIndex] and the value-type ones), given by the hook it
    overrides.  Slot counts are taken within the range of [int]. *)
Theorem getTargetIndex_locates (calls : list Hook) :
  ((forall h, h ∈ calls -> 0 <= slots h) ->
   count calls < 2 ^ 31 ->
   forall pre t post pre' ap post',
     calls = pre ++ t :: post ->
     target t = true ->
     (forall x, x ∈ pre ++ post -> target x = false) ->
     calls = pre' ++ ap :: post' ->
     isNoteAddressPoint ap = true ->
     (forall x, x ∈ post' -> isNoteAddressPoint x = false) ->
     getTargetIndex calls = Some (count pre - count pre'))
  /\ ((forall x, x ∈ calls -> target x = false) ->
      getTargetIndex calls = None)
  /\ ((forall x, x ∈ calls -> isNoteAddressPoint x = false) ->
      getTargetIndex calls = None).
Proof.
  split; [|split].
  - apply getTargetIndex_found.
  - apply getTargetIndex_not_found.
  - intros Hno. unfold MetadataSearcher.getTargetIndex. simpl.
    destruct (layout calls MetadataSearcher.initial) as [s'|] eqn:Hl; [|done].
    simpl. rewrite (layout_no_note calls _ _ Hno Hl). simpl.
    destruct (MetadataSearcher.TargetIndex s' =? InvalidIndex); reflexivity.
Qed.
End SearcherProofs.

Lemma getTargetIndex_locates_witness :
  MetadataSearcher.getTargetIndex ClassLayout.isNoteAddressPoint
    Scenario.oneSlot (FindClassParentIndex 32) Scenario.squareLayout
  = Some (-2).
Proof.
  apply (proj1 (getTargetIndex_locates ClassLayout.isNoteAddressPoint
                  Scenario.oneSlot (FindClassParentIndex 32)
                  Scenario.squareLayout)
           ltac:(apply Forall_forall; repeat constructor; vm_compute; congruence)
           ltac:(vm_compute; reflexivity)
           [ClassLayout.addMetadataFlags; ClassLayout.addValueWitnessTable;
            ClassLayout.addDestructorFunction]
           (ClassLayout.addParentMetadataRef Scenario.SquareClass)
           (skipn 4 Scenario.squareLayout)
           (firstn 5 Scenario.squareLayout)
           ClassLayout.noteAddressPoint
           (skipn 6 Scenario.squareLayout)
           eq_refl eq_refl
           ltac:(apply Forall_forall; repeat constructor)
           eq_refl eq_refl
           ltac:(apply Forall_forall; repeat constructor)).
Defined.

(** The other locators on the layouts of the scenario: the slot of
    [Shape.area] and of the stored field in the class layout, and the
    slots of the generic argument and of its witness table in the layout
    of [Box]. *)
Example FindClassMethodIndex_Shape_area :
  MetadataSearcher.getTargetIndex ClassLayout.isNoteAddressPoint
    Scenario.oneSlot
    (FindClassMethodIndex (mkFunctionRef Scenario.Shape_area Minimal 1))
    Scenario.squareLayout
  = Some 1.
Proof. reflexivity. Qed.

Example FindClassFieldOffset_field :
  MetadataSearcher.getTargetIndex ClassLayout.isNoteAddressPoint
    Scenario.oneSlot (FindClassFieldOffset 2) Scenario.squareLayout
  = Some 0.
Proof. reflexivity. Qed.

Example FindValueTypeArgumentIndex_Box :
  MetadataSearcher.getTargetIndex ValueLayout.isNoteAddressPoint
    (fun _ => 1) (FindValueTypeArgumentIndex 10) Scenario.boxLayout
  = Some 1.
Proof. reflexivity. Qed.

Example FindValueTypeWitnessTableIndex_Box :
  MetadataSearcher.getTargetIndex ValueLayout.isNoteAddressPoint
    (fun _ => 1) (FindValueTypeWitnessTableIndex 10 50) Scenario.boxLayout
  = Some 2.
Proof. reflexivity. Qed.

(** A field that is not in the layout, and a layout without an address
    point. *)
Example FindClassFieldOffset_missing :
  MetadataSearcher.getTargetIndex ClassLayout.isNoteAddressPoint
    Scenario.oneSlot (FindClassFieldOffset 99) Scenario.squareLayout
  = None.
Proof. reflexivity. Qed.

Example FindClassParentIndex_no_address_point :
  MetadataSearcher.getTargetIndex ClassLayout.isNoteAddressPoint
    Scenario.oneSlot (FindClassParentIndex 32)
    (firstn 5 Scenario.squareLayout)
  = None.
Proof. reflexivity. Qed.

(** ** Final overriders *)

Section FinalOverridersProofs.
Import ClassMetadataBuilderBase.



Lemma fold_noteMember members : forall FO,
  fold_left noteMember members FO
  = fold_left noteMethod (omap (fun member => match member with FuncMember fn => Some fn | _ => None end) members) FO.
Proof.
  induction members as [|m ms IH]; intros FO; simpl; [reflexivity|].
  destruct m; simpl; apply IH.
Qed.

Lemma computeFinalOverriders_from_fold : forall cls d FO,
  computeFinalOverriders_from cls FO
  = fold_left noteMethod (hierarchyMethodsFrom d cls).*2 FO.
Proof.
  fix IH 1. intros [nom members ctx super] d FO. simpl.
  rewrite fmap_app, fold_left_app, fold_noteMember.
  unfold methodsOf. simpl.
  rewrite <- list_fmap_compose.
  assert (Hid : forall l : list FuncDecl, (snd ∘ pair d) <$> l = l).
  { induction l; simpl; [done|]. by f_equal. }
  rewrite Hid.
  destruct super as [[ty super]|]; simpl; [apply IH|reflexivity].
Qed.

Lemma hierarchyMethodsFrom_depth : forall cls d j g,
  (j, g) ∈ hierarchyMethodsFrom d cls -> (d <= j)%nat.
Proof.
  fix IH 1. intros [nom members ctx super] d j g. simpl.
  rewrite elem_of_app. intros [Hin|Hin].
  - apply list_elem_of_fmap in Hin as (x & [= -> _] & _). lia.
  - destruct super as [[ty super]|]; [|by apply elem_of_nil in Hin].
    apply IH in Hin. lia.
Qed.

Lemma hierarchyMethodsFrom_sorted : forall cls d P x R y,
  hierarchyMethodsFrom d cls = P ++ x :: R -> y ∈ R -> (x.1 <= y.1)%nat.
Proof.
  fix IH 1. intros [nom members ctx super] d P x R y. simpl. intros Heq Hy.
  symmetry in Heq. apply app_eq_app in Heq as [k [[HP HR]|[HA HB]]].
  - (* the split lies in the superclasses *)
    destruct super as [[ty super]|]; [|by destruct k].
    eapply (IH super (S d) k x R y); [exact HR | exact Hy].
  - destruct k as [|k0 k].
    + simpl in HB. destruct super as [[ty super]|]; [|done].
      eapply (IH super (S d) [] x R y); [symmetry; exact HB|exact Hy].
    + (* x is a method of this class *)
      injection HB as Hx0 HR. subst k0.
      assert (Hx : x ∈ map (pair d) (methodsOf {| asNominal := nom; getMembers := members; getDeclaredTypeOfContext := ctx; getSuperclass := super |})).
      { rewrite HA. apply elem_of_app. right. left. }
      apply list_elem_of_fmap in Hx as (x0 & -> & _). simpl.
      subst R. apply elem_of_app in Hy as [Hy|Hy].
      * assert (Hy' : y ∈ map (pair d) (methodsOf {| asNominal := nom; getMembers := members; getDeclaredTypeOfContext := ctx; getSuperclass := super |})).
        { rewrite HA. apply elem_of_app. right. right. exact Hy. }
        apply list_elem_of_fmap in Hy' as (y0 & -> & _). simpl. lia.
      * destruct super as [[ty super]|]; [|by apply elem_of_nil in Hy].
        destruct y as [j g]. apply hierarchyMethodsFrom_depth in Hy. simpl. lia.
Qed.

Lemma in_snd (x : nat * FuncDecl) (l : list (nat * FuncDecl)) : x ∈ l -> x.2 ∈ l.*2.
Proof. intros. apply list_elem_of_fmap. eauto. Qed.

Lemma in_snd_inv (g : FuncDecl) (l : list (nat * FuncDecl)) : g ∈ l.*2 -> exists i, (i, g) ∈ l.
Proof. intros ([i g'] & -> & Hin)%list_elem_of_fmap. eauto. Qed.

Section FinalOverriders.
Variable HM : list (nat * FuncDecl).
Hypothesis HM_sorted : forall P x R y, HM = P ++ x :: R -> y ∈ R -> (x.1 <= y.1)%nat.
Hypothesis HM_addresses : NoDup (map (fun x => funcId x.2) HM).
Hypothesis HM_override_up : forall i g j m h,
  (i, g) ∈ HM -> (j, m) ∈ HM ->
  getOverriddenDecl g = Some h -> funcId h = funcId m -> (i < j)%nat.
Hypothesis HM_single_overrider : forall i1 g1 i2 g2 h1 h2,
  (i1, g1) ∈ HM -> (i2, g2) ∈ HM ->
  getOverriddenDecl g1 = Some h1 -> getOverriddenDecl g2 = Some h2 ->
  funcId h1 = funcId h2 -> funcId g1 = funcId g2.

Local Abbreviation L := (HM.*2).
Local Abbreviation Inv := (FinalOverridersInv HM).
Local Abbreviation unoverridden := (unoverridden HM.*2).

Lemma Inv_step P x R FO :
  HM = P ++ x :: R -> Inv P FO -> Inv (P ++ [x]) (noteMethod FO x.2).
Proof using All.
  intros HHM [Hent Hmem Hov]. destruct x as [i fn]. simpl.
  assert (HfnL : (i, fn) ∈ HM) by (rewrite HHM; apply elem_of_app; right; left).
  assert (HPsub : forall g, g ∈ P.*2 -> g ∈ (P ++ [(i, fn)]).*2).
  { intros g Hg. rewrite fmap_app. apply elem_of_app. by left. }
  assert (Hfnin : fn ∈ (P ++ [(i, fn)]).*2).
  { rewrite fmap_app. simpl. apply elem_of_app. right. left. }
  (* the entry of [fn] after the first step *)
  set (fo := default fn (FO !! funcId fn)).
  set (FO1 := <[funcId fn := fo]> FO).
  assert (Hfo : fo ∈ (P ++ [(i, fn)]).*2 /\ unoverridden fo /\
                overridesThrough L fo (funcId fn)).
  { unfold fo. destruct (FO !! funcId fn) as [f0|] eqn:Hlk; simpl.
    - destruct (Hent _ _ Hlk) as (? & ? & ?). auto.
    - split; [done|]. split; [|constructor].
      intros g h Hg Hgo Heq.
      apply in_snd_inv in Hg as [j Hg].
      pose proof (HM_override_up j g i fn h Hg HfnL Hgo Heq) as Hlt.
      rewrite HHM in Hg. apply elem_of_app in Hg as [Hg|Hg].
      + apply in_snd in Hg. destruct (Hov g h Hg Hgo) as [f1 Hf1].
        rewrite Heq in Hf1. congruence.
      + apply elem_of_cons in Hg as [Hg|Hg].
        * injection Hg as -> ->. lia.
        * pose proof (HM_sorted P (i, fn) R (j, g) HHM Hg). simpl in *. lia. }
  assert (Hent1 : forall k f, FO1 !! k = Some f ->
            f ∈ (P ++ [(i, fn)]).*2 /\ unoverridden f /\ overridesThrough L f k).
  { intros k f. unfold FO1. rewrite lookup_insert. case_decide as Hk.
    - intros [= <-]. subst k. exact Hfo.
    - intros Hlk. destruct (Hent _ _ Hlk) as (? & ? & ?). auto. }
  assert (Hsome1 : forall k, is_Some (FO !! k) -> is_Some (FO1 !! k)).
  { intros k Hk. unfold FO1. rewrite lookup_insert. case_decide; eauto. }
  assert (Hfn1 : FO1 !! funcId fn = Some fo).
  { unfold FO1. apply lookup_insert_eq. }
  unfold noteMethod, noteMember. fold fo. fold FO1.
  destruct (getOverriddenDecl fn) as [h|] eqn:Hfnov.
  - destruct (FO1 !! funcId h) as [fh|] eqn:Hlkh.
    + split.
      * exact Hent1.
      * intros g Hg. rewrite fmap_app in Hg. apply elem_of_app in Hg as [Hg|Hg].
        -- apply Hsome1, Hmem, Hg.
        -- simpl in Hg. apply list_elem_of_singleton in Hg as ->. eauto.
      * intros g h' Hg Hgo. rewrite fmap_app in Hg. apply elem_of_app in Hg as [Hg|Hg].
        -- apply Hsome1. eapply Hov; eauto.
        -- simpl in Hg. apply list_elem_of_singleton in Hg as ->.
           assert (h' = h) as -> by congruence. eauto.
    + assert (Hsome2 : forall k, is_Some (FO1 !! k) ->
                is_Some (<[funcId h := fo]> FO1 !! k)).
      { intros k Hk. rewrite lookup_insert. case_decide; eauto. }
      split.
      * intros k f. rewrite lookup_insert. case_decide as Hk.
        -- intros [= <-]. subst k. destruct Hfo as (? & ? & Hth).
           split; [done|]. split; [done|].
           eapply overrides_step; [| exact Hfnov | exact Hth].
           apply (in_snd (i, fn)), HfnL.
        -- apply Hent1.
      * intros g Hg. apply Hsome2.
        rewrite fmap_app in Hg. apply elem_of_app in Hg as [Hg|Hg].
        -- apply Hsome1, Hmem, Hg.
        -- simpl in Hg. apply list_elem_of_singleton in Hg as ->. eauto.
      * intros g h' Hg Hgo. rewrite fmap_app in Hg. apply elem_of_app in Hg as [Hg|Hg].
        -- apply Hsome2, Hsome1. eapply Hov; eauto.
        -- simpl in Hg. apply list_elem_of_singleton in Hg as ->.
           assert (h' = h) as -> by congruence. rewrite lookup_insert_eq. eauto.
  - split.
    + exact Hent1.
    + intros g Hg. rewrite fmap_app in Hg. apply elem_of_app in Hg as [Hg|Hg].
      * apply Hsome1, Hmem, Hg.
      * simpl in Hg. apply list_elem_of_singleton in Hg as ->. eauto.
    + intros g h' Hg Hgo. rewrite fmap_app in Hg. apply elem_of_app in Hg as [Hg|Hg].
      * apply Hsome1. eapply Hov; eauto.
      * simpl in Hg. apply list_elem_of_singleton in Hg as ->. congruence.
Qed.

Lemma Inv_prefix : forall P R, HM = P ++ R -> Inv P (fold_left noteMethod P.*2 ∅).
Proof using All.
  induction P as [|x P IH] using rev_ind; intros R HHM.
  - simpl. split.
    + intros k f Hk. by rewrite lookup_empty in Hk.
    + intros g Hg. by apply elem_of_nil in Hg.
    + intros g h Hg. by apply elem_of_nil in Hg.
  - rewrite fmap_app, fold_left_app. simpl.
    rewrite <- app_assoc in HHM. simpl in HHM.
    eapply Inv_step; [exact HHM|]. eapply IH. exact HHM.
Qed.

Lemma Inv_all : Inv HM (fold_left noteMethod L ∅).
Proof using All. apply (Inv_prefix HM []). by rewrite app_nil_r. Qed.

(** An unoverridden overrider of the declaration at [k] overrides every
    other overrider of it. *)
Lemma unoverridden_overrides_all f k :
  overridesThrough L f k -> unoverridden f ->
  forall g, overridesThrough L g k -> overridesThrough L f (funcId g).
Proof using All.
  induction 1 as [|g1 h1 Hg1 Hov1 Hf IH]; intros Htop g Hg.
  - remember (funcId f) as k eqn:Hk. destruct Hg as [|g2 h2 Hg2 Hov2 Hg].
    + rewrite Hk. constructor.
    + exfalso. eapply Htop; eauto.
  - remember (funcId h1) as k eqn:Hk. destruct Hg as [|g2 h2 Hg2 Hov2 Hg].
    + rewrite Hk. eapply overrides_step; eauto.
    + apply IH; [done|].
      apply in_snd_inv in Hg1 as [i1 Hg1]. apply in_snd_inv in Hg2 as [i2 Hg2].
      rewrite (HM_single_overrider i1 g1 i2 g2 h1 h2 Hg1 Hg2 Hov1 Hov2 (eq_sym Hk)).
      exact Hg.
Qed.

(** Overriding goes down the hierarchy. *)
Lemma overridesThrough_depth f k :
  overridesThrough L f k ->
  forall i j g, (i, f) ∈ HM -> (j, g) ∈ HM -> funcId g = k -> (i <= j)%nat.
Proof using All.
  induction 1 as [|g1 h1 Hg1 Hov1 Hf IH]; intros i j g Hi Hj Hk.
  - (* same address, hence same entry of the hierarchy *)
    apply list_elem_of_lookup in Hi as [a Ha]. apply list_elem_of_lookup in Hj as [b Hb].
    assert (a = b) as ->.
    { eapply NoDup_lookup; [exact HM_addresses| |].
      - rewrite list_lookup_fmap, Ha. reflexivity.
      - rewrite list_lookup_fmap, Hb. simpl. by rewrite Hk. }
    assert ((i, f) = (j, g)) by congruence. assert (i = j) by congruence. lia.
  - apply in_snd_inv in Hg1 as [i1 Hg1].
    pose proof (IH i i1 g1 Hi Hg1 eq_refl).
    pose proof (HM_override_up i1 g1 j g h1 Hg1 Hj Hov1 (eq_sym Hk)). lia.
Qed.
End FinalOverriders.

(** C3: in a well-formed hierarchy, [addMethod] for a method of the
    hierarchy of the target class appends the address of the method's
    final overrider, at the explosion and uncurry level asked for: the
    method of the hierarchy that is or overrides it and is the most
    derived of those, [computeFinalOverriders] having been run by the
    constructor. *)
Theorem addMethod_places_final_overrider IGM (TargetClass : ClassDecl)
    (fn : FunctionRef) (size : Z) (s : State) (i : nat) :
  WellFormedHierarchy TargetClass ->
  (i, getDecl fn) ∈ hierarchyMethods TargetClass ->
  FinalOverriders s = computeFinalOverriders TargetClass ->
  exists f,
    isFinalOverrider TargetClass (getDecl fn) f /\
    fst <$> addMethod IGM TargetClass fn size s
      = Some [AddrOfFunction (mkFunctionRef f (getExplosionLevel fn)
                                (getUncurryLevel fn))].
Proof.
  intros [Hnd Hup Hsingle] Hin HFO.
  pose proof (hierarchyMethodsFrom_sorted TargetClass 0) as Hsorted.
  fold (hierarchyMethods TargetClass) in Hsorted.
  pose proof (Inv_all _ Hsorted Hnd Hup Hsingle) as [Hent Hmem _].
  unfold computeFinalOverriders in HFO.
  rewrite (computeFinalOverriders_from_fold TargetClass 0) in HFO.
  fold (hierarchyMethods TargetClass) in HFO.
  destruct (Hmem (getDecl fn) (in_snd _ _ Hin)) as [f Hf].
  destruct (Hent _ _ Hf) as (HfL & Htop & Hthrough).
  exists f. split.
  - split; [by apply in_snd_inv|]. split; [exact Hthrough|].
    intros j g Hg Hgm.
    pose proof (unoverridden_overrides_all _ Hsorted Hnd Hup Hsingle f _ Hthrough Htop g Hgm) as Hfg.
    split; [exact Hfg|].
    intros i' Hi'. eapply (overridesThrough_depth _ Hsorted Hnd Hup Hsingle); eauto.
  - unfold addMethod. rewrite HFO, Hf. simpl. reflexivity.
Qed.

Ltac members H :=
  repeat (apply elem_of_cons in H as [H|H]; [injection H as -> ->|]);
  try (by apply elem_of_nil in H).

Lemma SquareClass_wf : WellFormedHierarchy Scenario.SquareClass.
Proof.
  split.
  - apply NoDup_ListNoDup. vm_compute.
    repeat constructor; simpl; intuition discriminate.
  - intros i g j m h Hg Hm Hov Heq.
    unfold hierarchyMethods in Hg, Hm. simpl in Hg, Hm.
    members Hg; members Hm; cbv in Hov; try discriminate Hov;
      injection Hov as <-; cbv in Heq; try discriminate Heq; lia.
  - intros i1 g1 i2 g2 h1 h2 Hg1 Hg2 Hov1 Hov2 Heq.
    unfold hierarchyMethods in Hg1, Hg2. simpl in Hg1, Hg2.
    members Hg1; members Hg2; cbv in Hov1, Hov2;
      try discriminate Hov1; try discriminate Hov2;
      injection Hov1 as <-; injection Hov2 as <-; cbv in Heq;
      try discriminate Heq; reflexivity.
Qed.

Lemma addMethod_places_final_overrider_witness :
  exists f,
    isFinalOverrider Scenario.SquareClass Scenario.Shape_area f /\
    fst <$> addMethod Scenario.IGM64 Scenario.SquareClass
              (mkFunctionRef Scenario.Shape_area Minimal 1) 7
              (create Scenario.SquareClass)
      = Some [AddrOfFunction (mkFunctionRef f Minimal 1)].
Proof.
  apply (addMethod_places_final_overrider Scenario.IGM64 Scenario.SquareClass
           (mkFunctionRef Scenario.Shape_area Minimal 1) 7
           (create Scenario.SquareClass) 2 SquareClass_wf).
  - vm_compute. do 3 right. left.
  - reflexivity.
Defined.

(** In the scenario the slot of [Shape.area] gets [Square.area]. *)
Example Shape_area_slot_gets_Square_area :
  fst <$> addMethod Scenario.IGM64 Scenario.SquareClass
            (mkFunctionRef Scenario.Shape_area Minimal 1) 7
            (create Scenario.SquareClass)
  = Some [AddrOfFunction (mkFunctionRef Scenario.Square_area Minimal 1)].
Proof. vm_compute. reflexivity. Qed.

End FinalOverridersProofs.

(** ** Generic metadata templates *)

Section TemplateProofs.
Import GenericMetadataBuilderBase.
Context {Hook Extra : Type}.
Variable IGM : IRGenModule.
Variable classify : Hook -> HookKind.
Variable superCall : Hook -> Z -> Extra -> option (list Constant * Extra * option bool).
Variable pattern : option (list Constant).

Local Abbreviation call := (GenericMetadataBuilderBase.call classify superCall).
Local Abbreviation superLayout := (GenericMetadataBuilderBase.superLayout classify superCall).
Local Abbreviation layout := (GenericMetadataBuilderBase.layout IGM classify superCall pattern).
Local Abbreviation callSuper := (GenericMetadataBuilderBase.callSuper (Hook:=Hook) superCall).
Local Abbreviation numbered := (numbered (Extra:=Extra)).

(** What one hook call does to the builder. *)
Lemma callSuper_inv h (s s' : State Extra) :
  callSuper h s = Some s' ->
  (exists new, Fields s' = Fields s ++ map Some new) /\
  NumGenericWitnesses s' = NumGenericWitnesses s /\
  AddressPoint s' = AddressPoint s /\
  FillOps s' = FillOps s.
Proof.
  unfold GenericMetadataBuilderBase.callSuper.
  destruct (superCall h _ (base s)) as [[[new b'] dep]|]; simpl; [|done].
  intros [= <-]. simpl. eauto.
Qed.

Lemma call_inv h (s s' : State Extra) :
  call h s = Some s' ->
  (exists new, Fields s' = Fields s ++ map Some new) /\
  (AddressPoint s' = if isAddressPointNote (classify h)
                     then getNextIndex s else AddressPoint s) /\
  (if isGenericSlot (classify h)
   then NumGenericWitnesses s' = wrap32 (NumGenericWitnesses s + 1) /\
        FillOps s' = FillOps s ++ [mkFillOp (NumGenericWitnesses s) (getNextIndex s)]
   else NumGenericWitnesses s' = NumGenericWitnesses s /\
        FillOps s' = FillOps s).
Proof.
  unfold GenericMetadataBuilderBase.call.
  destruct (classify h) eqn:Hk; simpl;
    unfold noteAddressPoint, addGenericSlot;
    intros (Hf & Hn & Ha & Ho)%callSuper_inv; simpl in *; auto.
Qed.

Lemma genericSlotCalls_cons h (calls : list Hook) :
  genericSlotCalls classify (h :: calls)
  = ((if isGenericSlot (classify h) then 1 else 0) + genericSlotCalls classify calls)%nat.
Proof.
  unfold genericSlotCalls. rewrite filter_cons.
  destruct (decide (isGenericSlot (classify h) = true)) as [Heq|Hne].
  - rewrite Heq. reflexivity.
  - apply not_true_is_false in Hne. rewrite Hne. reflexivity.
Qed.

Lemma genericSlotCalls_app (l1 l2 : list Hook) :
  genericSlotCalls classify (l1 ++ l2)
  = (genericSlotCalls classify l1 + genericSlotCalls classify l2)%nat.
Proof. unfold genericSlotCalls. by rewrite filter_app, length_app. Qed.

Lemma superLayout_inv calls : forall (s s' : State Extra),
  superLayout calls s = Some s' ->
  (exists new, Fields s' = Fields s ++ map Some new) /\
  (exists ops, FillOps s' = FillOps s ++ ops /\
               length ops = genericSlotCalls classify calls) /\
  (numbered s -> numbered s') /\
  ((forall x, x ∈ calls -> isAddressPointNote (classify x) = false) ->
   AddressPoint s' = AddressPoint s).
Proof.
  induction calls as [|h calls IH]; intros s s'; simpl.
  - intros [= <-]. split; [exists []; by rewrite app_nil_r|].
    split; [exists []; by rewrite app_nil_r|]. done.
  - destruct (call h s) as [s1|] eqn:Hc; simpl; [|done].
    intros Hl. destruct (IH _ _ Hl) as ((new2 & Hf2) & (ops2 & Ho2 & Hlen2) & Hnum2 & Hap2).
    destruct (call_inv _ _ _ Hc) as ((new1 & Hf1) & Hap1 & Hgen).
    split; [|split; [|split]].
    + exists (new1 ++ new2). rewrite Hf2, Hf1, map_app, app_assoc. reflexivity.
    + rewrite genericSlotCalls_cons.
      destruct (isGenericSlot (classify h)); destruct Hgen as [Hn Ho].
      * eexists. rewrite Ho2, Ho, <- app_assoc. split; [reflexivity|].
        simpl. by rewrite Hlen2.
      * exists ops2. rewrite Ho2, Ho. done.
    + intros [HN Hfrom]. apply Hnum2.
      destruct (isGenericSlot (classify h)); destruct Hgen as [Hn Ho].
      * split.
        -- rewrite Hn, Ho, length_app, HN, wrap32_add_l. simpl. f_equal. lia.
        -- intros i op. rewrite Ho. intros Hlk.
           apply lookup_app_Some in Hlk as [Hlk|[Hge Hlk]]; [by apply Hfrom|].
           apply list_lookup_singleton_Some in Hlk as [Hi <-]. simpl.
           rewrite HN. f_equal. lia.
      * split; [by rewrite Hn, Ho|]. by rewrite Ho.
    + intros Hno. rewrite Hap2 by (intros; apply Hno; by right).
      rewrite Hap1, (Hno h) by (by left). reflexivity.
Qed.

(** [layout] in terms of what [super::layout()] leaves: the header
    fields are written over the five reserved ones. *)
Lemma layout_inv calls (s0 s : State Extra) :
  layout calls s0 = Some s ->
  exists s1 extra fill,
    superLayout calls (reserveHeader s0) = Some s1 /\
    (fill = FillFunction (FillOps s1) None \/ exists p, fill = FillFunction (FillOps s1) (Some p)) /\
    AddressPoint s1 <> 0 /\
    FillOps s = FillOps s1 /\
    NumGenericWitnesses s = NumGenericWitnesses s1 /\
    AddressPoint s = AddressPoint s1 /\
    let fs := Fields s1 ++ map Some extra in
    let size := getNextIndex (setFields s1 fs) * getPointerSize IGM in
    Fields s =
      <[4%nat := Some getPrivateDataInit]>
      (<[3%nat := Some (ConstantInt_get IGM Int16Ty (AddressPoint s1 * getPointerSize IGM))]>
      (<[2%nat := Some (ConstantInt_get IGM Int16Ty (NumGenericWitnesses s1))]>
      (<[1%nat := Some (ConstantInt_get IGM Int32Ty size)]>
      (<[0%nat := Some fill]> fs)))).
Proof.
  unfold GenericMetadataBuilderBase.layout.
  destruct (superLayout calls _) as [s1|] eqn:Hs1; simpl; [|done].
  destruct (HasDependentVWT s1) eqn:Hdep; simpl.
  - destruct pattern as [pat|]; simpl; [|done].
    match goal with |- context [emitFillFunction ?x] => destruct (emitFillFunction x) as [fill|] eqn:Hfill end; simpl; [|done].
    match goal with |- context [llvm_assert ?b] => destruct b eqn:Hap end; simpl; [|done].
    intros [= <-]. exists s1, pat, fill. simpl.
    split; [done|]. split.
    { revert Hfill. unfold emitFillFunction. simpl.
      destruct (1 <=? AddressPoint s1); simpl; [|done].
      match goal with |- context [llvm_assert ?b] => destruct b end; simpl; [|done].
      intros [= <-]. right. eauto. }
    split; [apply negb_true_iff, Z.eqb_neq in Hap; exact Hap|].
    repeat split; try reflexivity.
    unfold getNextIndex. simpl. rewrite length_insert. reflexivity.
  - match goal with |- context [emitFillFunction ?x] => destruct (emitFillFunction x) as [fill|] eqn:Hfill end; simpl; [|done].
    match goal with |- context [llvm_assert ?b] => destruct b eqn:Hap end; simpl; [|done].
    intros [= <-]. exists s1, [], fill. simpl. rewrite app_nil_r.
    assert (Hs1eq : setFields s1 (Fields s1) = s1) by (by destruct s1).
    rewrite Hs1eq.
    split; [done|]. split.
    { revert Hfill. unfold emitFillFunction. rewrite Hdep. intros [= <-]. by left. }
    split; [apply negb_true_iff, Z.eqb_neq in Hap; exact Hap|].
    repeat split; try reflexivity.
    unfold getNextIndex. simpl. rewrite length_insert. reflexivity.
Qed.

Lemma superLayout_app (l1 l2 : list Hook) (s : State Extra) :
  superLayout (l1 ++ l2) s = superLayout l1 s ≫= superLayout l2.
Proof.
  revert s. induction l1 as [|h l1 IH]; intros s; simpl; [reflexivity|].
  destruct (call h s) as [s'|]; simpl; [apply IH|reflexivity].
Qed.

Lemma numbered_initial (b : Extra) : numbered (reserveHeader (initial b)).
Proof. split; [reflexivity|]. intros i op Hlk. simpl in Hlk. by rewrite lookup_nil in Hlk. Qed.

(** C7: a template build records one fill operation for each call of a
    generic-argument or generic-witness-table hook, and no other: there
    are as many as such calls, the operation of index [i] has argument
    index [i], and the call that comes after [n] such calls records the
    operation of index [n], to the slot that is next at that call.  The
    number of calls is within the range of [unsigned]. *)
Theorem fill_ops_one_per_generic_slot (calls : list Hook) (b : Extra)
    (s : State Extra) :
  layout calls (initial b) = Some s ->
  Z.of_nat (genericSlotCalls classify calls) <= 2 ^ 32 ->
  length (FillOps s) = genericSlotCalls classify calls /\
  (forall i op, FillOps s !! i = Some op -> FromIndex op = Z.of_nat i) /\
  (forall pre h post s_pre,
     calls = pre ++ h :: post ->
     isGenericSlot (classify h) = true ->
     superLayout pre (reserveHeader (initial b)) = Some s_pre ->
     FillOps s !! genericSlotCalls classify pre
     = Some (mkFillOp (Z.of_nat (genericSlotCalls classify pre))
               (getNextIndex s_pre))).
Proof.
  intros Hlayout Hbound.
  apply layout_inv in Hlayout
    as (s1 & extra & fill & Hs1 & _ & _ & HFO & _ & _ & _).
  rewrite HFO.
  destruct (superLayout_inv _ _ _ Hs1) as (_ & (ops & Hops & Hlen) & Hnum & _).
  simpl in Hops. subst ops.
  destruct (Hnum (numbered_initial b)) as [_ Hfrom].
  split; [exact Hlen|]. split.
  - intros i op Hlk. rewrite (Hfrom i op Hlk).
    apply lookup_lt_Some in Hlk. apply wrap32_small. lia.
  - intros pre h post s_pre -> Hgen Hpre.
    rewrite superLayout_app, Hpre in Hs1. simpl in Hs1.
    destruct (call h s_pre) as [s2|] eqn:Hc; simpl in Hs1; [|done].
    destruct (superLayout_inv _ _ _ Hpre) as (_ & (ops1 & Hops1 & Hlen1) & Hnum1 & _).
    simpl in Hops1. subst ops1.
    destruct (Hnum1 (numbered_initial b)) as [HN1 _].
    destruct (call_inv _ _ _ Hc) as (_ & _ & Hg). rewrite Hgen in Hg.
    destruct Hg as [_ Ho2].
    destruct (superLayout_inv _ _ _ Hs1) as (_ & (ops3 & Hops3 & _) & _ & _).
    rewrite Hops3, Ho2, <- app_assoc.
    rewrite lookup_app_r by lia. rewrite Hlen1, Nat.sub_diag. simpl.
    rewrite HN1, Hlen1. f_equal. f_equal.
    rewrite genericSlotCalls_app, genericSlotCalls_cons, Hgen in Hbound.
    apply wrap32_small. lia.
Qed.

Lemma superLayout_length_ge calls (s s' : State Extra) :
  superLayout calls s = Some s' -> (length (Fields s) <= length (Fields s'))%nat.
Proof.
  intros ((new & Hf) & _)%superLayout_inv. rewrite Hf, length_app. lia.
Qed.

Lemma getNextIndex_small (s : State Extra) :
  (5 <= length (Fields s))%nat -> Z.of_nat (length (Fields s)) < 2 ^ 32 ->
  getNextIndex s = Z.of_nat (length (Fields s)) - 5.
Proof.
  intros H5 Hlt. unfold getNextIndex, TemplateHeaderFieldCount.
  rewrite (wrap32_small (Z.of_nat _)) by lia. apply wrap32_small. lia.
Qed.

(** C6: in a built template the address-point field of the header is
    the slot index at which the address point was last noted, counted
    after the header, times the word size, and the size field is the
    number of slots after the header times the word size.  The two
    products are within the 16 and 32 bits of their fields. *)
Theorem template_header_offsets (calls pre post : list Hook) (ap : Hook)
    (b : Extra) (s s_pre : State Extra) :
  calls = pre ++ ap :: post ->
  isAddressPointNote (classify ap) = true ->
  (forall x, x ∈ post -> isAddressPointNote (classify x) = false) ->
  superLayout pre (reserveHeader (initial b)) = Some s_pre ->
  layout calls (initial b) = Some s ->
  let wordSize := getPointerSize IGM in
  let addressPointSlot := Z.of_nat (length (Fields s_pre)) - 5 in
  let finalSlotCount := Z.of_nat (length (Fields s)) - 5 in
  Z.of_nat (length (Fields s)) < 2 ^ 32 ->
  0 <= wordSize ->
  addressPointSlot * wordSize < 2 ^ 16 ->
  finalSlotCount * wordSize < 2 ^ 32 ->
  Fields s !! 3%nat
    = Some (Some (ConstantInt Int16Ty (addressPointSlot * wordSize))) /\
  Fields s !! 1%nat
    = Some (Some (ConstantInt Int32Ty (finalSlotCount * wordSize))).
Proof.
  intros -> Hap Hpost Hpre Hlayout wordSize addressPointSlot finalSlotCount
    Hlen Hw Hapb Hsizeb.
  apply layout_inv in Hlayout
    as (s1 & extra & fill & Hs1 & _ & _ & _ & _ & _ & HF).
  simpl in HF.
  pose proof Hs1 as Hrun. rewrite superLayout_app, Hpre in Hrun. simpl in Hrun.
  destruct (call ap s_pre) as [s2|] eqn:Hc; simpl in Hrun; [|done].
  destruct (call_inv _ _ _ Hc) as ((new2 & Hf2) & Ha2 & _). rewrite Hap in Ha2.
  destruct (superLayout_inv _ _ _ Hrun) as ((new3 & Hf3) & _ & _ & Ha3).
  specialize (Ha3 Hpost).
  destruct (superLayout_inv _ _ _ Hpre) as ((new1 & Hf1) & _).
  simpl in Hf1.
  assert (HlenF : length (Fields s) = length (Fields s1 ++ map Some extra)).
  { rewrite HF, !length_insert. reflexivity. }
  assert (Hlen1 : (5 <= length (Fields s_pre))%nat).
  { rewrite Hf1. simpl. lia. }
  assert (Hle : (length (Fields s_pre) <= length (Fields s1))%nat).
  { rewrite Hf3, Hf2, !length_app. lia. }
  assert (Hle2 : (length (Fields s1) <= length (Fields s))%nat).
  { rewrite HlenF, length_app. lia. }
  assert (HAP : AddressPoint s1 = addressPointSlot).
  { rewrite Ha3, Ha2. apply getNextIndex_small; lia. }
  assert (Hsize : getNextIndex (setFields s1 (Fields s1 ++ map Some extra))
                  = finalSlotCount).
  { unfold finalSlotCount. rewrite HlenF.
    apply getNextIndex_small; simpl; [lia|]. rewrite <- HlenF. lia. }
  rewrite HF, HAP, Hsize.
  assert (H5 : (5 <= length (Fields s1 ++ map Some extra))%nat) by (rewrite <- HlenF; lia).
  split.
  - rewrite list_lookup_insert_ne by lia.
    rewrite list_lookup_insert_eq by (rewrite !length_insert; lia).
    unfold ConstantInt_get. simpl. rewrite Z.mod_small; [reflexivity|].
    unfold addressPointSlot, wordSize in *. split; [|lia].
    apply Z.mul_nonneg_nonneg; lia.
  - rewrite !list_lookup_insert_ne by lia.
    rewrite list_lookup_insert_eq by (rewrite !length_insert; lia).
    unfold ConstantInt_get. simpl. rewrite Z.mod_small; [reflexivity|].
    unfold finalSlotCount, wordSize in *. split; [|lia].
    apply Z.mul_nonneg_nonneg; lia.
Qed.

(** The last call of a layout that notes the address point, if any. *)
Lemma last_address_point_note (calls : list Hook) :
  (forall x, x ∈ calls -> isAddressPointNote (classify x) = false) \/
  exists pre ap post,
    calls = pre ++ ap :: post /\
    isAddressPointNote (classify ap) = true /\
    (forall x, x ∈ post -> isAddressPointNote (classify x) = false).
Proof.
  induction calls as [|h calls IH].
  - left. intros x Hx. by apply elem_of_nil in Hx.
  - destruct IH as [Hno|(pre & ap & post & -> & Hap & Hpost)].
    + destruct (isAddressPointNote (classify h)) eqn:Hh.
      * right. exists [], h, calls. done.
      * left. intros x [->|Hx]%elem_of_cons; [exact Hh|by apply Hno].
    + right. exists (h :: pre), ap, post. done.
Qed.

(** The address point a layout leaves, when it has changed it, is the
    next index at the last call that notes it. *)
Lemma superLayout_address_point calls (s s' : State Extra) :
  superLayout calls s = Some s' ->
  AddressPoint s' <> AddressPoint s ->
  exists pre ap post s_pre,
    calls = pre ++ ap :: post /\
    isAddressPointNote (classify ap) = true /\
    (forall x, x ∈ post -> isAddressPointNote (classify x) = false) /\
    superLayout pre s = Some s_pre /\
    AddressPoint s' = getNextIndex s_pre.
Proof.
  intros Hrun Hne.
  destruct (last_address_point_note calls)
    as [Hno|(pre & ap & post & -> & Hap & Hpost)].
  - destruct (superLayout_inv _ _ _ Hrun) as (_ & _ & _ & Hsame).
    by specialize (Hsame Hno).
  - rewrite superLayout_app in Hrun.
    destruct (superLayout pre s) as [s_pre|] eqn:Hpre; simpl in Hrun; [|done].
    destruct (call ap s_pre) as [s2|] eqn:Hc; simpl in Hrun; [|done].
    destruct (call_inv _ _ _ Hc) as (_ & Ha2 & _). rewrite Hap in Ha2.
    destruct (superLayout_inv _ _ _ Hrun) as (_ & _ & _ & Ha3).
    exists pre, ap, post, s_pre. rewrite (Ha3 Hpost), Ha2. done.
Qed.

Lemma wrap32_sub_l a b : wrap32 (wrap32 a - b) = wrap32 (a - b).
Proof. unfold wrap32. apply Zminus_mod_idemp_l. Qed.

(** C5, amended: a built template starts with exactly five header
    fields, in this order: the fill function, which runs the fill
    operations of the template; the size, which is the number of fields
    after the header times the pointer size, as a 32-bit integer; the
    argument count, which is the number of generic-argument and
    generic-witness-table calls of the layout, as a 16-bit integer; the
    address-point offset, which is the next index at the last call that
    notes the address point times the pointer size, as a 16-bit integer;
    and an array of eight null pointers.  The fields the layout appended
    follow.  The widths of the five are one pointer, 32 bits, 16 bits,
    16 bits and eight pointers, whatever the pointer size is. *)
Theorem template_header_shape (calls : list Hook) (b : Extra) (s : State Extra) :
  layout calls (initial b) = Some s ->
  exists vwt body pre ap post s_pre,
    let header :=
      [FillFunction (FillOps s) vwt;
       ConstantInt_get IGM Int32Ty
         (wrap32 (Z.of_nat (length body)) * getPointerSize IGM);
       ConstantInt_get IGM Int16Ty
         (wrap32 (Z.of_nat (genericSlotCalls classify calls)));
       ConstantInt_get IGM Int16Ty (getNextIndex s_pre * getPointerSize IGM);
       ConstantArray Int8PtrTy (repeat (ConstantPointerNull Int8PtrTy) 8)] in
    Fields s = map Some header ++ map Some body /\
    calls = pre ++ ap :: post /\
    isAddressPointNote (classify ap) = true /\
    (forall x, x ∈ post -> isAddressPointNote (classify x) = false) /\
    superLayout pre (reserveHeader (initial b)) = Some s_pre /\
    map (fun field => typeWidth IGM (headerFieldType field)) header
    = [8 * getPointerSize IGM; 32; 16; 16; 8 * (8 * getPointerSize IGM)].
Proof.
  intros Hlayout.
  apply layout_inv in Hlayout
    as (s1 & extra & fill & Hs1 & Hfill & Hap & HFO & _ & _ & HF).
  simpl in HF.
  destruct (superLayout_inv _ _ _ Hs1)
    as ((new & Hf) & (ops & Hops & Hlen) & Hnum & _).
  simpl in Hf, Hops.
  destruct (Hnum (numbered_initial b)) as [HN _].
  destruct (superLayout_address_point _ _ _ Hs1 Hap)
    as (pre & ap & post & s_pre & Hcalls & Hnote & Hpost & Hpre & HA).
  assert (Hsize : getNextIndex (setFields s1 (Fields s1 ++ map Some extra))
                  = wrap32 (Z.of_nat (length (new ++ extra)))).
  { unfold getNextIndex, TemplateHeaderFieldCount. simpl.
    rewrite Hf, wrap32_sub_l. f_equal.
    rewrite !length_app, length_map. simpl. rewrite length_map. lia. }
  rewrite Hsize, HN, HA, Hops, Hlen in HF. rewrite Hf in HF. simpl in HF.
  assert (exists vwt, fill = FillFunction (FillOps s) vwt) as [vwt ->].
  { rewrite HFO. destruct Hfill as [->|[p ->]]; eauto. }
  exists vwt, (new ++ extra), pre, ap, post, s_pre. cbv zeta.
  split; [rewrite HF, map_app; reflexivity|].
  repeat (split; [assumption|]).
  reflexivity.
Qed.
End TemplateProofs.

(** ** References to metadata *)

(** C9: when the function has no local type data for the one-element
    tuple type itself, emitting the reference to a one-element tuple of
    [t] is emitting the reference to [t]: the same value comes back and
    the same instructions are built, so no tuple-metadata call is added. *)
Theorem singleton_tuple_is_its_element IGM emitWitnessTableRefs
    (name : string) (t : CanType) (IGF : IRGenFunction) :
  LocalTypeData IGF (TupleType [(name, t)]) = None ->
  emitTypeMetadataRef IGM emitWitnessTableRefs (TupleType [(name, t)]) IGF
  = emitTypeMetadataRef IGM emitWitnessTableRefs t IGF.
Proof.
  intros Hmiss. unfold emitTypeMetadataRef. simpl.
  unfold bind, EmitTypeMetadataRef.tryGetLocal, tryGetLocalTypeData.
  rewrite Hmiss. reflexivity.
Qed.

Lemma singleton_tuple_is_its_element_witness :
  emitTypeMetadataRef Scenario.IGM64 Scenario.noWitnessTables Scenario.IntSingleton Scenario.newSession
  = emitTypeMetadataRef Scenario.IGM64 Scenario.noWitnessTables Scenario.Int Scenario.newSession.
Proof.
  exact (singleton_tuple_is_its_element Scenario.IGM64 Scenario.noWitnessTables "x" Scenario.Int Scenario.newSession eq_refl).
Defined.




(** For the class [Square] of the scenario the index is found by the
    searcher: 3 - 5. *)
Example emitParentMetadataRef_class_replays_layout :
  emitParentMetadataRef Scenario.IGM64 (fun _ => Scenario.squareLayout)
    Scenario.oneSlot Scenario.SquareDecl (Inst 0) Scenario.newSession
  = emitLoadOfMetadataRefAtIndex Scenario.IGM64 (Inst 0) (-2) Scenario.newSession.
Proof. vm_compute. reflexivity. Qed.

(** *** Local type data is only read *)

(** Induction on canonical types through their component types. *)
Lemma CanType_component_ind (P : CanType -> Prop) :
  (forall t, Forall P (componentTypes t) -> P t) -> forall t, P t.
Proof.
  intros step. fix IH 1. intros t. apply step.
  destruct t; simpl; repeat constructor; try apply IH.
  - induction replacements as [|r rs IHrs]; constructor; [apply IH|exact IHrs].
  - induction fields as [|[n e] fs IHfs]; constructor; [apply IH|exact IHfs].
  - induction protocols as [|r rs IHrs]; constructor; [apply IH|exact IHrs].
Qed.

Lemma keeps_ret {A} (a : A) : keepsLocalTypeData (ret a).
Proof. intros IGF a' IGF' [= _ <-]. reflexivity. Qed.

Lemma keeps_abort {A} : keepsLocalTypeData (@abort A).
Proof. intros IGF a' IGF' H. discriminate H. Qed.

Lemma keeps_bind {A B} (c : IRGen A) (k : A -> IRGen B) :
  keepsLocalTypeData c -> (forall a, keepsLocalTypeData (k a)) ->
  keepsLocalTypeData (bind c k).
Proof.
  intros Hc Hk IGF b IGF'. unfold bind.
  destruct (c IGF) as [[a IGF1]|] eqn:Hrun; [|done].
  intros Hrun2. rewrite (Hk a _ _ _ Hrun2). exact (Hc _ _ _ Hrun).
Qed.

Lemma keeps_emit i : keepsLocalTypeData (emit i).
Proof. intros IGF a IGF' [= _ <-]. reflexivity. Qed.

Lemma keeps_check b : keepsLocalTypeData (check b).
Proof. destruct b; [apply keeps_ret|apply keeps_abort]. Qed.

Lemma keeps_unimplemented m : keepsLocalTypeData (unimplemented m).
Proof. intros IGF a IGF' [= _ <-]. reflexivity. Qed.

Lemma keeps_tryGetLocalTypeData t : keepsLocalTypeData (tryGetLocalTypeData t).
Proof. intros IGF a IGF' [= _ <-]. reflexivity. Qed.

Lemma keeps_getLocalTypeData t : keepsLocalTypeData (getLocalTypeData t).
Proof.
  intros IGF a IGF'. unfold getLocalTypeData.
  destruct (LocalTypeData IGF t); [|done]. intros [= _ <-]. reflexivity.
Qed.

Lemma keeps_storeArguments buffer values : forall i,
  keepsLocalTypeData (storeArguments buffer i values).
Proof.
  induction values as [|v values IH]; intros i; simpl; [apply keeps_ret|].
  apply keeps_bind; [apply keeps_emit|]. intros elt.
  apply keeps_bind; [apply keeps_emit|]. intros _. apply IH.
Qed.

Create HintDb keeps.

#[local] Hint Resolve keeps_ret keeps_abort keeps_emit keeps_check
  keeps_unimplemented keeps_tryGetLocalTypeData keeps_getLocalTypeData
  keeps_storeArguments : keeps.

Ltac keeps :=
  repeat first
    [ progress auto with keeps
    | apply keeps_bind; [|intros ?]
    | match goal with
      | |- keepsLocalTypeData (match ?x with _ => _ end) => destruct x
      | |- keepsLocalTypeData (if ?x then _ else _) => destruct x
      end ].

Lemma keeps_emitNominalMetadataRef collect theDecl theType :
  (forall c, collect = Some c -> keepsLocalTypeData c) ->
  keepsLocalTypeData (emitNominalMetadataRef collect theDecl theType).
Proof.
  intros Hcollect. unfold emitNominalMetadataRef, emitObjCMetadataRef.
  destruct collect as [c|]; [specialize (Hcollect c eq_refl)|]; keeps.
Qed.

Section Emission.
Variable IGM : IRGenModule.
Variable emitWitnessTableRefs : CanType -> IRGen (list Value).
Hypothesis emitWitnessTableRefs_keeps :
  forall t, keepsLocalTypeData (emitWitnessTableRefs t).

Local Abbreviation visit := (EmitTypeMetadataRef.visit IGM emitWitnessTableRefs).

Lemma keeps_collectWitnessTables subs :
  keepsLocalTypeData (EmitTypeMetadataRef.collectWitnessTables emitWitnessTableRefs subs).
Proof using All. induction subs; simpl; keeps. Qed.

Lemma keeps_collectMetadataRefs subs :
  Forall (fun t => keepsLocalTypeData (visit t)) subs ->
  keepsLocalTypeData (EmitTypeMetadataRef.collectMetadataRefs visit subs).
Proof using All.
  induction 1 as [|t subs Ht _ IH]; simpl; keeps.
Qed.

Lemma keeps_storeElements buffer elts :
  Forall (fun t => keepsLocalTypeData (visit t)) elts.*2 ->
  forall i p,
    keepsLocalTypeData (EmitTypeMetadataRef.storeElements visit buffer elts i p).
Proof using All.
  induction elts as [|[n e] elts IH]; intros Hall i p; simpl; [keeps|].
  simpl in Hall. apply Forall_cons in Hall as [He Hall]. keeps.
Qed.

(** Emitting a reference to type metadata leaves the local type data of
    the function as it was. *)
Lemma emitTypeMetadataRef_keeps_LocalTypeData type :
  keepsLocalTypeData (emitTypeMetadataRef IGM emitWitnessTableRefs type).
Proof using All.
  unfold emitTypeMetadataRef.
  induction type as [type IH] using CanType_component_ind.
  destruct type; simpl in *;
    unfold EmitTypeMetadataRef.visitOpaqueType, EmitTypeMetadataRef.unimplementedType,
      EmitTypeMetadataRef.tryGetLocal, EmitTypeMetadataRef.setLocal;
    try (keeps; fail).
  - apply keeps_emitNominalMetadataRef. intros c [=].
  - apply keeps_emitNominalMetadataRef. intros c [= <-].
    apply keeps_bind; [by apply keeps_collectMetadataRefs|]. intros ms.
    apply keeps_bind; [apply keeps_collectWitnessTables|]. keeps.
  - apply keeps_bind; [keeps|]. intros [cached|]; [keeps|].
    pose proof (keeps_storeElements) as Hstore.
    destruct fields as [|[n0 e0] [|[n1 e1] [|[n2 e2] [|f3 rest]]]];
      simpl in IH; repeat (apply Forall_cons in IH as [? IH]).
    + keeps.
    + done.
    + keeps.
    + keeps.
    + apply keeps_bind; [keeps|]. intros buffer.
      apply keeps_bind; [|intros [p|]; keeps].
      apply Hstore. simpl. repeat constructor; done.
  - apply Forall_cons in IH as [? IH]. apply Forall_cons in IH as [? IH].
    apply keeps_bind; [keeps|]. intros [m|]; keeps.
  - apply Forall_cons in IH as [? IH].
    apply keeps_bind; [keeps|]. intros [m|]; keeps.
Qed.
End Emission.

(** C2, evaluated in one fresh session: two emissions for [(Int, Int)]
    build two calls to the tuple-metadata entry point and return two
    different values, and two emissions for [Box<Int>] build two calls
    to the generic-metadata entry point and return two different
    values; the local type data is as it was. *)
Theorem second_emission_calls_runtime_again :
  (exists IGF,
     emitTwice Scenario.IGM64 Scenario.noWitnessTables Scenario.IntPair
       Scenario.newSession = Some ((Inst 0, Inst 1), IGF) /\
     runtimeCalls GetTupleMetadata2Fn (Builder IGF) = 2%nat /\
     LocalTypeData IGF Scenario.IntPair = None) /\
  (exists IGF,
     emitTwice Scenario.IGM64 Scenario.noWitnessTables Scenario.BoxOfInt
       Scenario.newSession = Some ((Inst 4, Inst 9), IGF) /\
     runtimeCalls GetGenericMetadataFn (Builder IGF) = 2%nat /\
     LocalTypeData IGF Scenario.BoxOfInt = None).
Proof.
  split; eexists; (split; [vm_compute; reflexivity|]);
    split; vm_compute; reflexivity.
Qed.

(** ** The template of the scenario *)

Lemma boxTemplate_built :
  GenericMetadataBuilderBase.layout Scenario.IGM64 classifyValueHook
    (GenericStructMetadataBuilder.superCall Scenario.IGM64 Scenario.BoxDecl)
    (GenericStructMetadataBuilder.addDependentValueWitnessTablePattern
       Scenario.IGM64 Scenario.BoxDecl)
    Scenario.boxLayout (GenericMetadataBuilderBase.initial tt)
  = Some Scenario.boxTemplate.
Proof. vm_compute. reflexivity. Qed.

(** C5, as stated, fails: the header of the template of [Box] on the
    64-bit target has a 32-bit and two 16-bit fields, and a field of
    eight words. *)
Lemma template_header_not_word_sized :
  GenericStructMetadataBuilder.layout Scenario.IGM64 Scenario.BoxDecl
    Scenario.boxLayout = Some Scenario.boxTemplate /\
  ~ Forall (wordSized Scenario.IGM64)
      (take 5 (GenericMetadataBuilderBase.Fields Scenario.boxTemplate)).
Proof.
  split; [vm_compute; reflexivity|].
  intros Hall. simpl in Hall.
  apply Forall_cons in Hall as [_ Hall].
  apply Forall_cons in Hall as [(c & [= <-] & Hwidth) _].
  vm_compute in Hwidth. discriminate Hwidth.
Qed.

Lemma template_header_shape_witness :
  exists vwt body pre ap post s_pre,
    let header :=
      [FillFunction (GenericMetadataBuilderBase.FillOps Scenario.boxTemplate) vwt;
       ConstantInt_get Scenario.IGM64 Int32Ty
         (wrap32 (Z.of_nat (length body)) * getPointerSize Scenario.IGM64);
       ConstantInt_get Scenario.IGM64 Int16Ty
         (wrap32 (Z.of_nat (genericSlotCalls classifyValueHook Scenario.boxLayout)));
       ConstantInt_get Scenario.IGM64 Int16Ty
         (GenericMetadataBuilderBase.getNextIndex s_pre
          * getPointerSize Scenario.IGM64);
       ConstantArray Int8PtrTy (repeat (ConstantPointerNull Int8PtrTy) 8)] in
    GenericMetadataBuilderBase.Fields Scenario.boxTemplate
    = map Some header ++ map Some body /\
    Scenario.boxLayout = pre ++ ap :: post /\
    isAddressPointNote (classifyValueHook ap) = true /\
    (forall x, x ∈ post -> isAddressPointNote (classifyValueHook x) = false) /\
    GenericMetadataBuilderBase.superLayout classifyValueHook
      (GenericStructMetadataBuilder.superCall Scenario.IGM64 Scenario.BoxDecl)
      pre (GenericMetadataBuilderBase.reserveHeader
             (GenericMetadataBuilderBase.initial tt)) = Some s_pre /\
    map (fun field => typeWidth Scenario.IGM64 (headerFieldType field)) header
    = [8 * getPointerSize Scenario.IGM64; 32; 16; 16;
       8 * (8 * getPointerSize Scenario.IGM64)].
Proof.
  exact (template_header_shape Scenario.IGM64 classifyValueHook
           (GenericStructMetadataBuilder.superCall Scenario.IGM64 Scenario.BoxDecl)
           (GenericStructMetadataBuilder.addDependentValueWitnessTablePattern
              Scenario.IGM64 Scenario.BoxDecl)
           Scenario.boxLayout tt Scenario.boxTemplate boxTemplate_built).
Defined.

Lemma template_header_offsets_witness :
  GenericMetadataBuilderBase.Fields Scenario.boxTemplate !! 3%nat
    = Some (Some (ConstantInt Int16Ty (3 * 8))) /\
  GenericMetadataBuilderBase.Fields Scenario.boxTemplate !! 1%nat
    = Some (Some (ConstantInt Int32Ty (6 * 8))).
Proof.
  exact (template_header_offsets Scenario.IGM64 classifyValueHook
           (GenericStructMetadataBuilder.superCall Scenario.IGM64 Scenario.BoxDecl)
           (GenericStructMetadataBuilder.addDependentValueWitnessTablePattern
              Scenario.IGM64 Scenario.BoxDecl)
           Scenario.boxLayout (firstn 3 Scenario.boxLayout)
           (skipn 4 Scenario.boxLayout) ValueLayout.noteAddressPoint
           tt Scenario.boxTemplate Scenario.boxBeforeAddressPoint
           eq_refl eq_refl
           ltac:(apply Forall_forall; repeat constructor)
           ltac:(vm_compute; reflexivity)
           boxTemplate_built
           ltac:(vm_compute; reflexivity)
           ltac:(vm_compute; discriminate)
           ltac:(vm_compute; reflexivity)
           ltac:(vm_compute; reflexivity)).
Defined.

Lemma fill_ops_one_per_generic_slot_witness :
  length (GenericMetadataBuilderBase.FillOps Scenario.boxTemplate) = 2%nat /\
  (forall i op,
     GenericMetadataBuilderBase.FillOps Scenario.boxTemplate !! i = Some op ->
     FromIndex op = Z.of_nat i) /\
  (forall pre h post s_pre,
     Scenario.boxLayout = pre ++ h :: post ->
     isGenericSlot (classifyValueHook h) = true ->
     GenericMetadataBuilderBase.superLayout classifyValueHook
       (GenericStructMetadataBuilder.superCall Scenario.IGM64 Scenario.BoxDecl)
       pre (GenericMetadataBuilderBase.reserveHeader
              (GenericMetadataBuilderBase.initial tt)) = Some s_pre ->
     GenericMetadataBuilderBase.FillOps Scenario.boxTemplate
       !! genericSlotCalls classifyValueHook pre
     = Some (mkFillOp (Z.of_nat (genericSlotCalls classifyValueHook pre))
               (GenericMetadataBuilderBase.getNextIndex s_pre))).
Proof.
  exact (fill_ops_one_per_generic_slot Scenario.IGM64 classifyValueHook
           (GenericStructMetadataBuilder.superCall Scenario.IGM64 Scenario.BoxDecl)
           (GenericStructMetadataBuilder.addDependentValueWitnessTablePattern
              Scenario.IGM64 Scenario.BoxDecl)
           Scenario.boxLayout tt Scenario.boxTemplate boxTemplate_built
           ltac:(vm_compute; discriminate)).
Defined.


(** ** Virtual dispatch against the v-table layout *)

Section Dispatch.
Variable IGM : IRGenModule.
Variable explosionLevel : ExplosionKind.
Variable uncurryLevel : Z.

Local Abbreviation find_from := (findOverriddenFunction_from IGM explosionLevel uncurryLevel).
Local Abbreviation walk fn := (overrideEntryWalk IGM fn explosionLevel uncurryLevel).

(** A walk that ends in a new entry never met a compatible ancestor, so
    the search keeps the method it started from. *)
Lemma findOverriddenFunction_from_stays fn :
  forall cur, walk fn cur = Some true -> find_from fn cur = Some fn.
Proof.
  fix IH 1. intros [i c t cl next]. simpl.
  destruct (hasKnownVTableEntry (mkFuncDecl i c t cl next)) as [[|]|]; simpl;
    [|reflexivity|discriminate].
  destruct (isCompatibleOverride IGM fn (mkFuncDecl i c t cl next)
              explosionLevel uncurryLevel) as [[|]|]; simpl;
    [discriminate| |discriminate].
  destruct next as [next|]; [apply IH|reflexivity].
Qed.

(** The search returns the method it holds or an ancestor, from [cur]
    on, that has a v-table entry. *)
Lemma findOverriddenFunction_from_result :
  forall cur method r, find_from method cur = Some r ->
    r = method \/ (r ∈ overrideChainFrom cur /\ hasKnownVTableEntry r = Some true).
Proof.
  fix IH 1. intros [i c t cl next] method r. simpl.
  destruct (hasKnownVTableEntry (mkFuncDecl i c t cl next)) as [[|]|] eqn:Hk; simpl;
    [|intros [= <-]; by left|discriminate].
  destruct (isCompatibleOverride IGM method (mkFuncDecl i c t cl next)
              explosionLevel uncurryLevel) as [[|]|]; simpl; [| |discriminate].
  - destruct next as [next|].
    + intros H. apply IH in H as [->|[Hin Hr]].
      * right. split; [left|exact Hk].
      * right. split; [right; exact Hin|exact Hr].
    + intros [= <-]. right. split; [left|exact Hk].
  - destruct next as [next|].
    + intros H. apply IH in H as [->|[Hin Hr]]; [by left|].
      right. split; [right; exact Hin|exact Hr].
    + intros [= <-]. by left.
Qed.

Lemma findOverriddenFunction_from_moves fn :
  forall cur r, walk fn cur = Some false -> find_from fn cur = Some r ->
    r ∈ overrideChainFrom cur /\ hasKnownVTableEntry r = Some true.
Proof.
  fix IH 1. intros [i c t cl next] r. simpl.
  destruct (hasKnownVTableEntry (mkFuncDecl i c t cl next)) as [[|]|] eqn:Hk; simpl;
    [|discriminate|discriminate].
  destruct (isCompatibleOverride IGM fn (mkFuncDecl i c t cl next)
              explosionLevel uncurryLevel) as [[|]|]; simpl; [| |discriminate].
  - intros _. destruct next as [next|].
    + intros H. apply findOverriddenFunction_from_result in H as [->|[Hin Hr]].
      * split; [left|exact Hk].
      * split; [right; exact Hin|exact Hr].
    + intros [= <-]. split; [left|exact Hk].
  - destruct next as [next|]; [|discriminate].
    intros Hw H. destruct (IH next r Hw H) as [Hin Hr].
    split; [right; exact Hin|exact Hr].
Qed.

(** The method the search holds has passed every ancestor between
    itself and [cur]; the method returned then requires an entry of its
    own, or overrides nothing. *)
Lemma findOverriddenFunction_from_owns :
  forall cur method pre r,
    overrideChain method = pre ++ overrideChainFrom cur ->
    Forall (passed IGM method explosionLevel uncurryLevel) pre ->
    find_from method cur = Some r ->
    getOverriddenDecl r = None \/
    doesMethodRequireOverrideEntry IGM r explosionLevel uncurryLevel = Some true.
Proof.
  fix IH 1. intros [i c t cl next] method pre r Hchain Hpre.
  set (cur := mkFuncDecl i c t cl next) in *.
  assert (Hwalk : forall known post,
    overrideChainFrom cur = cur :: post ->
    hasKnownVTableEntry cur = Some known ->
    (known = true ->
     isCompatibleOverride IGM method cur explosionLevel uncurryLevel = Some true) ->
    doesMethodRequireOverrideEntry IGM method explosionLevel uncurryLevel
      = Some (negb known)).
  { intros known post Hpost Hk Hc.
    unfold doesMethodRequireOverrideEntry. unfold overrideChain in Hchain.
    destruct (getOverriddenDecl method) as [o|]; [|by destruct pre].
    simpl. eapply overrideEntryWalk_decided; [|exact Hpre|exact Hk|exact Hc].
    rewrite Hchain, Hpost. reflexivity. }
  change (find_from method cur) with
    (known ← hasKnownVTableEntry cur;
     if negb known then Some method else
     compatible ← isCompatibleOverride IGM method cur explosionLevel uncurryLevel;
     let method' := if compatible : bool then cur else method in
     match next with
     | Some next => find_from method' next
     | None => Some method'
     end).
  destruct (hasKnownVTableEntry cur) as [[|]|] eqn:Hk; simpl; [| |discriminate].
  2:{ intros [= <-]. right.
      apply (Hwalk false (match next with Some n => overrideChainFrom n | None => [] end));
        [reflexivity|reflexivity|discriminate]. }
  destruct (isCompatibleOverride IGM method cur explosionLevel uncurryLevel)
    as [[|]|] eqn:Hc; simpl; [| |discriminate].
  - destruct next as [next|].
    + intros H. apply (IH next cur [] r); [reflexivity|constructor|exact H].
    + intros [= <-]. left. reflexivity.
  - assert (Hpre' : Forall (passed IGM method explosionLevel uncurryLevel)
                      (pre ++ [cur])).
    { apply Forall_app. split; [exact Hpre|]. repeat constructor; assumption. }
    destruct next as [next|].
    + intros H. apply (IH next method (pre ++ [cur]) r); [|exact Hpre'|exact H].
      rewrite Hchain. simpl. rewrite <- app_assoc. reflexivity.
    + intros [= <-]. right.
      unfold doesMethodRequireOverrideEntry. unfold overrideChain in Hchain.
      destruct (getOverriddenDecl method) as [o|]; [|by destruct pre].
      simpl. apply overrideEntryWalk_exhausted.
      rewrite Hchain. exact Hpre'.
Qed.
End Dispatch.

(** X1: a method that requires a v-table entry of its own is the
    function a virtual call to it goes through: when
    [doesMethodRequireOverrideEntry] answers yes, [findOverriddenFunction]
    returns the method itself. *)
Theorem findOverriddenFunction_keeps_method_with_own_entry IGM fn
    explosionLevel uncurryLevel :
  doesMethodRequireOverrideEntry IGM fn explosionLevel uncurryLevel = Some true ->
  findOverriddenFunction IGM fn explosionLevel uncurryLevel = Some fn.
Proof.
  unfold doesMethodRequireOverrideEntry, findOverriddenFunction.
  destruct (getOverriddenDecl fn) as [o|]; simpl; [|discriminate].
  apply findOverriddenFunction_from_stays.
Qed.

Lemma findOverriddenFunction_keeps_method_with_own_entry_witness :
  findOverriddenFunction Scenario.IGM64 Scenario.Panel_draw Minimal 1
  = Some Scenario.Panel_draw.
Proof.
  apply (findOverriddenFunction_keeps_method_with_own_entry Scenario.IGM64
           Scenario.Panel_draw Minimal 1).
  vm_compute. reflexivity.
Defined.

(** X2: a method that reuses an entry is called through an ancestor:
    when [doesMethodRequireOverrideEntry] answers no, the function
    [findOverriddenFunction] returns is one of the declarations the
    method overrides, and one known to have a v-table entry. *)
Theorem findOverriddenFunction_moves_to_overridden IGM fn explosionLevel
    uncurryLevel r :
  doesMethodRequireOverrideEntry IGM fn explosionLevel uncurryLevel = Some false ->
  findOverriddenFunction IGM fn explosionLevel uncurryLevel = Some r ->
  r ∈ overrideChain fn /\ hasKnownVTableEntry r = Some true.
Proof.
  unfold doesMethodRequireOverrideEntry, findOverriddenFunction, overrideChain.
  destruct (getOverriddenDecl fn) as [o|]; simpl; [|discriminate].
  apply findOverriddenFunction_from_moves.
Qed.

Lemma findOverriddenFunction_moves_to_overridden_witness :
  Scenario.Panel_draw ∈ overrideChain Scenario.Dialog_draw /\
  hasKnownVTableEntry Scenario.Panel_draw = Some true.
Proof.
  apply (findOverriddenFunction_moves_to_overridden Scenario.IGM64
           Scenario.Dialog_draw Minimal 1 Scenario.Panel_draw);
    vm_compute; reflexivity.
Defined.

(** X3: the function [findOverriddenFunction] returns has a v-table
    entry of its own: it overrides nothing, or
    [doesMethodRequireOverrideEntry] answers yes for it. *)
Theorem findOverriddenFunction_result_owns_entry IGM fn explosionLevel
    uncurryLevel r :
  findOverriddenFunction IGM fn explosionLevel uncurryLevel = Some r ->
  getOverriddenDecl r = None \/
  doesMethodRequireOverrideEntry IGM r explosionLevel uncurryLevel = Some true.
Proof.
  unfold findOverriddenFunction.
  destruct (getOverriddenDecl fn) as [o|] eqn:Ho.
  - apply (findOverriddenFunction_from_owns IGM explosionLevel uncurryLevel o fn []).
    + unfold overrideChain. rewrite Ho. reflexivity.
    + constructor.
  - intros [= <-]. left. exact Ho.
Qed.

Lemma findOverriddenFunction_result_owns_entry_witness :
  getOverriddenDecl Scenario.Panel_draw = None \/
  doesMethodRequireOverrideEntry Scenario.IGM64 Scenario.Panel_draw Minimal 1
    = Some true.
Proof.
  apply (findOverriddenFunction_result_owns_entry Scenario.IGM64
           Scenario.Dialog_draw Minimal 1 Scenario.Panel_draw).
  vm_compute. reflexivity.
Defined.


(** ** Metatypes with trivial representation *)

(** Whether a metatype is trivial is decided by the instance type under
    all its metatype levels: it is not when that type is a class, an
    archetype or an existential. *)
Lemma hasTrivialMetatype_innermost :
  forall t,
    hasTrivialMetatype t =
    negb (getClassOrBoundGenericClass (innermostInstanceType t)
          || isa_ArchetypeType (innermostInstanceType t)
          || isExistentialType (innermostInstanceType t)).
Proof.
  fix IH 1. intros t.
  destruct t as [| | | | | |d|d ?| | | | | |instance| | | | | | |];
    try reflexivity.
  - unfold hasTrivialMetatype. simpl.
    unfold HasTrivialMetatype.visitType. simpl.
    destruct (getKind d); reflexivity.
  - unfold hasTrivialMetatype. simpl.
    unfold HasTrivialMetatype.visitType. simpl.
    destruct (getKind d); reflexivity.
  - exact (IH instance).
Qed.

(** X4: [emitMetaTypeRef] adds nothing to the explosion and generates no
    code when the instance type under all the metatype levels of the
    type is neither a class, an archetype nor an existential; otherwise
    it adds exactly one value, the metadata reference of the type. *)
Theorem emitMetaTypeRef_adds_value_unless_trivial IGM emitWitnessTableRefs
    type explosion IGF explosion' IGF' :
  emitMetaTypeRef IGM emitWitnessTableRefs type explosion IGF
    = Some (explosion', IGF') ->
  if getClassOrBoundGenericClass (innermostInstanceType type)
     || isa_ArchetypeType (innermostInstanceType type)
     || isExistentialType (innermostInstanceType type)
  then exists metadata,
         emitTypeMetadataRef IGM emitWitnessTableRefs type IGF
           = Some (metadata, IGF') /\
         explosion' = explosion ++ [metadata]
  else explosion' = explosion /\ IGF' = IGF.
Proof.
  unfold emitMetaTypeRef. rewrite hasTrivialMetatype_innermost.
  destruct (getClassOrBoundGenericClass (innermostInstanceType type)
            || isa_ArchetypeType (innermostInstanceType type)
            || isExistentialType (innermostInstanceType type)); simpl.
  - unfold bind.
    destruct (emitTypeMetadataRef IGM emitWitnessTableRefs type IGF)
      as [[metadata IGF1]|]; [|discriminate].
    unfold ret. intros [= <- <-]. exists metadata. split; reflexivity.
  - unfold ret. intros [= <- <-]. split; reflexivity.
Qed.

Lemma emitMetaTypeRef_adds_value_unless_trivial_witness :
  (exists metadata,
     emitTypeMetadataRef Scenario.IGM64 Scenario.noWitnessTables
       (MetaTypeType (NominalType Scenario.ViewDecl)) Scenario.newSession
     = Some (metadata,
             mkIRGenFunction
               [CreateCall GetObjCClassMetadataFn [Const (AddrOfObjCClass 20)];
                CreateCall GetMetatypeMetadataFn [Inst 0]]
               (fun _ => None) []) /\
     [Inst 1] = [] ++ [metadata]) /\
  ([] = @nil Value /\ Scenario.newSession = Scenario.newSession).
Proof.
  split.
  - apply (emitMetaTypeRef_adds_value_unless_trivial Scenario.IGM64
             Scenario.noWitnessTables
             (MetaTypeType (NominalType Scenario.ViewDecl)) []
             Scenario.newSession). reflexivity.
  - apply (emitMetaTypeRef_adds_value_unless_trivial Scenario.IGM64
             Scenario.noWitnessTables
             (MetaTypeType (MetaTypeType Scenario.IntPair)) []
             Scenario.newSession). reflexivity.
Defined.

(** ** Heap metadata of classes *)

(** X5: for a class that is not generic, [emitClassHeapMetadataRef]
    generates no code and returns the constant
    [tryEmitConstantHeapMetadataRef] gives for the class type: the
    address of the type metadata of a class implemented in Swift, the
    Objective-C class object of an imported one. *)
Theorem emitClassHeapMetadataRef_is_the_constant IGM emitWitnessTableRefs
    (theClass : NominalTypeDecl) IGF :
  getKind theClass = Class ->
  getGenericParamsOfContext theClass = None ->
  exists c,
    tryEmitConstantHeapMetadataRef (NominalType theClass) = Some (Some c) /\
    emitClassHeapMetadataRef IGM emitWitnessTableRefs (NominalType theClass) IGF
      = Some (Const c, IGF) /\
    c = (if hasClangNode theClass
         then AddrOfObjCClass (declId theClass)
         else AddrOfTypeMetadata (NominalType theClass) false false).
Proof.
  intros Hkind Hgen.
  unfold emitClassHeapMetadataRef, tryEmitConstantHeapMetadataRef.
  simpl. unfold emitNominalMetadataRef, hasKnownSwiftMetadata,
    hasKnownSwiftImplementation, isMetadataIndirect, getDeclaredType.
  rewrite Hkind, Hgen. simpl.
  destruct (hasClangNode theClass); simpl; eexists; repeat split.
Qed.

Lemma emitClassHeapMetadataRef_is_the_constant_witness :
  exists c,
    tryEmitConstantHeapMetadataRef (NominalType Scenario.ViewDecl)
      = Some (Some c) /\
    emitClassHeapMetadataRef Scenario.IGM64 Scenario.noWitnessTables
      (NominalType Scenario.ViewDecl) Scenario.newSession
      = Some (Const c, Scenario.newSession) /\
    c = AddrOfObjCClass 20.
Proof.
  apply (emitClassHeapMetadataRef_is_the_constant Scenario.IGM64
           Scenario.noWitnessTables Scenario.ViewDecl Scenario.newSession);
    reflexivity.
Defined.


(** ** The class-metadata builder against the searchers *)

Section ClassBuilderProofs.
Variable IGM : IRGenModule.
Variable TargetClass : ClassDecl.

Local Abbreviation bcall := (ClassMetadataBuilderBase.call IGM TargetClass).
Local Abbreviation blayout := (ClassMetadataBuilderBase.layout IGM TargetClass).
Local Abbreviation FinalOverriders := ClassMetadataBuilderBase.FinalOverriders.
Local Abbreviation WitnessTableOffsets := ClassMetadataBuilderBase.WitnessTableOffsets.

(** A hook appends as many fields as [classFieldCount] says and leaves
    the final overriders alone. *)
Lemma class_call_fields h size s cs s' :
  bcall h size s = Some (cs, s') ->
  Z.of_nat (length cs) = classFieldCount h /\
  FinalOverriders s' = FinalOverriders s.
Proof.
  destruct h as [| | | |forClass| | | |var|fn|a forClass|a p forClass]; simpl;
    try (intros [= <- <-]; split; reflexivity).
  - destruct (ClassMetadataBuilderBase.addReferenceToType
                (getDeclaredTypeOfContext forClass)); simpl;
      [intros [= <- <-]; split; reflexivity|discriminate].
  - destruct (getSuperclass TargetClass) as [[superclass ?]|].
    + destruct (ClassMetadataBuilderBase.addReferenceToType superclass); simpl;
        [intros [= <- <-]; split; reflexivity|discriminate].
    + destruct (negb (ObjCInterop IGM)); intros [= <- <-]; split; reflexivity.
  - unfold ClassMetadataBuilderBase.addMethod.
    destruct (FinalOverriders s !! funcId (getDecl fn)); simpl; [|discriminate].
    intros [= <- <-]. split; [reflexivity|].
    destruct (ClassMetadataBuilderBase.isDeclaredIn (getDecl fn) TargetClass);
      reflexivity.
Qed.

Lemma class_layout_app l1 : forall l2 F s,
  blayout (l1 ++ l2) F s = r ← blayout l1 F s; blayout l2 r.1 r.2.
Proof.
  induction l1 as [|h l1 IH]; intros l2 F s; simpl; [reflexivity|].
  destruct (bcall h (Z.of_nat (length F)) s) as [[cs s1]|]; simpl;
    [apply IH|reflexivity].
Qed.

Lemma class_layout_prefix l : forall F s F' s',
  blayout l F s = Some (F', s') ->
  exists G, F' = F ++ G /\ FinalOverriders s' = FinalOverriders s.
Proof.
  induction l as [|h l IH]; intros F s F' s'; simpl.
  - intros [= <- <-]. exists []. by rewrite app_nil_r.
  - destruct (bcall h (Z.of_nat (length F)) s) as [[cs s1]|] eqn:Hc; simpl;
      [|discriminate].
    intros H. apply IH in H as (G & -> & HFO).
    apply class_call_fields in Hc as [_ HFO1].
    exists (cs ++ G). rewrite app_assoc. split; [reflexivity|congruence].
Qed.

Section Lockstep.
Variable scannerSlots : ClassLayout.Hook -> Z.
Variable overridden : ClassLayout.Hook -> option bool.
(** Every searcher overrides a hook that takes one slot. *)
Hypothesis overridden_one_slot :
  forall h b, overridden h = Some b ->
    classFieldCount h = 1 /\ ClassLayout.isNoteAddressPoint h = false.
Variable FO : gmap positive FuncDecl.

Local Abbreviation slayout :=
  (MetadataSearcher.layout ClassLayout.isNoteAddressPoint scannerSlots overridden).
Local Abbreviation scall :=
  (MetadataSearcher.call ClassLayout.isNoteAddressPoint scannerSlots overridden).

Local Abbreviation fieldAt := (targetFieldAt IGM TargetClass overridden FO).

Lemma targetFieldAt_app F G k : fieldAt F k -> fieldAt (F ++ G) k.
Proof.
  unfold targetFieldAt. intros (h & size & s1 & c & s2 & Hov & Hc & HFO & Hk & HF).
  exists h, size, s1, c, s2. repeat split; try assumption.
  apply lookup_app_l_Some. exact HF.
Qed.

(** The searcher and the builder on the same calls: the next index of
    the one is the number of fields of the other, and the target index,
    once set, is the index of the field of a target call. *)
Lemma class_lockstep l : forall st F s st' F' s',
  (forall h, h ∈ l -> overridden h = None ->
     ClassLayout.isNoteAddressPoint h = false ->
     scannerSlots h = classFieldCount h) ->
  slayout l st = Some st' ->
  blayout l F s = Some (F', s') ->
  Z.of_nat (length F') < 2 ^ 31 ->
  FinalOverriders s = FO ->
  MetadataSearcher.NextIndex st = Z.of_nat (length F) ->
  (MetadataSearcher.TargetIndex st = InvalidIndex \/
   fieldAt F (MetadataSearcher.TargetIndex st)) ->
  MetadataSearcher.NextIndex st' = Z.of_nat (length F') /\
  (MetadataSearcher.TargetIndex st' = InvalidIndex \/
   fieldAt F' (MetadataSearcher.TargetIndex st')).
Proof.
  induction l as [|h l IH]; intros st F s st' F' s' Hslots Hs Hb Hbound HFO Hn Ht;
    simpl in Hs, Hb.
  - injection Hs as <-. injection Hb as <- <-. split; assumption.
  - destruct (scall st h) as [st1|] eqn:Hsc; simpl in Hs; [|discriminate].
    destruct (bcall h (Z.of_nat (length F)) s) as [[cs s1]|] eqn:Hbc;
      simpl in Hb; [|discriminate].
    destruct (class_layout_prefix _ _ _ _ _ Hb) as (G & HF' & _).
    destruct (class_call_fields _ _ _ _ _ Hbc) as [Hlen HFO1].
    assert (Hlen' : Z.of_nat (length (F ++ cs)) <= Z.of_nat (length F')).
    { rewrite HF'. rewrite (length_app (F ++ cs)). lia. }
    rewrite length_app in Hlen'.
    apply (IH st1 (F ++ cs) s1 st' F' s'); try assumption.
    + intros; apply Hslots; [by right|assumption..].
    + congruence.
    + (* next index *)
      rewrite length_app.
      unfold MetadataSearcher.call in Hsc.
      destruct (ClassLayout.isNoteAddressPoint h) eqn:Hnote.
      * injection Hsc as <-. simpl. destruct h; try discriminate Hnote.
        simpl in Hlen. lia.
      * destruct (overridden h) as [b|] eqn:Hov.
        -- destruct (overridden_one_slot _ _ Hov) as [Hone _].
           assert (Hn1 : exists st0, MetadataSearcher.NextIndex st0 = MetadataSearcher.NextIndex st
                                     /\ st1 = MetadataSearcher.advance 1 st0).
           { destruct b; simpl in Hsc.
             - unfold MetadataSearcher.setTargetIndex in Hsc.
               destruct (MetadataSearcher.TargetIndex st =? InvalidIndex);
                 simpl in Hsc; [|discriminate].
               injection Hsc as <-. eexists. split; [|reflexivity]. reflexivity.
             - injection Hsc as <-. eexists. split; reflexivity. }
           destruct Hn1 as (st0 & Hn0 & ->). simpl. rewrite Hn0, Hn.
           rewrite wrap32_small; lia.
        -- injection Hsc as <-. simpl. rewrite Hn.
           rewrite (Hslots h) by (try left; assumption).
           rewrite wrap32_small; [lia|].
           destruct h; simpl in *; lia.
    + (* target index *)
      unfold MetadataSearcher.call in Hsc.
      destruct (ClassLayout.isNoteAddressPoint h) eqn:Hnote.
      * injection Hsc as <-. simpl.
        destruct Ht as [Ht|Ht]; [by left|right; by apply targetFieldAt_app].
      * destruct (overridden h) as [[|]|] eqn:Hov; simpl in Hsc.
        -- unfold MetadataSearcher.setTargetIndex in Hsc.
           destruct (MetadataSearcher.TargetIndex st =? InvalidIndex);
             simpl in Hsc; [|discriminate].
           injection Hsc as <-. simpl. right.
           destruct (overridden_one_slot _ _ Hov) as [Hone _].
           rewrite Hone in Hlen.
           destruct cs as [|c [|? ?]]; simpl in Hlen; try lia.
           exists h, (Z.of_nat (length F)), s, c, s1.
           repeat split; try assumption; [lia|].
           rewrite Hn, Nat2Z.id. rewrite lookup_app_r by lia.
           by rewrite Nat.sub_diag.
        -- injection Hsc as <-. simpl.
           destruct Ht as [Ht|Ht]; [by left|right; by apply targetFieldAt_app].
        -- injection Hsc as <-. simpl.
           destruct Ht as [Ht|Ht]; [by left|right; by apply targetFieldAt_app].
Qed.

(** The index a searcher returns, counted from the number of fields
    the builder has laid out when the address point is noted, is the
    index of the field of a target call. *)
Lemma searcher_finds_builder_field calls index F s' pre ap post s0 :
  (forall h, h ∈ calls -> overridden h = None ->
     ClassLayout.isNoteAddressPoint h = false ->
     scannerSlots h = classFieldCount h) ->
  MetadataSearcher.getTargetIndex ClassLayout.isNoteAddressPoint scannerSlots
    overridden calls = Some index ->
  blayout calls [] s0 = Some (F, s') ->
  Z.of_nat (length F) < 2 ^ 31 ->
  FinalOverriders s0 = FO ->
  calls = pre ++ ap :: post ->
  ClassLayout.isNoteAddressPoint ap = true ->
  (forall x, x ∈ post -> ClassLayout.isNoteAddressPoint x = false) ->
  exists Fpre spre,
    blayout pre [] s0 = Some (Fpre, spre) /\
    fieldAt F (Z.of_nat (length Fpre) + index).
Proof.
  intros Hslots Hget Hb Hbound HFO Hcalls Hap Hpost.
  unfold MetadataSearcher.getTargetIndex in Hget. simpl in Hget.
  destruct (slayout calls MetadataSearcher.initial) as [st'|] eqn:Hs;
    simpl in Hget; [|discriminate].
  destruct (MetadataSearcher.TargetIndex st' =? InvalidIndex) eqn:HT;
    simpl in Hget; [discriminate|].
  destruct (MetadataSearcher.AddressPoint st' =? InvalidIndex) eqn:HA;
    simpl in Hget; [discriminate|].
  injection Hget as <-.
  apply Z.eqb_neq in HT.
  (* the whole run *)
  destruct (class_lockstep calls _ _ _ _ _ _ Hslots Hs Hb Hbound HFO eq_refl
              ltac:(by left)) as [Hn [Ht|Ht]]; [done|].
  (* the run up to the address point *)
  pose proof Hb as Hb'. rewrite Hcalls, class_layout_app in Hb'.
  destruct (blayout pre [] s0) as [[Fpre spre]|] eqn:Hbpre;
    [|discriminate Hb'].
  change (blayout (ap :: post) Fpre spre = Some (F, s')) in Hb'.
  destruct (class_layout_prefix _ _ _ _ _ Hb') as (G & HF & _).
  pose proof Hs as Hs'. rewrite Hcalls, layout_app in Hs'.
  destruct (slayout pre MetadataSearcher.initial) as [st1|] eqn:Hspre;
    simpl in Hs'; [|discriminate].
  assert (Hpre_bound : Z.of_nat (length Fpre) < 2 ^ 31).
  { rewrite HF, length_app in Hbound. lia. }
  destruct (class_lockstep pre _ _ _ _ _ _
              ltac:(intros; apply Hslots; [rewrite Hcalls; apply elem_of_app; by left|assumption..])
              Hspre Hbpre Hpre_bound HFO eq_refl ltac:(by left)) as [Hn1 _].
  unfold MetadataSearcher.call in Hs'. rewrite Hap in Hs'. simpl in Hs'.
  pose proof (layout_no_note _ _ _ post _ _ Hpost Hs') as HA'. simpl in HA'.
  exists Fpre, spre. split; [reflexivity|].
  destruct Ht as (h & size & s1 & c & s2 & Hov & Hc & HFO1 & Hk & HFk).
  assert (Hklt : MetadataSearcher.TargetIndex st' < 2 ^ 31).
  { apply lookup_lt_Some in HFk. lia. }
  rewrite HA', Hn1, !to_int_small by lia.
  replace (Z.of_nat (length Fpre) +
           (MetadataSearcher.TargetIndex st' - Z.of_nat (length Fpre)))
    with (MetadataSearcher.TargetIndex st') by lia.
  exists h, size, s1, c, s2. repeat split; assumption.
Qed.
End Lockstep.
End ClassBuilderProofs.

(** X6: the index [FindClassMethodIndex] computes for a method is,
    counted from the address point, the index of the field in which the
    class-metadata builder has put the function of the method's final
    overrider, at the explosion and uncurry level asked for.  The
    scanner counts, for the hooks the searcher leaves alone, the fields
    the builder appends. *)
Theorem FindClassMethodIndex_finds_final_overrider IGM
    (TargetClass : ClassDecl) (scannerSlots : ClassLayout.Hook -> Z)
    (calls : list ClassLayout.Hook) (fn : FunctionRef) (index : Z)
    (F : list Constant) (s' : ClassMetadataBuilderBase.State)
    (pre post : list ClassLayout.Hook) :
  (forall h, h ∈ calls -> FindClassMethodIndex fn h = None ->
     ClassLayout.isNoteAddressPoint h = false ->
     scannerSlots h = classFieldCount h) ->
  MetadataSearcher.getTargetIndex ClassLayout.isNoteAddressPoint scannerSlots
    (FindClassMethodIndex fn) calls = Some index ->
  ClassMetadataBuilderBase.layout IGM TargetClass calls []
    (ClassMetadataBuilderBase.create TargetClass) = Some (F, s') ->
  Z.of_nat (length F) < 2 ^ 31 ->
  calls = pre ++ ClassLayout.noteAddressPoint :: post ->
  (forall x, x ∈ post -> ClassLayout.isNoteAddressPoint x = false) ->
  exists Fpre spre finalOverrider,
    ClassMetadataBuilderBase.layout IGM TargetClass pre []
      (ClassMetadataBuilderBase.create TargetClass) = Some (Fpre, spre) /\
    ClassMetadataBuilderBase.computeFinalOverriders TargetClass
      !! funcId (getDecl fn) = Some finalOverrider /\
    0 <= Z.of_nat (length Fpre) + index /\
    F !! Z.to_nat (Z.of_nat (length Fpre) + index)
      = Some (AddrOfFunction (mkFunctionRef finalOverrider
                                (getExplosionLevel fn) (getUncurryLevel fn))).
Proof.
  intros Hslots Hget Hb Hbound Hcalls Hpost.
  destruct (searcher_finds_builder_field IGM TargetClass scannerSlots
              (FindClassMethodIndex fn)
              ltac:(intros [] b; simpl; try discriminate; intros _; split; reflexivity)
              (ClassMetadataBuilderBase.computeFinalOverriders TargetClass)
              calls index F s' pre ClassLayout.noteAddressPoint post _
              Hslots Hget Hb Hbound eq_refl Hcalls eq_refl Hpost)
    as (Fpre & spre & Hpre & h & size & s1 & c & s2 & Hov & Hc & HFO & Hk & HFk).
  exists Fpre, spre.
  destruct h; simpl in Hov; try discriminate Hov.
  injection Hov as Heq.
  unfold FunctionRef_eqb in Heq.
  apply andb_prop in Heq as [Heq Hu]. apply andb_prop in Heq as [Hid He].
  apply Pos.eqb_eq in Hid. apply Z.eqb_eq in Hu.
  assert (He' : getExplosionLevel fn = getExplosionLevel fn0)
    by (destruct (getExplosionLevel fn), (getExplosionLevel fn0);
        simpl in He; congruence).
  simpl in Hc. unfold ClassMetadataBuilderBase.addMethod in Hc.
  rewrite HFO, <- Hid in Hc.
  destruct (ClassMetadataBuilderBase.computeFinalOverriders TargetClass
              !! funcId (getDecl fn)) as [fo|]; simpl in Hc; [|discriminate].
  injection Hc as <- _. exists fo.
  rewrite He', Hu. repeat split; assumption.
Qed.

Lemma FindClassMethodIndex_finds_final_overrider_witness :
  exists Fpre spre finalOverrider,
    ClassMetadataBuilderBase.layout Scenario.IGM64 Scenario.SquareClass
      (firstn 5 Scenario.squareLayout) []
      (ClassMetadataBuilderBase.create Scenario.SquareClass) = Some (Fpre, spre) /\
    ClassMetadataBuilderBase.computeFinalOverriders Scenario.SquareClass
      !! 300%positive = Some finalOverrider /\
    0 <= Z.of_nat (length Fpre) + 1 /\
    Cases.squareMetadata !! Z.to_nat (Z.of_nat (length Fpre) + 1)
      = Some (AddrOfFunction (mkFunctionRef finalOverrider Minimal 1)).
Proof.
  apply (FindClassMethodIndex_finds_final_overrider Scenario.IGM64
           Scenario.SquareClass Scenario.oneSlot Scenario.squareLayout
           (mkFunctionRef Scenario.Shape_area Minimal 1) 1
           Cases.squareMetadata
           (default ([], ClassMetadataBuilderBase.create Scenario.SquareClass)
              (ClassMetadataBuilderBase.layout Scenario.IGM64
                 Scenario.SquareClass Scenario.squareLayout []
                 (ClassMetadataBuilderBase.create Scenario.SquareClass))).2
           (firstn 5 Scenario.squareLayout) (skipn 6 Scenario.squareLayout)).
  - refine (proj1 (Forall_forall _ _) _). repeat constructor; intros; try reflexivity; discriminate.
  - reflexivity.
  - vm_compute. reflexivity.
  - vm_compute. reflexivity.
  - reflexivity.
  - apply Forall_forall. repeat constructor.
Defined.

(** X7: the index [FindClassParentIndex] computes for a class, the one
    [emitParentMetadataRef] loads from, is, counted from the address
    point, the index of the field in which the class-metadata builder
    has put the reference to the type the class is declared in. *)
Theorem FindClassParentIndex_finds_parent_reference IGM
    (TargetClass : ClassDecl) (scannerSlots : ClassLayout.Hook -> Z)
    (calls : list ClassLayout.Hook) (index : Z)
    (F : list Constant) (s' : ClassMetadataBuilderBase.State)
    (pre post : list ClassLayout.Hook) :
  (forall h, h ∈ calls ->
     FindClassParentIndex (classId TargetClass) h = None ->
     ClassLayout.isNoteAddressPoint h = false ->
     scannerSlots h = classFieldCount h) ->
  MetadataSearcher.getTargetIndex ClassLayout.isNoteAddressPoint scannerSlots
    (FindClassParentIndex (classId TargetClass)) calls = Some index ->
  ClassMetadataBuilderBase.layout IGM TargetClass calls []
    (ClassMetadataBuilderBase.create TargetClass) = Some (F, s') ->
  Z.of_nat (length F) < 2 ^ 31 ->
  calls = pre ++ ClassLayout.noteAddressPoint :: post ->
  (forall x, x ∈ post -> ClassLayout.isNoteAddressPoint x = false) ->
  exists Fpre spre forClass reference,
    ClassMetadataBuilderBase.layout IGM TargetClass pre []
      (ClassMetadataBuilderBase.create TargetClass) = Some (Fpre, spre) /\
    classId forClass = classId TargetClass /\
    ClassMetadataBuilderBase.addReferenceToType
      (getDeclaredTypeOfContext forClass) = Some reference /\
    0 <= Z.of_nat (length Fpre) + index /\
    F !! Z.to_nat (Z.of_nat (length Fpre) + index) = Some reference.
Proof.
  intros Hslots Hget Hb Hbound Hcalls Hpost.
  destruct (searcher_finds_builder_field IGM TargetClass scannerSlots
              (FindClassParentIndex (classId TargetClass))
              ltac:(intros [] b; simpl; try discriminate; intros _; split; reflexivity)
              (ClassMetadataBuilderBase.computeFinalOverriders TargetClass)
              calls index F s' pre ClassLayout.noteAddressPoint post _
              Hslots Hget Hb Hbound eq_refl Hcalls eq_refl Hpost)
    as (Fpre & spre & Hpre & h & size & s1 & c & s2 & Hov & Hc & HFO & Hk & HFk).
  exists Fpre, spre.
  destruct h; simpl in Hov; try discriminate Hov.
  injection Hov as Heq. apply Pos.eqb_eq in Heq.
  simpl in Hc.
  destruct (ClassMetadataBuilderBase.addReferenceToType
              (getDeclaredTypeOfContext forClass)) as [reference|] eqn:Href;
    simpl in Hc; [|discriminate].
  injection Hc as <- _. exists forClass, reference.
  repeat split; assumption.
Qed.

Lemma FindClassParentIndex_finds_parent_reference_witness :
  exists Fpre spre forClass reference,
    ClassMetadataBuilderBase.layout Scenario.IGM64 Scenario.SquareClass
      (firstn 5 Scenario.squareLayout) []
      (ClassMetadataBuilderBase.create Scenario.SquareClass) = Some (Fpre, spre) /\
    classId forClass = classId Scenario.SquareClass /\
    ClassMetadataBuilderBase.addReferenceToType
      (getDeclaredTypeOfContext forClass) = Some reference /\
    0 <= Z.of_nat (length Fpre) + -2 /\
    Cases.squareMetadata !! Z.to_nat (Z.of_nat (length Fpre) + -2)
      = Some reference.
Proof.
  apply (FindClassParentIndex_finds_parent_reference Scenario.IGM64
           Scenario.SquareClass Scenario.oneSlot Scenario.squareLayout (-2)
           Cases.squareMetadata
           (default ([], ClassMetadataBuilderBase.create Scenario.SquareClass)
              (ClassMetadataBuilderBase.layout Scenario.IGM64
                 Scenario.SquareClass Scenario.squareLayout []
                 (ClassMetadataBuilderBase.create Scenario.SquareClass))).2
           (firstn 5 Scenario.squareLayout) (skipn 6 Scenario.squareLayout)).
  - refine (proj1 (Forall_forall _ _) _). repeat constructor; intros; try reflexivity; discriminate.
  - reflexivity.
  - vm_compute. reflexivity.
  - vm_compute. reflexivity.
  - reflexivity.
  - apply Forall_forall. repeat constructor.
Defined.


(** ** Witness-table offsets *)

Section WitnessTableOffsetProofs.
Variable IGM : IRGenModule.
Variable TargetClass : ClassDecl.

Local Abbreviation bcall := (ClassMetadataBuilderBase.call IGM TargetClass).
Local Abbreviation blayout := (ClassMetadataBuilderBase.layout IGM TargetClass).
Local Abbreviation FinalOverriders := ClassMetadataBuilderBase.FinalOverriders.
Local Abbreviation WitnessTableOffsets := ClassMetadataBuilderBase.WitnessTableOffsets.

(** A hook other than [addMethod] records no offset; [addMethod]
    records one, for a method declared in the target class only. *)
Lemma class_call_offsets h size s cs s' :
  bcall h size s = Some (cs, s') ->
  WitnessTableOffsets s' = WitnessTableOffsets s \/
  exists fn fo,
    h = ClassLayout.addMethod fn /\
    ClassMetadataBuilderBase.isDeclaredIn (getDecl fn) TargetClass = true /\
    FinalOverriders s !! funcId (getDecl fn) = Some fo /\
    cs = [AddrOfFunction (mkFunctionRef fo (getExplosionLevel fn)
                            (getUncurryLevel fn))] /\
    WitnessTableOffsets s' = WitnessTableOffsets s ++
      [(fn, ConstantInt_get IGM SizeTy (size * getPointerSize IGM))].
Proof.
  destruct h as [| | | |forClass| | | |var|fn|a forClass|a p forClass]; simpl;
    try (intros [= <- <-]; left; reflexivity).
  - destruct (ClassMetadataBuilderBase.addReferenceToType
                (getDeclaredTypeOfContext forClass)); simpl;
      [intros [= <- <-]; left; reflexivity|discriminate].
  - destruct (getSuperclass TargetClass) as [[superclass ?]|].
    + destruct (ClassMetadataBuilderBase.addReferenceToType superclass); simpl;
        [intros [= <- <-]; left; reflexivity|discriminate].
    + destruct (negb (ObjCInterop IGM)); intros [= <- <-]; left; reflexivity.
  - unfold ClassMetadataBuilderBase.addMethod.
    destruct (FinalOverriders s !! funcId (getDecl fn)) as [fo|] eqn:Hfo; simpl;
      [|discriminate].
    destruct (ClassMetadataBuilderBase.isDeclaredIn (getDecl fn) TargetClass)
      eqn:Hin; intros [= <- <-]; [right|left; reflexivity].
    exists fn, fo. repeat split; try assumption; reflexivity.
Qed.

(** The offsets recorded during a layout, against the fields laid out. *)
Lemma class_layout_offsets l : forall F s F' s',
  blayout l F s = Some (F', s') ->
  (forall fn c, (fn, c) ∈ WitnessTableOffsets s' ->
     (fn, c) ∈ WitnessTableOffsets s \/
     ClassMetadataBuilderBase.isDeclaredIn (getDecl fn) TargetClass = true /\
     exists (k : nat) fo,
       (length F <= k)%nat /\
       c = ConstantInt_get IGM SizeTy (Z.of_nat k * getPointerSize IGM) /\
       FinalOverriders s !! funcId (getDecl fn) = Some fo /\
       F' !! k = Some (AddrOfFunction (mkFunctionRef fo (getExplosionLevel fn)
                                         (getUncurryLevel fn)))) /\
  (forall fn, ClassLayout.addMethod fn ∈ l ->
     ClassMetadataBuilderBase.isDeclaredIn (getDecl fn) TargetClass = true ->
     exists c, (fn, c) ∈ WitnessTableOffsets s') /\
  (forall x, x ∈ WitnessTableOffsets s -> x ∈ WitnessTableOffsets s').
Proof.
  induction l as [|h l IH]; intros F s F' s'; simpl.
  - intros [= <- <-]. split; [|split].
    + intros fn c Hin. by left.
    + intros fn Hin. by apply elem_of_nil in Hin.
    + auto.
  - destruct (bcall h (Z.of_nat (length F)) s) as [[cs s1]|] eqn:Hc; simpl;
      [|discriminate].
    intros Hl. destruct (IH _ _ _ _ Hl) as (Hsound & Hcomplete & Hmono).
    destruct (class_layout_prefix _ _ _ _ _ _ _ Hl) as (G & HF' & _).
    destruct (class_call_fields _ _ _ _ _ _ _ Hc) as [_ HFO].
    destruct (class_call_offsets _ _ _ _ _ Hc)
      as [Hsame|(fn0 & fo0 & -> & Hdecl & Hfo & -> & Hoff)].
    + split; [|split].
      * intros fn c Hin. destruct (Hsound fn c Hin) as [Hold|(Hd & k & fo & Hk & Hc' & Hf & Hlk)].
        -- left. by rewrite <- Hsame.
        -- right. split; [exact Hd|]. exists k, fo.
           rewrite length_app in Hk. rewrite HFO in Hf.
           repeat split; try assumption. lia.
      * intros fn Hin Hd. apply elem_of_cons in Hin as [<-|Hin].
        -- (* the call records nothing, so it is not for a method of the class *)
           simpl in Hc. unfold ClassMetadataBuilderBase.addMethod in Hc.
           destruct (FinalOverriders s !! funcId (getDecl fn)); simpl in Hc;
             [|discriminate].
           rewrite Hd in Hc. injection Hc as _ <-. simpl in Hsame.
           exfalso. apply (f_equal length) in Hsame.
           rewrite length_app in Hsame. simpl in Hsame. lia.
        -- by apply Hcomplete.
      * intros x Hx. apply Hmono. by rewrite Hsame.
    + split; [|split].
      * intros fn c Hin. destruct (Hsound fn c Hin) as [Hold|(Hd & k & fo & Hk & Hc' & Hf & Hlk)].
        -- rewrite Hoff in Hold. apply elem_of_app in Hold as [Hold|Hnew]; [by left|].
           apply list_elem_of_singleton in Hnew. injection Hnew as -> ->.
           right. split; [exact Hdecl|]. exists (length F), fo0.
           repeat split; try assumption; [lia|].
           rewrite HF'. rewrite <- app_assoc. rewrite lookup_app_r by lia.
           by rewrite Nat.sub_diag.
        -- right. split; [exact Hd|]. exists k, fo.
           rewrite length_app in Hk. rewrite HFO in Hf.
           repeat split; try assumption. lia.
      * intros fn Hin Hd. apply elem_of_cons in Hin as [Heq|Hin].
        -- injection Heq as ->. exists (ConstantInt_get IGM SizeTy
                       (Z.of_nat (length F) * getPointerSize IGM)).
           apply Hmono. rewrite Hoff. apply elem_of_app. right. by left.
        -- by apply Hcomplete.
      * intros x Hx. apply Hmono. rewrite Hoff. apply elem_of_app. by left.
Qed.
End WitnessTableOffsetProofs.

(** X8: after the layout of a class's metadata, the witness-table
    offset variables that got an initialiser are those of the methods
    declared in the target class that the layout adds; the offset of
    each is the pointer size times the index of a field, and that field
    holds the function of the method's final overrider. *)
Theorem witness_table_offset_is_offset_of_method_field IGM
    (TargetClass : ClassDecl) (calls : list ClassLayout.Hook)
    (F : list Constant) (s' : ClassMetadataBuilderBase.State) :
  ClassMetadataBuilderBase.layout IGM TargetClass calls []
    (ClassMetadataBuilderBase.create TargetClass) = Some (F, s') ->
  (forall fn c, (fn, c) ∈ ClassMetadataBuilderBase.WitnessTableOffsets s' ->
     ClassMetadataBuilderBase.isDeclaredIn (getDecl fn) TargetClass = true /\
     exists (k : nat) finalOverrider,
       c = ConstantInt_get IGM SizeTy (Z.of_nat k * getPointerSize IGM) /\
       ClassMetadataBuilderBase.computeFinalOverriders TargetClass
         !! funcId (getDecl fn) = Some finalOverrider /\
       F !! k = Some (AddrOfFunction (mkFunctionRef finalOverrider
                                        (getExplosionLevel fn)
                                        (getUncurryLevel fn)))) /\
  (forall fn, ClassLayout.addMethod fn ∈ calls ->
     ClassMetadataBuilderBase.isDeclaredIn (getDecl fn) TargetClass = true ->
     exists c, (fn, c) ∈ ClassMetadataBuilderBase.WitnessTableOffsets s').
Proof.
  intros Hl.
  destruct (class_layout_offsets IGM TargetClass _ _ _ _ _ Hl)
    as (Hsound & Hcomplete & _).
  split; [|exact Hcomplete].
  intros fn c Hin.
  destruct (Hsound fn c Hin) as [Hold|(Hd & k & fo & _ & Hc & Hf & Hlk)].
  - by apply elem_of_nil in Hold.
  - split; [exact Hd|]. exists k, fo. repeat split; assumption.
Qed.

Lemma witness_table_offset_is_offset_of_method_field_witness :
  (forall fn c, (fn, c) ∈ Cases.squareOffsets ->
     ClassMetadataBuilderBase.isDeclaredIn (getDecl fn) Scenario.SquareClass
       = true /\
     exists (k : nat) finalOverrider,
       c = ConstantInt_get Scenario.IGM64 SizeTy
             (Z.of_nat k * getPointerSize Scenario.IGM64) /\
       ClassMetadataBuilderBase.computeFinalOverriders Scenario.SquareClass
         !! funcId (getDecl fn) = Some finalOverrider /\
       Cases.squareMetadata !! k
         = Some (AddrOfFunction (mkFunctionRef finalOverrider
                                   (getExplosionLevel fn)
                                   (getUncurryLevel fn)))) /\
  (forall fn, ClassLayout.addMethod fn ∈ Scenario.squareLayout ->
     ClassMetadataBuilderBase.isDeclaredIn (getDecl fn) Scenario.SquareClass
       = true ->
     exists c, (fn, c) ∈ Cases.squareOffsets).
Proof.
  apply (witness_table_offset_is_offset_of_method_field Scenario.IGM64
           Scenario.SquareClass Scenario.squareLayout Cases.squareMetadata
           (ClassMetadataBuilderBase.mkState
              (ClassMetadataBuilderBase.computeFinalOverriders Scenario.SquareClass)
              Cases.squareOffsets)).
  vm_compute. reflexivity.
Defined.


(** ** The template of a generic class against the plain layout *)

Section GenericClassProofs.
Import GenericMetadataBuilderBase.
Variable IGM : IRGenModule.
Variable TargetClass : ClassDecl.

Local Abbreviation bcall := (ClassMetadataBuilderBase.call IGM TargetClass).
Local Abbreviation blayout := (ClassMetadataBuilderBase.layout IGM TargetClass).
Local Abbreviation gcall :=
  (GenericMetadataBuilderBase.call classifyClassHook
     (GenericClassMetadataBuilder.superCall IGM TargetClass)).
Local Abbreviation glayout :=
  (GenericMetadataBuilderBase.superLayout classifyClassHook
     (GenericClassMetadataBuilder.superCall IGM TargetClass)).
Local Abbreviation header := (repeat (@None Constant) 5).

(** The builder's state under the adapter against its state without. *)
Local Abbreviation sameButShifted b b' :=
  (ClassMetadataBuilderBase.FinalOverriders b
     = ClassMetadataBuilderBase.FinalOverriders b' /\
   Forall2 (shiftedByHeader IGM)
     (ClassMetadataBuilderBase.WitnessTableOffsets b)
     (ClassMetadataBuilderBase.WitnessTableOffsets b')).

(** A hook appends the same fields whether or not the header comes
    first; only the offsets it records move. *)
Lemma class_call_shift h size b b' cs b1 :
  sameButShifted b b' ->
  bcall h (size + TemplateHeaderFieldCount) b = Some (cs, b1) ->
  exists b1', bcall h size b' = Some (cs, b1') /\ sameButShifted b1 b1'.
Proof.
  intros [HFO Hoff].
  destruct h as [| | | |forClass| | | |var|fn|a forClass|a p forClass]; simpl;
    try (intros [= <- <-]; exists b'; split; [reflexivity|split; assumption]).
  - destruct (ClassMetadataBuilderBase.addReferenceToType
                (getDeclaredTypeOfContext forClass)); simpl; [|discriminate].
    intros [= <- <-]. exists b'. split; [reflexivity|split; assumption].
  - destruct (getSuperclass TargetClass) as [[superclass ?]|].
    + destruct (ClassMetadataBuilderBase.addReferenceToType superclass); simpl;
        [|discriminate].
      intros [= <- <-]. exists b'. split; [reflexivity|split; assumption].
    + destruct (negb (ObjCInterop IGM)); intros [= <- <-]; exists b';
        (split; [reflexivity|split; assumption]).
  - unfold ClassMetadataBuilderBase.addMethod. rewrite <- HFO.
    destruct (ClassMetadataBuilderBase.FinalOverriders b !! funcId (getDecl fn))
      as [fo|]; simpl; [|discriminate].
    intros [= <- <-]. eexists. split; [reflexivity|].
    destruct (ClassMetadataBuilderBase.isDeclaredIn (getDecl fn) TargetClass);
      [|split; assumption].
    split; [reflexivity|]. simpl.
    apply Forall2_app; [exact Hoff|]. constructor; [|constructor].
    split; [reflexivity|]. exists size. split; reflexivity.
Qed.

Lemma generic_class_lockstep l : forall (s s1 : State ClassMetadataBuilderBase.State) F b',
  Fields s = header ++ map Some F ->
  sameButShifted (base s) b' ->
  glayout l s = Some s1 ->
  exists F1 b1',
    blayout l F b' = Some (F1, b1') /\
    Fields s1 = header ++ map Some F1 /\
    sameButShifted (base s1) b1' /\
    HasDependentVWT s1 = HasDependentVWT s.
Proof.
  induction l as [|h l IH]; intros s s1 F b' HF Hrel; simpl.
  - intros [= <-]. exists F, b'. repeat split; try assumption; apply Hrel.
  - destruct (gcall h s) as [s2|] eqn:Hc; simpl; [|discriminate].
    intros Hl.
    assert (Hstep : exists cs b2 b2',
      bcall h (Z.of_nat (length F)) b' = Some (cs, b2') /\
      Fields s2 = header ++ map Some (F ++ cs) /\
      base s2 = b2 /\ sameButShifted b2 b2' /\
      HasDependentVWT s2 = HasDependentVWT s).
    { unfold GenericMetadataBuilderBase.call in Hc.
      assert (Hsuper : forall t : State ClassMetadataBuilderBase.State,
        Fields t = Fields s -> base t = base s ->
        HasDependentVWT t = HasDependentVWT s ->
        callSuper (GenericClassMetadataBuilder.superCall IGM TargetClass) h t
          = Some s2 ->
        exists cs b2 b2',
          bcall h (Z.of_nat (length F)) b' = Some (cs, b2') /\
          Fields s2 = header ++ map Some (F ++ cs) /\
          base s2 = b2 /\ sameButShifted b2 b2' /\
          HasDependentVWT s2 = HasDependentVWT s).
      { intros t HtF Htb Htd. unfold callSuper, GenericClassMetadataBuilder.superCall.
        rewrite HtF, Htb, Htd, HF, length_app, length_fmap, repeat_length.
        replace (Z.of_nat (5 + length F)) with
          (Z.of_nat (length F) + TemplateHeaderFieldCount)
          by (unfold TemplateHeaderFieldCount; lia).
        destruct (bcall h (Z.of_nat (length F) + TemplateHeaderFieldCount) (base s))
          as [[cs b2]|] eqn:Hb; simpl; [|discriminate].
        intros [= <-]. simpl.
        destruct (class_call_shift _ _ _ _ _ _ Hrel Hb) as (b2' & Hb' & Hrel').
        exists cs, b2, b2'.
        split; [exact Hb'|].
        split; [simpl; rewrite ?map_app, <- ?app_assoc; reflexivity|].
        split; [reflexivity|]. split; [exact Hrel'|reflexivity]. }
      destruct (classifyClassHook h);
        unfold GenericMetadataBuilderBase.noteAddressPoint, addGenericSlot in Hc;
        eapply Hsuper; try exact Hc; reflexivity. }
    destruct Hstep as (cs & b2 & b2' & Hb & HF2 & Hb2 & Hrel2 & Hdep2).
    rewrite Hb. simpl. subst b2.
    destruct (IH s2 s1 (F ++ cs) b2' HF2 Hrel2 Hl) as (F1 & b1' & Hl1 & HF1 & Hrel1 & Hdep1).
    exists F1, b1'. repeat split; try assumption; try apply Hrel1. congruence.
Qed.
End GenericClassProofs.

(** X9: the fields of the template of a generic class that come after
    the five header fields are, field for field, the metadata the
    class-metadata builder lays out without the adapter, with the same
    final overriders; the initialiser of each witness-table offset
    variable is larger than without the adapter by five times the
    pointer size, the index it is computed from counting the five header
    fields. *)
Theorem generic_class_template_body_is_plain_layout IGM
    (TargetClass : ClassDecl) (calls : list ClassLayout.Hook)
    (s : GenericMetadataBuilderBase.State ClassMetadataBuilderBase.State) :
  GenericClassMetadataBuilder.layout IGM TargetClass calls = Some s ->
  exists F s',
    ClassMetadataBuilderBase.layout IGM TargetClass calls []
      (ClassMetadataBuilderBase.create TargetClass) = Some (F, s') /\
    drop (Z.to_nat GenericMetadataBuilderBase.TemplateHeaderFieldCount)
      (GenericMetadataBuilderBase.Fields s) = map Some F /\
    ClassMetadataBuilderBase.FinalOverriders (GenericMetadataBuilderBase.base s)
      = ClassMetadataBuilderBase.FinalOverriders s' /\
    Forall2 (shiftedByHeader IGM)
      (ClassMetadataBuilderBase.WitnessTableOffsets
         (GenericMetadataBuilderBase.base s))
      (ClassMetadataBuilderBase.WitnessTableOffsets s').
Proof.
  unfold GenericClassMetadataBuilder.layout, GenericMetadataBuilderBase.layout.
  destruct (GenericMetadataBuilderBase.superLayout _ _ calls _) as [s1|] eqn:Hs1;
    simpl; [|discriminate].
  destruct (generic_class_lockstep IGM TargetClass calls
              (GenericMetadataBuilderBase.reserveHeader
                 (GenericMetadataBuilderBase.initial
                    (ClassMetadataBuilderBase.create TargetClass))) s1 []
              (ClassMetadataBuilderBase.create TargetClass) eq_refl
              ltac:(split; [reflexivity|constructor]) Hs1)
    as (F & s' & Hl & HF & [HFO Hoff] & Hdep).
  simpl in Hdep. rewrite Hdep. simpl.
  unfold GenericMetadataBuilderBase.emitFillFunction. rewrite Hdep. simpl.
  match goal with |- context [llvm_assert ?b] => destruct b end; simpl;
    [|discriminate].
  intros [= <-]. exists F, s'. simpl. rewrite HF. simpl.
  repeat split; assumption.
Qed.

Lemma generic_class_template_body_is_plain_layout_witness :
  exists F s',
    ClassMetadataBuilderBase.layout Scenario.IGM64 Cases.StackClass
      Cases.stackLayout [] (ClassMetadataBuilderBase.create Cases.StackClass)
      = Some (F, s') /\
    drop (Z.to_nat GenericMetadataBuilderBase.TemplateHeaderFieldCount)
      (GenericMetadataBuilderBase.Fields Cases.stackTemplate) = map Some F /\
    ClassMetadataBuilderBase.FinalOverriders
      (GenericMetadataBuilderBase.base Cases.stackTemplate)
      = ClassMetadataBuilderBase.FinalOverriders s' /\
    Forall2 (shiftedByHeader Scenario.IGM64)
      (ClassMetadataBuilderBase.WitnessTableOffsets
         (GenericMetadataBuilderBase.base Cases.stackTemplate))
      (ClassMetadataBuilderBase.WitnessTableOffsets s').
Proof.
  apply (generic_class_template_body_is_plain_layout Scenario.IGM64
           Cases.StackClass Cases.stackLayout Cases.stackTemplate).
  vm_compute. reflexivity.
Defined.

(** The offset of [Stack.push] in the template and in the plain
    layout. *)
Example Stack_push_offset_counts_the_header :
  ClassMetadataBuilderBase.WitnessTableOffsets
    (GenericMetadataBuilderBase.base Cases.stackTemplate)
  = [(mkFunctionRef Cases.Stack_push Minimal 1, ConstantInt SizeTy 80)] /\
  (ClassMetadataBuilderBase.WitnessTableOffsets <$>
   (snd <$> ClassMetadataBuilderBase.layout Scenario.IGM64 Cases.StackClass
              Cases.stackLayout []
              (ClassMetadataBuilderBase.create Cases.StackClass)))
  = Some [(mkFunctionRef Cases.Stack_push Minimal 1, ConstantInt SizeTy 40)].
Proof. split; vm_compute; reflexivity. Qed.


(** ** The template of a generic value type against the searchers *)

Section ValueTemplateProofs.
Import GenericMetadataBuilderBase.
Variable IGM : IRGenModule.
Variable superCall :
  ValueLayout.Hook -> Z -> unit -> option (list Constant * unit * option bool).
(** What the struct and the enum builder have in common: a hook appends
    one field, the note of the address point none, and the field of a
    generic argument is a null metadata pointer. *)
Hypothesis superCall_fields : forall h size b new b' dep,
  superCall h size b = Some (new, b', dep) ->
  length new = (if ValueLayout.isNoteAddressPoint h then 0 else 1)%nat /\
  forall a, h = ValueLayout.addGenericArgument a ->
    new = [ConstantPointerNull TypeMetadataPtrTy].
Variable scannerSlots : ValueLayout.Hook -> Z.
Variable TargetArchetype : positive.

Local Abbreviation overridden := (FindValueTypeArgumentIndex TargetArchetype).
Local Abbreviation slayout :=
  (MetadataSearcher.layout ValueLayout.isNoteAddressPoint scannerSlots overridden).
Local Abbreviation scall :=
  (MetadataSearcher.call ValueLayout.isNoteAddressPoint scannerSlots overridden).
Local Abbreviation gcall :=
  (GenericMetadataBuilderBase.call classifyValueHook superCall).
Local Abbreviation glayout :=
  (GenericMetadataBuilderBase.superLayout classifyValueHook superCall).

(** The slot at index [k] of the template data is the destination of a
    fill operation and holds the placeholder of a generic argument. *)
Local Abbreviation filledAt s k :=
  (0 <= k%Z /\
   exists op, op ∈ FillOps s /\ ToIndex op = k%Z /\
     Fields s !! Z.to_nat (TemplateHeaderFieldCount + k)
       = Some (Some (ConstantPointerNull TypeMetadataPtrTy))).

Lemma getNextIndex_fields (s : State unit) :
  5 <= Z.of_nat (length (Fields s)) < 2 ^ 31 ->
  getNextIndex s = Z.of_nat (length (Fields s)) - 5.
Proof.
  intros H. unfold getNextIndex, TemplateHeaderFieldCount.
  rewrite (wrap32_small (Z.of_nat _)) by lia.
  rewrite wrap32_small by lia. reflexivity.
Qed.

(** What one hook call does to the builder. *)
Lemma value_call_step h (s s1 : State unit) :
  gcall h s = Some s1 ->
  exists new,
    length new = (if ValueLayout.isNoteAddressPoint h then 0 else 1)%nat /\
    (forall a, h = ValueLayout.addGenericArgument a ->
       new = [ConstantPointerNull TypeMetadataPtrTy]) /\
    Fields s1 = Fields s ++ map Some new /\
    AddressPoint s1 = (if ValueLayout.isNoteAddressPoint h
                       then getNextIndex s else AddressPoint s) /\
    FillOps s1 = (if isGenericSlot (classifyValueHook h)
                  then FillOps s ++ [mkFillOp (NumGenericWitnesses s) (getNextIndex s)]
                  else FillOps s).
Proof.
  unfold GenericMetadataBuilderBase.call.
  assert (Hsuper : forall t : State unit,
    Fields t = Fields s ->
    callSuper superCall h t = Some s1 ->
    exists new,
      length new = (if ValueLayout.isNoteAddressPoint h then 0 else 1)%nat /\
      (forall a, h = ValueLayout.addGenericArgument a ->
         new = [ConstantPointerNull TypeMetadataPtrTy]) /\
      Fields s1 = Fields s ++ map Some new /\
      AddressPoint s1 = AddressPoint t /\ FillOps s1 = FillOps t).
  { intros t Ht. unfold callSuper.
    destruct (superCall h (Z.of_nat (length (Fields t))) (base t))
      as [[[new b'] dep]|] eqn:Hsc; simpl; [|discriminate].
    intros [= <-]. simpl. exists new.
    destruct (superCall_fields _ _ _ _ _ _ Hsc) as [Hlen Harg].
    rewrite Ht. repeat split; assumption. }
  destruct h; simpl;
    unfold GenericMetadataBuilderBase.noteAddressPoint, addGenericSlot;
    intros Hc; apply Hsuper in Hc; try reflexivity; exact Hc.
Qed.

Lemma value_lockstep l : forall st (s : State unit) st' s',
  (forall h, h ∈ l -> overridden h = None ->
     ValueLayout.isNoteAddressPoint h = false -> scannerSlots h = 1) ->
  slayout l st = Some st' ->
  glayout l s = Some s' ->
  Z.of_nat (length (Fields s')) < 2 ^ 31 ->
  5 <= Z.of_nat (length (Fields s)) ->
  MetadataSearcher.NextIndex st = Z.of_nat (length (Fields s)) - 5 ->
  (MetadataSearcher.TargetIndex st = InvalidIndex \/
   filledAt s (MetadataSearcher.TargetIndex st)) ->
  (MetadataSearcher.AddressPoint st = InvalidIndex \/
   (MetadataSearcher.AddressPoint st = AddressPoint s /\
    0 <= AddressPoint s <= Z.of_nat (length (Fields s)) - 5)) ->
  (MetadataSearcher.TargetIndex st' = InvalidIndex \/
   filledAt s' (MetadataSearcher.TargetIndex st')) /\
  (MetadataSearcher.AddressPoint st' = InvalidIndex \/
   (MetadataSearcher.AddressPoint st' = AddressPoint s' /\
    0 <= AddressPoint s' <= Z.of_nat (length (Fields s')) - 5)).
Proof.
  induction l as [|h l IH];
    intros st s st' s' Hslots Hs Hg Hbound Hfive Hn Ht Ha; simpl in Hs, Hg.
  - injection Hs as <-. injection Hg as <-. split; assumption.
  - destruct (scall st h) as [st1|] eqn:Hsc; simpl in Hs; [|discriminate].
    destruct (gcall h s) as [s1|] eqn:Hgc; simpl in Hg; [|discriminate].
    destruct (value_call_step _ _ _ Hgc) as (new & Hlen & Harg & HF & HA & HO).
    destruct (superLayout_inv _ _ _ _ _ Hg) as ((rest & Hrest) & _).
    assert (Hlen1 : Z.of_nat (length (Fields s1)) <= Z.of_nat (length (Fields s'))).
    { rewrite Hrest, length_app. lia. }
    assert (Hlen0 : Z.of_nat (length (Fields s1))
                    = Z.of_nat (length (Fields s)) + Z.of_nat (length new)).
    { rewrite HF, length_app, length_fmap. lia. }
    assert (Hnext : getNextIndex s = Z.of_nat (length (Fields s)) - 5)
      by (apply getNextIndex_fields; lia).
    assert (Hkeep : forall k, filledAt s k -> filledAt s1 k).
    { intros k (Hk & op & Hop & Hto & Hlk). split; [exact Hk|].
      exists op. split; [|split; [exact Hto|]].
      - rewrite HO. destruct (isGenericSlot (classifyValueHook h));
          [apply elem_of_app; by left|exact Hop].
      - rewrite HF. apply lookup_app_l_Some. exact Hlk. }
    apply (IH st1 s1 st' s'); try assumption.
    + intros; apply Hslots; [by right|assumption..].
    + lia.
    + (* next index *)
      rewrite Hlen0, Hlen.
      unfold MetadataSearcher.call in Hsc.
      destruct (ValueLayout.isNoteAddressPoint h) eqn:Hnote.
      * injection Hsc as <-. simpl. lia.
      * assert (Hadv : MetadataSearcher.NextIndex st1
                       = wrap32 (MetadataSearcher.NextIndex st + 1)).
        { destruct (overridden h) as [[|]|] eqn:Hov; simpl in Hsc.
          - unfold MetadataSearcher.setTargetIndex in Hsc.
            destruct (MetadataSearcher.TargetIndex st =? InvalidIndex);
              simpl in Hsc; [|discriminate].
            injection Hsc as <-. reflexivity.
          - injection Hsc as <-. reflexivity.
          - injection Hsc as <-. simpl.
            rewrite (Hslots h) by (try left; assumption). reflexivity. }
        rewrite Hadv, Hn, wrap32_small; lia.
    + (* target index *)
      unfold MetadataSearcher.call in Hsc.
      destruct (ValueLayout.isNoteAddressPoint h) eqn:Hnote.
      * injection Hsc as <-. simpl.
        destruct Ht as [Ht|Ht]; [by left|right; by apply Hkeep].
      * destruct (overridden h) as [[|]|] eqn:Hov; simpl in Hsc.
        -- unfold MetadataSearcher.setTargetIndex in Hsc.
           destruct (MetadataSearcher.TargetIndex st =? InvalidIndex);
             simpl in Hsc; [|discriminate].
           injection Hsc as <-. simpl. right.
           destruct h; simpl in Hov; try discriminate Hov.
           rewrite (Harg _ eq_refl) in HF. simpl in HO.
           split; [lia|].
           exists (mkFillOp (NumGenericWitnesses s) (getNextIndex s)).
           split; [rewrite HO; apply elem_of_app; right; by left|].
           split; [simpl; lia|].
           rewrite HF. unfold TemplateHeaderFieldCount.
           replace (Z.to_nat (5 + MetadataSearcher.NextIndex st))
             with (length (Fields s)) by lia.
           rewrite lookup_app_r by lia. by rewrite Nat.sub_diag.
        -- injection Hsc as <-. simpl.
           destruct Ht as [Ht|Ht]; [by left|right; by apply Hkeep].
        -- injection Hsc as <-. simpl.
           destruct Ht as [Ht|Ht]; [by left|right; by apply Hkeep].
    + (* address point *)
      unfold MetadataSearcher.call in Hsc. rewrite HA.
      destruct (ValueLayout.isNoteAddressPoint h) eqn:Hnote.
      * injection Hsc as <-. simpl. right. lia.
      * assert (Hsame : MetadataSearcher.AddressPoint st1
                        = MetadataSearcher.AddressPoint st).
        { destruct (overridden h) as [[|]|]; simpl in Hsc.
          - unfold MetadataSearcher.setTargetIndex in Hsc.
            destruct (MetadataSearcher.TargetIndex st =? InvalidIndex);
              simpl in Hsc; [|discriminate].
            injection Hsc as <-. reflexivity.
          - injection Hsc as <-. reflexivity.
          - injection Hsc as <-. reflexivity. }
        rewrite Hsame. destruct Ha as [Ha|[Ha Hr]]; [by left|right].
        split; [exact Ha|lia].
Qed.

(** The slot an argument searcher finds in the layout of a generic
    value type is a slot the template's fill function fills. *)
Lemma value_argument_slot_filled pattern calls index (s : State unit) :
  (forall h, h ∈ calls -> overridden h = None ->
     ValueLayout.isNoteAddressPoint h = false -> scannerSlots h = 1) ->
  MetadataSearcher.getTargetIndex ValueLayout.isNoteAddressPoint scannerSlots
    overridden calls = Some index ->
  GenericMetadataBuilderBase.layout IGM classifyValueHook superCall pattern
    calls (initial tt) = Some s ->
  Z.of_nat (length (Fields s)) < 2 ^ 31 ->
  exists op,
    op ∈ FillOps s /\
    ToIndex op = AddressPoint s + index /\
    0 <= ToIndex op /\
    Fields s !! Z.to_nat (TemplateHeaderFieldCount + ToIndex op)
      = Some (Some (ConstantPointerNull TypeMetadataPtrTy)).
Proof using superCall_fields.
  intros Hslots Hget Hlayout Hbound.
  apply layout_inv in Hlayout
    as (s1 & extra & fill & Hs1 & _ & _ & HO & _ & HA & HF).
  unfold MetadataSearcher.getTargetIndex in Hget. simpl in Hget.
  destruct (slayout calls MetadataSearcher.initial) as [st'|] eqn:Hs;
    simpl in Hget; [|discriminate].
  destruct (MetadataSearcher.TargetIndex st' =? InvalidIndex) eqn:HT;
    simpl in Hget; [discriminate|].
  destruct (MetadataSearcher.AddressPoint st' =? InvalidIndex) eqn:HAp;
    simpl in Hget; [discriminate|].
  injection Hget as <-.
  apply Z.eqb_neq in HT. apply Z.eqb_neq in HAp.
  assert (Hlen : length (Fields s)
                 = length (Fields s1 ++ map Some extra)).
  { rewrite HF. simpl. by rewrite !length_insert. }
  assert (Hbound1 : Z.of_nat (length (Fields s1)) < 2 ^ 31).
  { rewrite Hlen, length_app in Hbound. lia. }
  destruct (value_lockstep calls _ _ _ _ Hslots Hs Hs1 Hbound1
              ltac:(simpl; lia) ltac:(reflexivity) ltac:(by left) ltac:(by left))
    as [[Ht|(Hk & op & Hop & Hto & Hlk)] [Ha|[Ha Halt]]]; try done.
  assert (Hklt : MetadataSearcher.TargetIndex st' < 2 ^ 31).
  { apply lookup_lt_Some in Hlk. unfold TemplateHeaderFieldCount in Hlk. lia. }
  rewrite Ha, !to_int_small by lia.
  exists op. rewrite HO, HA, Hto.
  split; [exact Hop|]. split; [lia|]. split; [exact Hk|].
  rewrite HF. simpl.
  unfold TemplateHeaderFieldCount in *.
  rewrite !list_lookup_insert_ne by lia.
  apply lookup_app_l_Some. exact Hlk.
Qed.
End ValueTemplateProofs.

Lemma GenericStructMetadataBuilder_superCall_fields IGM Target h size b new b' dep :
  GenericStructMetadataBuilder.superCall IGM Target h size b = Some (new, b', dep) ->
  length new = (if ValueLayout.isNoteAddressPoint h then 0 else 1)%nat /\
  forall a, h = ValueLayout.addGenericArgument a ->
    new = [ConstantPointerNull TypeMetadataPtrTy].
Proof.
  destruct h; simpl; intros [= <- <- <-];
    (split; [|intros ? [=]; reflexivity || discriminate]); try reflexivity.
  unfold addValueWitnessTableSlotForGenericValueType. simpl.
  destruct (hasDependentValueWitnessTable IGM (getDeclaredType Target));
    reflexivity.
Qed.

Lemma GenericEnumMetadataBuilder_superCall_fields IGM Target h size b new b' dep :
  GenericEnumMetadataBuilder.superCall IGM Target h size b = Some (new, b', dep) ->
  length new = (if ValueLayout.isNoteAddressPoint h then 0 else 1)%nat /\
  forall a, h = ValueLayout.addGenericArgument a ->
    new = [ConstantPointerNull TypeMetadataPtrTy].
Proof.
  destruct h; simpl; intros [= <- <- <-];
    (split; [|intros ? [=]; reflexivity || discriminate]); try reflexivity.
  unfold addValueWitnessTableSlotForGenericValueType. simpl.
  destruct (hasDependentValueWitnessTable IGM (getDeclaredType Target));
    reflexivity.
Qed.

(** X10: the slot a generic argument of a struct or an enum is read
    from is a slot the template's fill function fills.  The index
    [FindValueTypeArgumentIndex] computes for an archetype, counted from
    the address point the template notes, is the destination of one of
    the template's fill operations, and the template's field there,
    after the five header fields, is the null placeholder of a generic
    argument.  The scanner counts one slot for each hook the searcher
    leaves alone. *)
Theorem generic_argument_slot_is_filled IGM (Target : NominalTypeDecl)
    (scannerSlots : ValueLayout.Hook -> Z) (calls : list ValueLayout.Hook)
    (TargetArchetype : positive) (index : Z)
    (s : GenericMetadataBuilderBase.State unit) :
  GenericStructMetadataBuilder.layout IGM Target calls = Some s \/
  GenericEnumMetadataBuilder.layout IGM Target calls = Some s ->
  (forall h, h ∈ calls -> FindValueTypeArgumentIndex TargetArchetype h = None ->
     ValueLayout.isNoteAddressPoint h = false -> scannerSlots h = 1) ->
  MetadataSearcher.getTargetIndex ValueLayout.isNoteAddressPoint scannerSlots
    (FindValueTypeArgumentIndex TargetArchetype) calls = Some index ->
  Z.of_nat (length (GenericMetadataBuilderBase.Fields s)) < 2 ^ 31 ->
  exists op,
    op ∈ GenericMetadataBuilderBase.FillOps s /\
    ToIndex op = GenericMetadataBuilderBase.AddressPoint s + index /\
    0 <= ToIndex op /\
    GenericMetadataBuilderBase.Fields s
      !! Z.to_nat (GenericMetadataBuilderBase.TemplateHeaderFieldCount + ToIndex op)
      = Some (Some (ConstantPointerNull TypeMetadataPtrTy)).
Proof.
  intros [Hl|Hl] Hslots Hget Hbound.
  - eapply (value_argument_slot_filled IGM _
              (GenericStructMetadataBuilder_superCall_fields IGM Target));
      eassumption.
  - eapply (value_argument_slot_filled IGM _
              (GenericEnumMetadataBuilder_superCall_fields IGM Target));
      eassumption.
Qed.

Lemma generic_argument_slot_is_filled_witness :
  exists op,
    op ∈ GenericMetadataBuilderBase.FillOps Scenario.boxTemplate /\
    ToIndex op = GenericMetadataBuilderBase.AddressPoint Scenario.boxTemplate + 1 /\
    0 <= ToIndex op /\
    GenericMetadataBuilderBase.Fields Scenario.boxTemplate
      !! Z.to_nat (GenericMetadataBuilderBase.TemplateHeaderFieldCount + ToIndex op)
      = Some (Some (ConstantPointerNull TypeMetadataPtrTy)).
Proof.
  apply (generic_argument_slot_is_filled Scenario.IGM64 Scenario.BoxDecl
           (fun _ => 1) Scenario.boxLayout 10 1 Scenario.boxTemplate).
  - left. vm_compute. reflexivity.
  - intros; reflexivity.
  - reflexivity.
  - vm_compute. reflexivity.
Defined.


(** ** Which methods [addMethod] knows *)

Lemma noteMethod_domain FO fn k :
  is_Some (noteMethod FO fn !! k) <->
  is_Some (FO !! k) \/ funcId fn = k \/
  exists o, getOverriddenDecl fn = Some o /\ funcId o = k.
Proof.
  unfold noteMethod, ClassMetadataBuilderBase.noteMember.
  set (FO1 := <[funcId fn := default fn (FO !! funcId fn)]> FO).
  assert (H1 : is_Some (FO1 !! k) <-> is_Some (FO !! k) \/ funcId fn = k).
  { unfold FO1. destruct (decide (funcId fn = k)) as [<-|Hne].
    - rewrite lookup_insert_eq. split; [by right|eauto].
    - rewrite lookup_insert_ne by done. split; [by left|intros [?|?]; done]. }
  destruct (getOverriddenDecl fn) as [o|].
  - destruct (FO1 !! funcId o) as [x|] eqn:Ho.
    + rewrite H1. split; [intros [?|?]; eauto|].
      intros [?|[?|(o' & [= <-] & <-)]]; eauto.
      apply H1. by rewrite Ho.
    + destruct (decide (funcId o = k)) as [<-|Hne].
      * rewrite lookup_insert_eq. split; [eauto 6|eauto].
      * rewrite lookup_insert_ne by done. rewrite H1.
        split; [intros [?|?]; eauto|].
        intros [?|[?|(o' & [= <-] & ?)]]; eauto. done.
  - rewrite H1. split; [intros [?|?]; eauto|].
    intros [?|[?|(o' & ? & ?)]]; eauto. done.
Qed.

Lemma fold_noteMethod_domain L : forall FO k,
  is_Some (fold_left noteMethod L FO !! k) <->
  is_Some (FO !! k) \/
  exists m, m ∈ L /\
    (funcId m = k \/ exists o, getOverriddenDecl m = Some o /\ funcId o = k).
Proof.
  induction L as [|fn L IH]; intros FO k; simpl.
  - split; [by left|]. intros [?|(m & Hm & _)]; [done|].
    by apply elem_of_nil in Hm.
  - rewrite IH, noteMethod_domain. split.
    + intros [[?|Hfn]|(m & Hm & H)].
      * by left.
      * right. exists fn. split; [left|exact Hfn].
      * right. exists m. split; [by right|exact H].
    + intros [?|(m & Hm & H)]; [by left; left|].
      apply elem_of_cons in Hm as [->|Hm].
      * left. right. exact H.
      * right. exists m. split; assumption.
Qed.

(** X11: [addMethod] finds a final overrider, and so gets past its
    assertion and appends a field, exactly for the declarations
    [computeFinalOverriders] has met: the methods of the target class
    and of its superclasses, and the declarations those methods
    directly override; for any other function it aborts. *)
Theorem addMethod_succeeds_exactly_on_known_methods IGM
    (TargetClass : ClassDecl) (fn : FunctionRef) (size : Z) :
  is_Some (ClassMetadataBuilderBase.addMethod IGM TargetClass fn size
             (ClassMetadataBuilderBase.create TargetClass)) <->
  exists i m, (i, m) ∈ hierarchyMethods TargetClass /\
    (funcId m = funcId (getDecl fn) \/
     exists o, getOverriddenDecl m = Some o /\ funcId o = funcId (getDecl fn)).
Proof.
  unfold ClassMetadataBuilderBase.addMethod, ClassMetadataBuilderBase.create,
    ClassMetadataBuilderBase.computeFinalOverriders. simpl.
  rewrite (computeFinalOverriders_from_fold TargetClass 0).
  fold (hierarchyMethods TargetClass).
  pose proof (fold_noteMethod_domain (hierarchyMethods TargetClass).*2 ∅
                (funcId (getDecl fn))) as Hdom.
  split.
  - intros Hsome.
    destruct (fold_left noteMethod (hierarchyMethods TargetClass).*2 ∅
              !! funcId (getDecl fn)) as [fo|] eqn:Hfo;
      [|simpl in Hsome; by destruct Hsome].
    destruct (proj1 Hdom ltac:(eauto)) as [Hemp|(m & Hm & H)].
    + rewrite lookup_empty in Hemp. by destruct Hemp.
    + apply in_snd_inv in Hm as [i Hm]. exists i, m. split; assumption.
  - intros (i & m & Hm & H).
    destruct (proj2 Hdom) as [fo Hfo].
    { right. exists m. split; [by apply (in_snd (i, m))|exact H]. }
    rewrite Hfo. simpl. eauto.
Qed.

(** ** Overrides that keep the signature *)

(** X12: a method whose type differs from the type of the method it
    directly overrides in the class of [self] only, the overridden
    method being known to have a v-table entry, requires no new entry,
    at any uncurry level from 1 up. *)
Theorem override_with_unchanged_signature_reuses_entry IGM
    (fn overridden : FuncDecl) (explosionLevel : ExplosionKind)
    (uncurryLevel : Z) (self self' rest : CanType) :
  getOverriddenDecl fn = Some overridden ->
  hasKnownVTableEntry overridden = Some true ->
  getType fn = FunctionType self rest ->
  getType overridden = FunctionType self' rest ->
  getClassOrBoundGenericClass self = true ->
  getClassOrBoundGenericClass self' = true ->
  1 <= uncurryLevel < UINT_MAX ->
  doesMethodRequireOverrideEntry IGM fn explosionLevel uncurryLevel = Some false.
Proof.
  intros Hov Hknown Hfn Ho Hself Hself' Hlevel.
  assert (Hcompat : isCompatibleOverride IGM fn overridden explosionLevel
                      uncurryLevel = Some true).
  { unfold isCompatibleOverride. rewrite Hfn, Ho.
    assert (Hn : exists n, Z.to_nat (wrap32 (uncurryLevel + 1)) = S (S n)).
    { rewrite wrap32_small by (unfold UINT_MAX in Hlevel; lia).
      exists (Z.to_nat (uncurryLevel - 1)). lia. }
    destruct Hn as [n ->].
    change (isCompatibleOverride_from IGM explosionLevel (S (S n))
              (FunctionType self rest) (FunctionType self' rest))
      with (if sameType (FunctionType self rest) (FunctionType self' rest)
            then Some true else
            bad ← isIncompatibleOverrideArgument IGM self self' explosionLevel;
            if bad : bool then Some false
            else isCompatibleOverride_from IGM explosionLevel (S n) rest rest).
    destruct (sameType (FunctionType self rest) (FunctionType self' rest));
      [reflexivity|].
    assert (Harg : isIncompatibleOverrideArgument IGM self self' explosionLevel
                   = Some false).
    { unfold isIncompatibleOverrideArgument.
      destruct self' as [| | | | | |d|d ?| | | | | | | | | | | | |];
        try discriminate Hself'; simpl in Hself' |- *;
        (destruct (sameType self _); [reflexivity|]);
        destruct (getKind d); try discriminate Hself';
        unfold IsIncompatibleOverride.visitClassType; rewrite Hself;
        reflexivity. }
    rewrite Harg. simpl. unfold sameType.
    destruct (CanType_eq_dec rest rest); [reflexivity|congruence]. }
  unfold doesMethodRequireOverrideEntry. rewrite Hov. simpl.
  destruct overridden as [i c t cl next]. simpl.
  simpl in Hknown. rewrite Hknown. simpl. rewrite Hcompat. reflexivity.
Qed.

Lemma override_with_unchanged_signature_reuses_entry_witness :
  doesMethodRequireOverrideEntry Scenario.IGM64 Scenario.Square_area Minimal 1
  = Some false.
Proof.
  apply (override_with_unchanged_signature_reuses_entry Scenario.IGM64
           Scenario.Square_area Scenario.Polygon_area Minimal 1
           (NominalType Scenario.SquareDecl) (NominalType Scenario.PolygonDecl)
           (FunctionType Scenario.Void Scenario.Int));
    try reflexivity.
  unfold UINT_MAX. lia.
Defined.

(** ** A target met twice *)

Section SearcherTwice.
Context {Hook : Type}.
Variable isNoteAddressPoint : Hook -> bool.
Variable scannerSlots : Hook -> Z.
Variable overridden : Hook -> option bool.

Local Abbreviation slayout := (MetadataSearcher.layout isNoteAddressPoint scannerSlots overridden).
Local Abbreviation scall := (MetadataSearcher.call isNoteAddressPoint scannerSlots overridden).

(** Once the target index is set, it stays as it is for as long as the
    layout goes on. *)
Lemma layout_TargetIndex_set l : forall s s',
  MetadataSearcher.TargetIndex s <> InvalidIndex ->
  slayout l s = Some s' ->
  MetadataSearcher.TargetIndex s' = MetadataSearcher.TargetIndex s.
Proof.
  induction l as [|h l IH]; intros s s' Hset; simpl; [by intros [= <-]|].
  destruct (scall s h) as [s1|] eqn:Hc; simpl; [|discriminate].
  assert (H1 : MetadataSearcher.TargetIndex s1 = MetadataSearcher.TargetIndex s).
  { unfold MetadataSearcher.call in Hc.
    destruct (isNoteAddressPoint h); [by injection Hc as <-|].
    destruct (overridden h) as [[|]|]; simpl in Hc.
    - unfold MetadataSearcher.setTargetIndex in Hc.
      apply Z.eqb_neq in Hset. rewrite Hset in Hc. discriminate Hc.
    - by injection Hc as <-.
    - by injection Hc as <-. }
  intros Hl. rewrite (IH s1 s'); [exact H1|congruence|exact Hl].
Qed.

(** X13: a searcher aborts on a layout in which it meets its target
    twice: the second call that is the target fails the assertion of
    [setTargetIndex], whatever comes between and after.  The first
    target is not at the slot whose number is the invalid index. *)
Theorem getTargetIndex_aborts_on_second_target
    (l1 l2 l3 : list Hook) (t1 t2 : Hook) :
  (forall x, x ∈ l1 -> isTargetCall isNoteAddressPoint overridden x = false) ->
  isTargetCall isNoteAddressPoint overridden t1 = true ->
  isTargetCall isNoteAddressPoint overridden t2 = true ->
  wrap32 (slotCount isNoteAddressPoint scannerSlots overridden l1) <> InvalidIndex ->
  MetadataSearcher.getTargetIndex isNoteAddressPoint scannerSlots overridden
    (l1 ++ t1 :: l2 ++ t2 :: l3) = None.
Proof.
  intros Hl1 Ht1 Ht2 Hslot.
  unfold MetadataSearcher.getTargetIndex. simpl.
  rewrite layout_app.
  destruct (layout_no_target isNoteAddressPoint scannerSlots overridden l1
              MetadataSearcher.initial Hl1) as (s1 & Hs1 & HT1).
  rewrite Hs1. simpl.
  pose proof (layout_NextIndex isNoteAddressPoint scannerSlots overridden l1
                MetadataSearcher.initial s1 ltac:(simpl; lia) Hs1) as Hn1.
  simpl in Hn1, HT1.
  assert (Hcall : forall t s, isTargetCall isNoteAddressPoint overridden t = true ->
            scall s t = s0 ← MetadataSearcher.setTargetIndex s;
                        Some (MetadataSearcher.advance 1 s0)).
  { intros t s Ht. unfold MetadataSearcher.call. unfold isTargetCall in Ht.
    destruct (isNoteAddressPoint t); [discriminate Ht|]. simpl in Ht.
    destruct (overridden t) as [[|]|]; try discriminate Ht. reflexivity. }
  rewrite (Hcall t1 s1 Ht1).
  unfold MetadataSearcher.setTargetIndex at 1. rewrite HT1, Z.eqb_refl. simpl.
  rewrite layout_app.
  match goal with |- context [slayout l2 ?s] =>
    destruct (slayout l2 s) as [s2|] eqn:Hs2 end; simpl; [|reflexivity].
  apply layout_TargetIndex_set in Hs2; simpl; [|rewrite Hn1; exact Hslot].
  simpl in Hs2.
  rewrite (Hcall t2 s2 Ht2).
  unfold MetadataSearcher.setTargetIndex.
  assert (Hne : (MetadataSearcher.TargetIndex s2 =? InvalidIndex) = false).
  { apply Z.eqb_neq. rewrite Hs2, Hn1. exact Hslot. }
  rewrite Hne. reflexivity.
Qed.
End SearcherTwice.

Lemma getTargetIndex_aborts_on_second_target_witness :
  MetadataSearcher.getTargetIndex ValueLayout.isNoteAddressPoint (fun _ => 1)
    (FindValueTypeArgumentIndex 10)
    ([ValueLayout.addMetadataFlags; ValueLayout.noteAddressPoint]
     ++ ValueLayout.addGenericArgument 10
     :: [ValueLayout.addGenericArgument 11]
     ++ ValueLayout.addGenericArgument 10 :: [])
  = None.
Proof.
  apply (getTargetIndex_aborts_on_second_target ValueLayout.isNoteAddressPoint
           (fun _ => 1) (FindValueTypeArgumentIndex 10)
           [ValueLayout.addMetadataFlags; ValueLayout.noteAddressPoint]
           [ValueLayout.addGenericArgument 11] []
           (ValueLayout.addGenericArgument 10)
           (ValueLayout.addGenericArgument 10)).
  - refine (proj1 (Forall_forall _ _) _). repeat constructor.
  - reflexivity.
  - reflexivity.
  - vm_compute. discriminate.
Defined.


(** ** The labels string of a tuple type *)

Lemma append_cons (c : Ascii.ascii) (s t : string) :
  String.append (String c s) t = String c (String.append s t).
Proof. reflexivity. Qed.

Lemma append_empty_r (s : string) : String.append s EmptyString = s.
Proof.
  induction s as [|c s IH]; [reflexivity|]. by rewrite append_cons, IH.
Qed.

Lemma append_assoc (a b c : string) :
  String.append (String.append a b) c = String.append a (String.append b c).
Proof.
  induction a as [|x a IH]; [reflexivity|]. by rewrite !append_cons, IH.
Qed.

(** The strings of the labels, each followed by a space. *)
Local Abbreviation spaced fields :=
  (foldr (fun (f : string * CanType) rest =>
            String.append f.1 (String space rest)) EmptyString fields).

(** The loop of [getTupleLabelsString], from any point on. *)
Lemma getTupleLabelsString_loop fields : forall hasLabels buffer,
  fold_left (fun (acc : bool * string) (elt : string * CanType) =>
               let '(hasLabels, buffer) := acc in
               let '(hasLabels, buffer) :=
                 if negb (String.eqb elt.1 EmptyString)
                 then (true, String.append buffer elt.1)
                 else (hasLabels, buffer) in
               (hasLabels, String.append buffer " "))
            fields (hasLabels, buffer)
  = (hasLabels || existsb (fun f => negb (String.eqb f.1 EmptyString)) fields,
     String.append buffer (spaced fields)).
Proof.
  induction fields as [|[name t] fields IH]; intros hasLabels buffer; simpl.
  - by rewrite orb_false_r, append_empty_r.
  - destruct (String.eqb_spec name EmptyString) as [->|Hne]; simpl.
    + rewrite IH. f_equal. by rewrite append_assoc.
    + rewrite IH. f_equal; [by rewrite orb_true_r|].
      by rewrite !append_assoc.
Qed.

Lemma decodeLabels_from_label name : forall label rest,
  hasSpace name = false ->
  decodeLabels_from label (String.append name (String space rest))
  = String.append label name :: decodeLabels_from EmptyString rest.
Proof.
  induction name as [|c name IH]; intros label rest Hname.
  - by rewrite append_empty_r.
  - simpl in Hname. apply orb_false_elim in Hname as [Hc Hname].
    rewrite append_cons. simpl. rewrite Hc, IH by exact Hname.
    by rewrite append_assoc.
Qed.

Lemma decodeLabels_spaced fields :
  Forall (fun f : string * CanType => hasSpace f.1 = false) fields ->
  decodeLabels (spaced fields) = fields.*1.
Proof.
  unfold decodeLabels. induction 1 as [|[name t] fields Hname _ IH]; simpl;
    [reflexivity|].
  rewrite decodeLabels_from_label by exact Hname. simpl. by rewrite IH.
Qed.

(** X14: the labels string of a tuple type encodes its labels in order.
    For a tuple without a label [getTupleLabelsString] is the null
    pointer; for any other it is a string from which, the labels being
    free of spaces, reading up to each space gives back the label of
    each element, the empty label for an element without one. *)
Theorem getTupleLabelsString_encodes_labels (fields : list (string * CanType)) :
  Forall (fun f => hasSpace f.1 = false) fields ->
  (Forall (fun f => f.1 = EmptyString) fields /\
   getTupleLabelsString fields = ConstantPointerNull Int8PtrTy) \/
  (Exists (fun f => f.1 <> EmptyString) fields /\
   exists s, getTupleLabelsString fields = AddrOfGlobalString s /\
             decodeLabels s = fields.*1).
Proof.
  intros Hnames. unfold getTupleLabelsString.
  rewrite getTupleLabelsString_loop. simpl.
  destruct (existsb (fun f => negb (String.eqb f.1 EmptyString)) fields) eqn:Hex;
    simpl.
  - right. split.
    + apply existsb_exists in Hex as (f & Hin & Hf).
      apply Exists_exists. exists f. split; [by apply list_elem_of_In|].
      apply negb_true_iff in Hf. by apply String.eqb_neq in Hf.
    + eexists. split; [reflexivity|]. by apply decodeLabels_spaced.
  - left. split; [|reflexivity].
    apply Forall_forall. intros f Hin.
    destruct (String.eqb_spec f.1 EmptyString) as [Heq|Hne]; [exact Heq|].
    assert (existsb (fun f => negb (String.eqb f.1 EmptyString)) fields = true);
      [|congruence].
    apply existsb_exists. exists f. split; [by apply list_elem_of_In|].
    apply negb_true_iff. by apply String.eqb_neq.
Qed.

Lemma getTupleLabelsString_encodes_labels_witness :
  (Forall (fun f : string * CanType => f.1 = EmptyString) Cases.pointFields /\
   getTupleLabelsString Cases.pointFields = ConstantPointerNull Int8PtrTy) \/
  (Exists (fun f : string * CanType => f.1 <> EmptyString) Cases.pointFields /\
   exists s, getTupleLabelsString Cases.pointFields = AddrOfGlobalString s /\
             decodeLabels s = Cases.pointFields.*1).
Proof.
  apply (getTupleLabelsString_encodes_labels Cases.pointFields).
  repeat constructor.
Defined.

(** The labels string of [(x: Int, Int, y: Int)]. *)
Example getTupleLabelsString_point :
  getTupleLabelsString Cases.pointFields = AddrOfGlobalString "x  y ".
Proof. reflexivity. Qed.


(** ** Emission that cannot fail *)

Section CleanRuns.
Variable L : CanType -> option Value.

Local Abbreviation any := (fun _ => True).

Lemma runs_ret {A} (Q : A -> Prop) (a : A) : Q a -> runsCleanly L Q (ret a).
Proof. intros Ha IGF HL. exists a, IGF. repeat split; assumption. Qed.

Lemma runs_bind {A B} (P : A -> Prop) (Q : B -> Prop) (c : IRGen A)
    (k : A -> IRGen B) :
  runsCleanly L P c -> (forall a, P a -> runsCleanly L Q (k a)) ->
  runsCleanly L Q (bind c k).
Proof.
  intros Hc Hk IGF HL. unfold bind.
  destruct (Hc IGF HL) as (a & IGF1 & -> & Ha & HL1 & HU1).
  destruct (Hk a Ha IGF1 HL1) as (b & IGF2 & -> & Hb & HL2 & HU2).
  exists b, IGF2. repeat split; try assumption. congruence.
Qed.

Lemma runs_weaken {A} (P Q : A -> Prop) (c : IRGen A) :
  (forall a, P a -> Q a) -> runsCleanly L P c -> runsCleanly L Q c.
Proof.
  intros HPQ Hc IGF HL.
  destruct (Hc IGF HL) as (a & IGF1 & Hrun & Ha & HL1 & HU1).
  exists a, IGF1. repeat split; try assumption. by apply HPQ.
Qed.

Lemma runs_emit i : runsCleanly L any (emit i).
Proof. intros IGF HL. eexists _, _. repeat split; assumption. Qed.

Lemma runs_check b : b = true -> runsCleanly L any (check b).
Proof. intros ->. by apply runs_ret. Qed.

Lemma runs_tryGetLocalTypeData t :
  runsCleanly L (fun r => r = L t) (tryGetLocalTypeData t).
Proof.
  intros IGF HL. exists (LocalTypeData IGF t), IGF.
  repeat split; try assumption. by rewrite HL.
Qed.

Lemma runs_getLocalTypeData t :
  is_Some (L t) -> runsCleanly L any (getLocalTypeData t).
Proof.
  intros [v Hv] IGF HL. unfold getLocalTypeData. rewrite HL, Hv.
  exists v, IGF. repeat split; assumption.
Qed.

Lemma runs_storeArguments buffer values : forall i,
  runsCleanly L any (storeArguments buffer i values).
Proof.
  induction values as [|v values IH]; intros i; simpl; [by apply runs_ret|].
  eapply runs_bind; [apply runs_emit|]. intros elt _.
  eapply runs_bind; [apply runs_emit|]. intros _ _. apply IH.
Qed.

Section Visitor.
Variable IGM : IRGenModule.
Variable emitWitnessTableRefs : CanType -> IRGen (list Value).
Hypothesis emitWitnessTableRefs_runs :
  forall sub, runsCleanly L any (emitWitnessTableRefs sub).

Local Abbreviation visit := (EmitTypeMetadataRef.visit IGM emitWitnessTableRefs).

Lemma runs_collectWitnessTables subs :
  runsCleanly L any
    (EmitTypeMetadataRef.collectWitnessTables emitWitnessTableRefs subs).
Proof using emitWitnessTableRefs_runs.
  induction subs as [|sub subs IH]; simpl; [by apply runs_ret|].
  eapply runs_bind; [apply emitWitnessTableRefs_runs|]. intros tables _.
  eapply runs_bind; [apply IH|]. intros more _. by apply runs_ret.
Qed.

Lemma runs_collectMetadataRefs subs :
  Forall (fun t => runsCleanly L any (visit t)) subs ->
  runsCleanly L any (EmitTypeMetadataRef.collectMetadataRefs visit subs).
Proof.
  induction 1 as [|t subs Ht _ IH]; simpl; [by apply runs_ret|].
  eapply runs_bind; [exact Ht|]. intros v _.
  eapply runs_bind; [exact IH|]. intros vs _. by apply runs_ret.
Qed.

(** The loop over the elements of a long tuple ends with the pointer to
    the first slot when it starts at the first element or has the
    pointer already. *)
Lemma runs_storeElements buffer elts :
  Forall (fun t => runsCleanly L any (visit t)) elts.*2 ->
  forall i p,
    is_Some p \/ (i = 0 /\ elts <> []) ->
    runsCleanly L is_Some
      (EmitTypeMetadataRef.storeElements visit buffer elts i p).
Proof.
  induction elts as [|[n e] elts IH]; intros Hall i p Hp; simpl.
  - apply runs_ret. destruct Hp as [Hp|[_ Hne]]; [exact Hp|done].
  - simpl in Hall. apply Forall_cons in Hall as [He Hall].
    eapply runs_bind; [exact He|]. intros eltMetadata _.
    eapply runs_bind; [apply runs_emit|]. intros eltPtr _.
    eapply runs_bind; [apply runs_emit|]. intros _ _.
    apply IH; [exact Hall|]. left.
    destruct Hp as [Hp|[-> _]]; [|simpl; eauto].
    destruct (i =? 0); [eauto|exact Hp].
Qed.

Lemma runs_emitNominalMetadataRef_plain theDecl :
  getGenericParamsOfContext theDecl = None ->
  runsCleanly L any
    (emitNominalMetadataRef None theDecl (NominalType theDecl)).
Proof.
  intros Hgen. unfold emitNominalMetadataRef, emitObjCMetadataRef,
    isMetadataIndirect. rewrite Hgen. simpl.
  destruct (match getKind theDecl with Class => true | _ => false end
            && negb (hasKnownSwiftMetadata theDecl)); simpl.
  - eapply runs_bind; [by apply (runs_ret any)|]. intros _ _. apply runs_emit.
  - eapply runs_bind; [by apply (runs_ret any)|]. intros _ _.
    eapply runs_bind; [by apply (runs_ret any)|]. intros _ _.
    eapply runs_bind; [by apply (runs_ret any)|]. intros cache _.
    destruct cache; by apply runs_ret.
Qed.

Lemma runs_emitNominalMetadataRef_generic collect theDecl replacements :
  is_Some (getGenericParamsOfContext theDecl) ->
  (match getKind theDecl with Class => true | _ => false end)
  && negb (hasKnownSwiftMetadata theDecl) = false ->
  runsCleanly L any collect ->
  runsCleanly L any
    (emitNominalMetadataRef (Some collect) theDecl
       (BoundGenericType theDecl replacements)).
Proof.
  intros Hgen Hswift Hcollect.
  unfold emitNominalMetadataRef, isMetadataIndirect. rewrite Hswift.
  rewrite (bool_decide_eq_true_2 _ Hgen). simpl.
  eapply runs_bind; [by apply (runs_ret any)|]. intros _ _.
  eapply runs_bind; [by apply (runs_ret any)|]. intros _ _.
  eapply runs_bind; [apply runs_tryGetLocalTypeData|]. intros cache _.
  destruct cache; [by apply runs_ret|].
  eapply runs_bind; [by apply (runs_ret any)|]. intros metadata _.
  eapply runs_bind; [exact Hcollect|]. intros genericArgs _.
  eapply runs_bind; [apply runs_emit|]. intros argsBuffer _.
  eapply runs_bind; [apply runs_storeArguments|]. intros _ _.
  eapply runs_bind; [apply runs_emit|]. intros arguments _.
  apply runs_emit.
Qed.

(** A reference to the metadata of an emittable type is emitted without
    an abort. *)
Lemma runs_visit type :
  emittable IGM L type = true -> runsCleanly L any (visit type).
Proof using emitWitnessTableRefs_runs.
  induction type as [type IH] using CanType_component_ind.
  assert (Hopaque : forall t,
    (getFixedSize IGM t =? getFixedAlignment IGM t)
    && isPowerOf2 (getFixedSize IGM t) = true ->
    runsCleanly L any (EmitTypeMetadataRef.visitOpaqueType IGM t)).
  { intros t Ht. apply andb_prop in Ht as [H1 H2].
    unfold EmitTypeMetadataRef.visitOpaqueType.
    eapply runs_bind; [by apply runs_check|]. intros _ _.
    eapply runs_bind; [by apply runs_check|]. intros _ _.
    by apply runs_ret. }
  assert (Hcached : forall t (k : IRGen Value),
    runsCleanly L any k ->
    runsCleanly L any
      (cached <~ EmitTypeMetadataRef.tryGetLocal t ;;
       match cached with Some cached => ret cached | None => k end)).
  { intros t k Hk. eapply runs_bind; [apply runs_tryGetLocalTypeData|].
    intros [cached|] _; [by apply runs_ret|exact Hk]. }
  assert (Hcall : forall i,
    runsCleanly L any (call <~ emit i ;; EmitTypeMetadataRef.setLocal type call)).
  { intros i. eapply runs_bind; [apply runs_emit|]. intros call _.
    by apply runs_ret. }
  destruct type; simpl in IH |- *; intros Hem; try discriminate Hem;
    try (by apply Hopaque); try (by apply runs_ret).
  - (* nominal *)
    apply runs_emitNominalMetadataRef_plain.
    apply negb_true_iff, bool_decide_eq_false in Hem.
    destruct (getGenericParamsOfContext decl); [|reflexivity].
    exfalso. apply Hem. eauto.
  - (* bound generic *)
    apply andb_prop in Hem as [Hem Hall]. apply andb_prop in Hem as [Hgen Hswift].
    apply bool_decide_eq_true in Hgen. apply negb_true_iff in Hswift.
    apply runs_emitNominalMetadataRef_generic; [exact Hgen|exact Hswift|].
    eapply runs_bind.
    { apply runs_collectMetadataRefs.
      pose proof (proj1 (forallb_forall _ _) Hall) as Hall'.
      apply Forall_forall. intros t Ht.
      rewrite Forall_forall in IH. apply (IH t Ht), Hall'.
      by apply list_elem_of_In. }
    intros metadatas _.
    eapply runs_bind; [apply runs_collectWitnessTables|]. intros tables _.
    by apply runs_ret.
  - (* tuple *)
    assert (Hfields : Forall (fun t => runsCleanly L any (visit t)) fields.*2).
    { apply Forall_forall. intros t Ht.
      rewrite Forall_forall in IH. apply (IH t Ht).
      apply list_elem_of_fmap in Ht as ([n e] & -> & Hin).
      apply (proj1 (forallb_forall _ _) Hem (n, e)).
      by apply list_elem_of_In. }
    apply Hcached.
    destruct fields as [|[n0 e0] [|[n1 e1] [|[n2 e2] [|f3 rest]]]];
      simpl in Hfields; repeat (apply Forall_cons in Hfields as [? Hfields]).
    + by apply runs_ret.
    + assumption.
    + eapply runs_bind; [eassumption|]. intros elt0Metadata _.
      eapply runs_bind; [eassumption|]. intros elt1Metadata _.
      apply Hcall.
    + eapply runs_bind; [eassumption|]. intros elt0Metadata _.
      eapply runs_bind; [eassumption|]. intros elt1Metadata _.
      eapply runs_bind; [eassumption|]. intros elt2Metadata _.
      apply Hcall.
    + eapply runs_bind; [apply runs_emit|]. intros buffer _.
      eapply runs_bind.
      { apply runs_storeElements; [|right; split; [reflexivity|discriminate]].
        simpl. repeat constructor; assumption. }
      intros [pointerToFirst|] Hp; [apply Hcall|by destruct Hp].
  - (* function *)
    apply andb_prop in Hem as [Hin Hres].
    apply Forall_cons in IH as [IHin IH]. apply Forall_cons in IH as [IHres _].
    apply Hcached.
    eapply runs_bind; [by apply IHin|]. intros argMetadata _.
    eapply runs_bind; [by apply IHres|]. intros resultMetadata _.
    apply Hcall.
  - (* metatype *)
    apply Forall_cons in IH as [IHinst _].
    apply Hcached.
    eapply runs_bind; [by apply IHinst|]. intros instMetadata _.
    apply Hcall.
  - (* archetype *)
    apply bool_decide_eq_true in Hem. by apply runs_getLocalTypeData.
Qed.
End Visitor.
End CleanRuns.

(** X15: for an emittable type, [emitTypeMetadataRef] returns a value:
    no assertion fails, nothing is reported unimplemented and the local
    type data of the function stays as it was.  A type is emittable when
    its builtin types have a fixed size that is their alignment and a
    power of two, its nominal and bound generic types agree with their
    declarations about generic parameters, no imported class is bound
    generic, its archetypes have local type data, and it is made of
    these with tuples, functions and metatypes; the witness tables are
    emitted by code that runs the same way. *)
Theorem emitTypeMetadataRef_succeeds_on_emittable IGM
    (emitWitnessTableRefs : CanType -> IRGen (list Value)) (type : CanType)
    (IGF : IRGenFunction) :
  (forall sub,
     runsCleanly (LocalTypeData IGF) (fun _ => True) (emitWitnessTableRefs sub)) ->
  emittable IGM (LocalTypeData IGF) type = true ->
  exists metadata IGF',
    emitTypeMetadataRef IGM emitWitnessTableRefs type IGF = Some (metadata, IGF') /\
    LocalTypeData IGF' = LocalTypeData IGF /\
    Unimplemented IGF' = Unimplemented IGF.
Proof.
  intros Hwitness Hem.
  destruct (runs_visit (LocalTypeData IGF) IGM emitWitnessTableRefs Hwitness
              type Hem IGF eq_refl) as (v & IGF' & Hrun & _ & HL & HU).
  exists v, IGF'. repeat split; assumption.
Qed.

Lemma emitTypeMetadataRef_succeeds_on_emittable_witness :
  exists metadata IGF',
    emitTypeMetadataRef Scenario.IGM64 Scenario.noWitnessTables
      Cases.callbackType Scenario.newSession = Some (metadata, IGF') /\
    LocalTypeData IGF' = LocalTypeData Scenario.newSession /\
    Unimplemented IGF' = Unimplemented Scenario.newSession.
Proof.
  apply (emitTypeMetadataRef_succeeds_on_emittable Scenario.IGM64
           Scenario.noWitnessTables Cases.callbackType Scenario.newSession).
  - intros sub IGF HL. exists [], IGF. repeat split; assumption.
  - reflexivity.
Defined.


(** ** The buffer of generic arguments *)

(** The loop that stores the collected values: the value of index [k]
    goes to the field of index [i + k], by a GEP and a store built one
    after the other. *)
Lemma storeArguments_stores buffer values : forall i IGF,
  exists IGF',
    storeArguments buffer i values IGF = Some (tt, IGF') /\
    length (Builder IGF') = (length (Builder IGF) + 2 * length values)%nat /\
    (forall n instruction, Builder IGF !! n = Some instruction ->
       Builder IGF' !! n = Some instruction) /\
    (forall (k : nat) value, values !! k = Some value ->
       Builder IGF' !! (length (Builder IGF) + 2 * k)%nat
         = Some (CreateStructGEP buffer (i + Z.of_nat k)) /\
       Builder IGF' !! (length (Builder IGF) + 2 * k + 1)%nat
         = Some (CreateStore value (Inst (length (Builder IGF) + 2 * k)))).
Proof.
  induction values as [|v values IH]; intros i IGF; simpl.
  - exists IGF. split; [reflexivity|]. split; [lia|]. split; [auto|].
    intros k value Hk. by rewrite lookup_nil in Hk.
  - unfold bind at 1. unfold emit at 1.
    unfold bind at 1. unfold emit at 1. simpl.
    set (IGF2 := mkIRGenFunction _ _ _).
    destruct (IH (i + 1) IGF2) as (IGF' & Hrun & Hlen & Hold & Hnew).
    exists IGF'. split; [exact Hrun|].
    assert (Hlen2 : length (Builder IGF2) = (length (Builder IGF) + 2)%nat).
    { unfold IGF2. simpl. rewrite !length_app. simpl. lia. }
    split; [lia|]. split.
    + intros n instruction Hn. apply Hold. unfold IGF2. simpl.
      apply lookup_app_l_Some. apply lookup_app_l_Some. exact Hn.
    + intros [|k] value Hk; simpl in Hk.
      * injection Hk as <-. simpl. rewrite Z.add_0_r, !Nat.add_0_r.
        split; apply Hold; unfold IGF2; simpl.
        -- apply lookup_app_l_Some. rewrite lookup_app_r by lia.
           by rewrite Nat.sub_diag.
        -- rewrite lookup_app_r by (rewrite length_app; simpl; lia).
           rewrite length_app. simpl.
           replace (length (Builder IGF) + 1 - (length (Builder IGF) + 1))%nat
             with 0%nat by lia.
           reflexivity.
      * destruct (Hnew k value Hk) as [Hgep Hstore].
        rewrite Hlen2 in Hgep, Hstore.
        match goal with
        | |- context [(length (Builder IGF) + ?x)%nat] =>
            replace (length (Builder IGF) + x)%nat
              with (length (Builder IGF) + 2 + 2 * k)%nat by lia
        end.
        replace (i + Z.of_nat (S k)) with (i + 1 + Z.of_nat k) by lia.
        split; assumption.
Qed.

(** The two loops of [GenericArguments::collect] emit for the
    replacement types in order. *)
Lemma collectMetadataRefs_in_order IGM
    (emitWitnessTableRefs : CanType -> IRGen (list Value))
    (replacements : list CanType) : forall IGF metadatas IGF1,
  EmitTypeMetadataRef.collectMetadataRefs
    (EmitTypeMetadataRef.visit IGM emitWitnessTableRefs) replacements IGF
  = Some (metadatas, IGF1) ->
  emittedInOrder (emitTypeMetadataRef IGM emitWitnessTableRefs)
    replacements IGF metadatas IGF1.
Proof.
  induction replacements as [|r rs IH]; intros IGF metadatas IGF1; simpl.
  - intros [= <- <-]. constructor.
  - unfold bind at 1.
    destruct (EmitTypeMetadataRef.visit IGM emitWitnessTableRefs r IGF)
      as [[v IGFa]|] eqn:Hv; [|discriminate].
    unfold bind at 1.
    destruct (EmitTypeMetadataRef.collectMetadataRefs _ rs IGFa)
      as [[vs IGFb]|] eqn:Hrs; [|discriminate].
    intros [= <- <-]. econstructor; [exact Hv|]. by apply IH.
Qed.

Lemma collectWitnessTables_in_order
    (emitWitnessTableRefs : CanType -> IRGen (list Value))
    (replacements : list CanType) : forall IGF tables IGF1,
  EmitTypeMetadataRef.collectWitnessTables emitWitnessTableRefs replacements IGF
  = Some (tables, IGF1) ->
  exists tablesOf,
    emittedInOrder emitWitnessTableRefs replacements IGF tablesOf IGF1 /\
    tables = concat tablesOf.
Proof.
  induction replacements as [|r rs IH]; intros IGF tables IGF1; simpl.
  - intros [= <- <-]. exists []. split; [constructor|reflexivity].
  - unfold bind at 1.
    destruct (emitWitnessTableRefs r IGF) as [[ts IGFa]|] eqn:Hts; [|discriminate].
    unfold bind at 1.
    destruct (EmitTypeMetadataRef.collectWitnessTables _ rs IGFa)
      as [[more IGFb]|] eqn:Hrs; [|discriminate].
    intros [= <- <-]. destruct (IH _ _ _ Hrs) as (tablesOf & Hin & ->).
    exists (ts :: tablesOf). split; [|reflexivity].
    econstructor; [exact Hts|exact Hin].
Qed.

Lemma emittedInOrder_length {A} (emitOne : CanType -> IRGen A) types IGF values IGF' :
  emittedInOrder emitOne types IGF values IGF' -> length values = length types.
Proof. induction 1; simpl; congruence. Qed.

(** X16: a reference to the metadata of a bound generic type that is
    not in the local type data passes the generic arguments in a buffer
    in the order in which they are collected.  The metadata references
    of the replacement types are emitted one after the other, then the
    witness tables of each replacement type; the buffer, allocated after
    that code, is a struct of one metadata pointer for each replacement
    type followed by one witness-table pointer for each witness table;
    the metadata references and then the witness tables are stored in
    that order, the value of index [k] into the field of index [k]; and
    the value returned is the call of the generic-metadata entry point
    on the pattern of the declaration and the buffer. *)
Theorem generic_arguments_stored_in_order IGM
    (emitWitnessTableRefs : CanType -> IRGen (list Value))
    (theDecl : NominalTypeDecl) (replacements : list CanType)
    (IGF IGF' : IRGenFunction) (result : Value) :
  is_Some (getGenericParamsOfContext theDecl) ->
  LocalTypeData IGF (BoundGenericType theDecl replacements) = None ->
  emitTypeMetadataRef IGM emitWitnessTableRefs
    (BoundGenericType theDecl replacements) IGF = Some (result, IGF') ->
  exists (metadatas : list Value) (tablesOf : list (list Value))
      (IGF1 IGF2 : IRGenFunction),
    emittedInOrder (emitTypeMetadataRef IGM emitWitnessTableRefs)
      replacements IGF metadatas IGF1 /\
    emittedInOrder emitWitnessTableRefs replacements IGF1 tablesOf IGF2 /\
    let tables := concat tablesOf in
    let buffer := length (Builder IGF2) in
    take buffer (Builder IGF') = Builder IGF2 /\
    length metadatas = length replacements /\
    Builder IGF' !! buffer
      = Some (CreateAlloca
                (StructTy (repeat TypeMetadataPtrTy (length metadatas)
                           ++ repeat WitnessTablePtrTy (length tables)))
                "generic.arguments") /\
    (forall (k : nat) value, (metadatas ++ tables) !! k = Some value ->
       Builder IGF' !! (buffer + 1 + 2 * k)%nat
         = Some (CreateStructGEP (Inst buffer) (Z.of_nat k)) /\
       Builder IGF' !! (buffer + 1 + 2 * k + 1)%nat
         = Some (CreateStore value (Inst (buffer + 1 + 2 * k)))) /\
    let last := (buffer + 1 + 2 * length (metadatas ++ tables))%nat in
    Builder IGF' !! last = Some (CreateBitCast (Inst buffer) Int8PtrTy) /\
    Builder IGF' !! S last
      = Some (CreateCall GetGenericMetadataFn
                [Const (AddrOfTypeMetadata (NominalType theDecl) false true);
                 Inst last]) /\
    result = Inst (S last) /\
    length (Builder IGF') = S (S last).
Proof.
  intros Hgen Hmiss. unfold emitTypeMetadataRef at 1. simpl.
  unfold emitNominalMetadataRef, isMetadataIndirect, getDeclaredType.
  rewrite (bool_decide_eq_true_2 _ Hgen).
  destruct (match getKind theDecl with Class => true | _ => false end
            && negb (hasKnownSwiftMetadata theDecl)); [discriminate|].
  simpl. unfold bind at 1. simpl. unfold bind at 1. simpl.
  unfold bind at 1. unfold tryGetLocalTypeData at 1. rewrite Hmiss.
  unfold bind at 1. simpl.
  unfold bind at 1. unfold bind at 1.
  destruct (EmitTypeMetadataRef.collectMetadataRefs _ replacements IGF)
    as [[metadatas IGF1]|] eqn:Hmeta; [|discriminate].
  unfold bind at 1.
  destruct (EmitTypeMetadataRef.collectWitnessTables _ replacements IGF1)
    as [[tables IGF2]|] eqn:Htables; [|discriminate].
  unfold ret at 1. simpl.
  unfold bind at 1. unfold emit at 1. unfold bind at 1.
  set (IGF3 := mkIRGenFunction _ _ _).
  destruct (storeArguments_stores (Inst (length (Builder IGF2)))
              (metadatas ++ tables) 0 IGF3) as (IGF4 & Hstore & Hlen & Hold & Hnew).
  rewrite Hstore.
  unfold bind at 1. unfold emit at 1. unfold emit.
  intros [= <- <-]. cbn [Builder]. rewrite <- app_assoc. cbn [app].
  assert (Hlen3 : length (Builder IGF3) = S (length (Builder IGF2))).
  { unfold IGF3. simpl. rewrite length_app. simpl. lia. }
  apply collectMetadataRefs_in_order in Hmeta.
  apply collectWitnessTables_in_order in Htables as (tablesOf & Htables & ->).
  exists metadatas, tablesOf, IGF1, IGF2.
  split; [exact Hmeta|]. split; [exact Htables|]. cbv zeta.
  split.
  { (* the code of the collection comes first *)
    apply list_eq. intros n.
    destruct (decide (n < length (Builder IGF2))%nat) as [Hlt|Hge].
    - rewrite lookup_take_lt by exact Hlt.
      destruct (lookup_lt_is_Some_2 (Builder IGF2) n Hlt) as [i Hi].
      rewrite Hi. apply lookup_app_l_Some. apply Hold. unfold IGF3. simpl.
      by apply lookup_app_l_Some.
    - rewrite lookup_take_ge by lia. symmetry. apply lookup_ge_None. lia. }
  split; [exact (emittedInOrder_length _ _ _ _ _ Hmeta)|].
  split.
  { apply lookup_app_l_Some. apply Hold. unfold IGF3. simpl.
    rewrite lookup_app_r by lia. by rewrite Nat.sub_diag. }
  split.
  { intros k value Hk. destruct (Hnew k value Hk) as [Hgep Hst].
    rewrite Hlen3 in Hgep, Hst. rewrite Z.add_0_l in Hgep.
    match goal with
    | |- context [(length (Builder IGF2) + 1 + ?x)%nat] =>
        replace (length (Builder IGF2) + 1 + x)%nat
          with (S (length (Builder IGF2)) + 2 * k)%nat by lia
    end.
    split; apply lookup_app_l_Some; assumption. }
  rewrite Hlen3 in Hlen.
  match goal with
  | |- context [(length (Builder IGF2) + 1 + ?x)%nat] =>
      replace (length (Builder IGF2) + 1 + x)%nat
        with (length (Builder IGF4)) by lia
  end.
  split.
  { rewrite lookup_app_r by lia. by rewrite Nat.sub_diag. }
  split.
  { rewrite lookup_app_r by lia.
    replace (S (length (Builder IGF4)) - length (Builder IGF4))%nat
      with 1%nat by lia.
    reflexivity. }
  split; [f_equal; rewrite length_app; simpl; lia|].
  rewrite length_app. simpl. lia.
Qed.

Lemma generic_arguments_stored_in_order_witness :
  exists (metadatas : list Value) (tablesOf : list (list Value))
      (IGF1 IGF2 : IRGenFunction),
    emittedInOrder (emitTypeMetadataRef Scenario.IGM64 Scenario.noWitnessTables)
      [Scenario.Int] Scenario.newSession metadatas IGF1 /\
    emittedInOrder Scenario.noWitnessTables [Scenario.Int] IGF1 tablesOf IGF2 /\
    let tables := concat tablesOf in
    let buffer := length (Builder IGF2) in
    take buffer Cases.boxOfIntCode = Builder IGF2 /\
    length metadatas = length [Scenario.Int] /\
    Cases.boxOfIntCode !! buffer
      = Some (CreateAlloca
                (StructTy (repeat TypeMetadataPtrTy (length metadatas)
                           ++ repeat WitnessTablePtrTy (length tables)))
                "generic.arguments") /\
    (forall (k : nat) value, (metadatas ++ tables) !! k = Some value ->
       Cases.boxOfIntCode !! (buffer + 1 + 2 * k)%nat
         = Some (CreateStructGEP (Inst buffer) (Z.of_nat k)) /\
       Cases.boxOfIntCode !! (buffer + 1 + 2 * k + 1)%nat
         = Some (CreateStore value (Inst (buffer + 1 + 2 * k)))) /\
    let last := (buffer + 1 + 2 * length (metadatas ++ tables))%nat in
    Cases.boxOfIntCode !! last = Some (CreateBitCast (Inst buffer) Int8PtrTy) /\
    Cases.boxOfIntCode !! S last
      = Some (CreateCall GetGenericMetadataFn
                [Const (AddrOfTypeMetadata (NominalType Scenario.BoxDecl) false true);
                 Inst last]) /\
    Inst 4 = Inst (S last) /\
    length Cases.boxOfIntCode = S (S last).
Proof.
  apply (generic_arguments_stored_in_order Scenario.IGM64
           Scenario.noWitnessTables Scenario.BoxDecl [Scenario.Int]
           Scenario.newSession
           (mkIRGenFunction Cases.boxOfIntCode (fun _ => None) [])
           (Inst 4)).
  - eauto.
  - reflexivity.
  - reflexivity.
Defined.


(** ** Traps *)

Section TrapProofs.
Import FunctionIR.
Variable IGM : IRGenModule.




End TrapProofs.





(** ** Running the instructions emitted *)

Section ExecProofs.
Import FunctionIR.
Variable IGM : IRGenModule.
Variable env : nat -> Z.
Variable memory : Z -> Z.

Local Abbreviation run := (FunctionIR.run IGM env memory).
Local Abbreviation exec := (FunctionIR.exec IGM env).
Local Abbreviation step := (FunctionIR.step IGM env).
Local Abbreviation valueOf := (FunctionIR.valueOf IGM env).

Lemma exec_app l1 : forall m l2,
  exec m (l1 ++ l2) = m' ← exec m l1; exec m' l2.
Proof.
  induction l1 as [|i l1 IH]; intros m l2; simpl; [reflexivity|].
  destruct (step m i); simpl; [apply IH|reflexivity].
Qed.

Lemma step_length m i m' :
  step m i = Some m' -> length (regs m') = S (length (regs m)).
Proof.
  unfold step, FunctionIR.compute, result, branch. intros H.
  destruct (goingTo m) as [dest|].
  - destruct i as [[] ty]; simpl in H; try destruct (Nat.eqb bb dest);
      injection H as <-; simpl; rewrite length_app; simpl; lia.
  - destruct i as [[] ty]; simpl in H;
      repeat match type of H with
             | context [valueOf ?m ?v] => destruct (valueOf m v); simpl in H
             | context [list_find ?P ?l] => destruct (list_find P l); simpl in H
             end; try discriminate; injection H as <-; simpl;
      rewrite length_app; simpl; lia.
Qed.

Lemma exec_length l : forall m m',
  exec m l = Some m' -> length (regs m') = (length (regs m) + length l)%nat.
Proof.
  induction l as [|i l IH]; intros m m'; simpl.
  - intros [= <-]. lia.
  - destruct (step m i) as [m1|] eqn:Hs; simpl; [|discriminate].
    intros H. rewrite (IH _ _ H), (step_length _ _ _ Hs). lia.
Qed.

(** The code the builder holds runs to [m], maybe on the way to a
    block. *)
Local Abbreviation reached B m :=
  (exec (mkMachine [] memory 0%nat 0%nat None) (Insts B) = Some m).
Local Abbreviation ranTo := (FunctionIR.ranTo IGM env memory).

Lemma ranTo_reached B m :
  ranTo B m <->
  reached B m /\ goingTo m = None /\ block m = InsertBlock B /\
  (InsertBlock B < NumBlocks B)%nat.
Proof.
  unfold FunctionIR.ranTo, FunctionIR.run. split.
  - intros (Hrun & Hb & Hn).
    destruct (exec _ (Insts B)) as [m0|]; simpl in Hrun; [|discriminate].
    destruct (goingTo m0) eqn:Hg; [discriminate|]. injection Hrun as ->.
    by repeat split.
  - intros (Hrun & Hg & Hb & Hn). rewrite Hrun. simpl. rewrite Hg.
    by repeat split.
Qed.

Lemma reached_length B m : reached B m -> length (regs m) = length (Insts B).
Proof. intros H. apply exec_length in H. simpl in H. exact H. Qed.

Lemma valueOf_grows m m' v x r :
  regs m' = regs m ++ [r] ->
  valueOf m v = Some x ->
  valueOf m' v = Some x.
Proof.
  intros Hr. destruct v as [| |n]; simpl; try done. rewrite Hr.
  destruct (regs m !! n) as [p|] eqn:Hn; simpl; [|discriminate].
  intros H. by rewrite (lookup_app_l_Some _ _ _ _ Hn).
Qed.

(** One more entry of the list of instructions, run or passed over. *)
Lemma advance B m i B' m' :
  reached B m ->
  Insts B' = Insts B ++ [i] ->
  step m i = Some m' ->
  reached B' m'.
Proof.
  intros Hrun HB' Hs. rewrite HB', exec_app, Hrun. simpl. by rewrite Hs.
Qed.

Lemma valueOf_new B m m' ty x :
  reached B m ->
  regs m' = regs m ++ [Some (ty, x)] ->
  valueOf m' (Inst (length (Insts B))) = Some x /\
  FunctionIR.typeOf m' (Inst (length (Insts B))) = ty.
Proof.
  intros Hrun Hr. apply reached_length in Hrun. simpl. rewrite Hr, <- Hrun.
  rewrite lookup_app_r by lia. by rewrite Nat.sub_diag.
Qed.

Lemma getType_Insert B i ty r B' :
  Insert i ty B = (r, B') ->
  getType B' r = ty /\
  (forall v, getType B v <> VoidTy -> getType B' v = getType B v).
Proof.
  intros [= <- <-]. split.
  - simpl. rewrite lookup_app_r by lia. by rewrite Nat.sub_diag.
  - intros [| |n]; simpl; try done.
    destruct (Insts B !! n) as [[i' ty']|] eqn:Hn; [|done].
    intros _. by rewrite (lookup_app_l_Some _ _ _ _ Hn).
Qed.

(** One more instruction, created and run. *)
Lemma Insert_ranTo B m i ty r B' x mem' :
  Insert i ty B = (r, B') ->
  ranTo B m ->
  FunctionIR.compute IGM env m (i, ty)
    = Some (mkMachine (regs m ++ [Some (ty, x)]) mem' (block m) (from m)
              None) ->
  exists m',
  ranTo B' m' /\
  mem m' = mem' /\
  valueOf m' r = Some x /\
  getType B' r = ty /\
  FunctionIR.typeOf m' r = ty /\
  (forall v y, valueOf m v = Some y -> valueOf m' v = Some y) /\
  (forall v, getType B v <> VoidTy -> getType B' v = getType B v).
Proof.
  intros E HB Hs. destruct (getType_Insert _ _ _ _ _ E) as [Ht Hkeep].
  apply ranTo_reached in HB as (Hrun & Hg & Hb & Hn).
  set (m' := mkMachine (regs m ++ [Some (ty, x)]) mem' (block m) (from m) None).
  destruct (valueOf_new B m m' ty x Hrun eq_refl) as [Hv Hty].
  injection E as <- <-.
  exists m'. repeat split; try assumption.
  - apply ranTo_reached. repeat split; try assumption.
    apply (advance B m (i, ty) (Insert i ty B).2 m' Hrun eq_refl).
    unfold FunctionIR.step. by rewrite Hg.
  - intros v y. by apply (valueOf_grows m m' v y (Some (ty, x))).
Qed.

Local Tactic Notation "ran" constr(E) constr(HB) constr(x) constr(mem')
    "as" simple_intropattern(p) "by" tactic3(t) :=
  destruct (Insert_ranTo _ _ _ _ _ _ x mem' E HB) as p;
  [unfold FunctionIR.compute, FunctionIR.result;
   cbn [fst snd mbind option_bind]; t; reflexivity|].

(** *** Branches and blocks *)

Lemma Insert_blocks B i ty r B' :
  Insert i ty B = (r, B') ->
  NumBlocks B' = NumBlocks B /\ InsertBlock B' = InsertBlock B /\
  Insts B' = Insts B ++ [(i, ty)].
Proof. by intros [= <- <-]. Qed.

(** A branch taken: the instructions that follow are passed over. *)
Lemma branch_taken B m i r B' dest :
  Insert i VoidTy B = (r, B') ->
  ranTo B m ->
  FunctionIR.compute IGM env m (i, VoidTy) = branch m dest ->
  exists m',
    reached B' m' /\ goingTo m' = Some dest /\
    mem m' = mem m /\ block m' = block m /\
    (forall v y, valueOf m v = Some y -> valueOf m' v = Some y).
Proof.
  intros E HB Hs. apply Insert_blocks in E as (_ & _ & HI).
  apply ranTo_reached in HB as (Hrun & Hg & Hb & Hn).
  set (m' := mkMachine (regs m ++ [None]) (mem m) (block m) (from m)
               (Some dest)).
  exists m'. repeat split.
  - apply (advance B m (i, VoidTy) B' m' Hrun HI).
    unfold FunctionIR.step. by rewrite Hg.
  - intros v y. by apply (valueOf_grows m m' v y None).
Qed.

(** An instruction or the mark of another block, passed over. *)
Lemma passed_over B m i B' dest :
  Insts B' = Insts B ++ [i] ->
  reached B m ->
  goingTo m = Some dest ->
  i.1 <> Label dest ->
  exists m',
    reached B' m' /\ goingTo m' = Some dest /\
    mem m' = mem m /\ block m' = block m /\
    (forall v y, valueOf m v = Some y -> valueOf m' v = Some y).
Proof.
  intros HI Hrun Hg Hne.
  set (m' := mkMachine (regs m ++ [None]) (mem m) (block m) (from m)
               (Some dest)).
  exists m'. repeat split.
  - apply (advance B m i B' m' Hrun HI).
    unfold FunctionIR.step. rewrite Hg.
    destruct i as [[] ty]; try reflexivity. simpl in *.
    destruct (Nat.eqb_spec bb dest) as [->|]; [done|reflexivity].
  - intros v y. by apply (valueOf_grows m m' v y None).
Qed.

(** The block a branch is going to, emitted: it is entered. *)
Lemma block_entered B m dest :
  reached B m ->
  goingTo m = Some dest ->
  (dest < NumBlocks B)%nat ->
  exists m',
    ranTo (emitBlock dest B) m' /\
    mem m' = mem m /\ from m' = block m /\
    (forall v y, valueOf m v = Some y -> valueOf m' v = Some y).
Proof.
  intros Hrun Hg Hlt.
  set (m' := mkMachine (regs m ++ [None]) (mem m) dest (block m) None).
  exists m'. split; [|split; [reflexivity|split; [reflexivity|]]].
  - apply ranTo_reached. repeat split; [|assumption].
    apply (advance B m (Label dest, VoidTy) (emitBlock dest B) m' Hrun eq_refl).
    unfold FunctionIR.step. rewrite Hg. simpl. by rewrite Nat.eqb_refl.
  - intros v y. by apply (valueOf_grows m m' v y None).
Qed.

(** A phi with its two incoming values is the instruction created with
    both. *)
Lemma CreatePHI_addIncoming ty v1 b1 v2 b2 B :
  let '(phi, B1) := CreatePHI ty B in
  (phi, addIncoming phi v2 b2 (addIncoming phi v1 b1 B1)) =
  Insert (PHI [(v1, b1); (v2, b2)]) ty B.
Proof.
  unfold CreatePHI, Insert, addIncoming. cbn [Insts NumTrapBarriers
    FailureMessages NumBlocks InsertBlock].
  f_equal. f_equal.
  rewrite !alter_app_r_alt by lia. rewrite !Nat.sub_diag. reflexivity.
Qed.

Lemma getType_grows B B' l v :
  Insts B' = Insts B ++ l ->
  getType B v <> VoidTy ->
  getType B' v = getType B v.
Proof.
  intros HI. destruct v as [| |n]; simpl; try done. rewrite HI.
  destruct (Insts B !! n) as [[i' ty']|] eqn:Hn; [|done].
  intros _. by rewrite (lookup_app_l_Some _ _ _ _ Hn).
Qed.

Lemma createBasicBlock_spec B bb B' m :
  createBasicBlock B = (bb, B') ->
  ranTo B m ->
  bb = NumBlocks B /\ NumBlocks B' = S (NumBlocks B) /\
  InsertBlock B' = InsertBlock B /\ ranTo B' m /\
  (forall v, getType B' v = getType B v).
Proof.
  intros [= <- <-] (Hrun & Hb & Hn). repeat split; try assumption.
  simpl. lia.
Qed.

Lemma valueOf_one m :
  0 < pointerBits IGM ->
  valueOf m (ConstantInt_get (IntPtrTy IGM) 1) = Some 1.
Proof.
  intros HW. unfold ConstantInt_get, IntPtrTy.
  cbn [FunctionIR.valueOf getIntegerBitWidth bitsOf].
  assert (1 < 2 ^ pointerBits IGM).
  { apply (Z.pow_gt_1 2); lia. }
  by rewrite !(Z.mod_small 1) by lia.
Qed.

Lemma compute_PHI m ty v1 b1 v2 b2 x :
  from m = b1 /\ valueOf m v1 = Some x \/
  from m = b2 /\ b1 <> b2 /\ valueOf m v2 = Some x ->
  FunctionIR.compute IGM env m (PHI [(v1, b1); (v2, b2)], ty) = result m ty x.
Proof.
  unfold FunctionIR.compute. cbn [fst snd list_find].
  intros [[Hf Hv]|(Hf & Hne & Hv)].
  - rewrite decide_True by (by rewrite Hf). simpl. by rewrite Hv.
  - rewrite decide_False by (simpl; rewrite Hf; congruence).
    rewrite decide_True by (by rewrite Hf). simpl. by rewrite Hv.
Qed.

(** The end of [emitLoadOfRelativeIndirectablePointer], from the value
    loaded: the two blocks and the phi. *)
Lemma relative_indirectable_tail B m value pointee (pointerAlignment : Z)
    val :
  ranTo B m ->
  valueOf m value = Some val ->
  getType B value = IntPtrTy IGM ->
  0 < pointerBits IGM ->
  let W := pointerBits IGM in
  let expectedType := PointerTy pointee in
  exists phi B' m',
    (let origBB := GetInsertBlock B in
     let '(directResult, B) := CreateIntToPtr value expectedType B in
     let one := ConstantInt_get (IntPtrTy IGM) 1 in
     let '(indirectBB, B) := createBasicBlock B in
     let '(contBB, B) := createBasicBlock B in
     let '(isIndirect, B) := CreateAnd value one B in
     let '(isIndirect, B) := CreateIsNotNull isIndirect B in
     let B := CreateCondBr isIndirect indirectBB contBB B in
     let B := emitBlock indirectBB B in
     let '(ptr, B) := CreateSub value one B in
     let '(ptr, B) := CreateIntToPtr ptr (PointerTy expectedType) B in
     let indirectAddr := mkAddress ptr pointerAlignment in
     let '(indirectResult, B) := CreateLoad indirectAddr B in
     let B := CreateBr contBB B in
     let B := emitBlock contBB B in
     let '(phi, B) := CreatePHI expectedType B in
     let B := addIncoming phi directResult origBB B in
     let B := addIncoming phi indirectResult indirectBB B in
     Some (phi, B)) = Some (phi, B') /\
    ranTo B' m' /\
    mem m' = mem m /\
    valueOf m' phi =
      Some (if Z.land val 1 =? 0 then val mod 2 ^ W
            else mem m ((val - 1) mod 2 ^ W mod 2 ^ W)).
Proof.
  intros HB Hval Hty HW W expectedType.
  assert (Hne : getType B value <> VoidTy) by (by rewrite Hty).
  pose proof (proj1 (ranTo_reached _ _) HB) as (_ & _ & Hblock & Horig).
  unfold GetInsertBlock, CreateIntToPtr, CreateAnd, CreateIsNotNull,
    CreateCondBr, CreateSub, CreateLoad, CreateBr.
  cbv zeta.
  destruct (Insert _ _ B) as [r1 B1] eqn:E1.
  ran E1 HB (val mod 2 ^ W) (mem m)
    as (m1 & HB1 & Hmem1 & Hv1 & Ht1 & Hm1 & Hg1 & Hk1) by rewrite Hval.
  destruct (Insert_blocks _ _ _ _ _ E1) as (HN1 & HI1 & _).
  destruct (createBasicBlock B1) as [indirectBB B2] eqn:C2.
  destruct (createBasicBlock_spec _ _ _ _ C2 HB1)
    as (Hind & HN2 & HI2 & HB2 & HT2).
  destruct (createBasicBlock B2) as [contBB B3] eqn:C3.
  destruct (createBasicBlock_spec _ _ _ _ C3 HB2)
    as (Hcont & HN3 & HI3 & HB3 & HT3).
  assert (Hty3 : getType B3 value = IntPtrTy IGM).
  { by rewrite HT3, HT2, (Hk1 _ Hne). }
  rewrite Hty3.
  destruct (Insert _ _ B3) as [r4 B4] eqn:E4.
  ran E4 HB3 (Z.land val 1) (mem m1)
    as (m4 & HB4 & Hmem4 & Hv4 & Ht4 & Hm4 & Hg4 & Hk4)
    by rewrite (Hg1 _ _ Hval), (valueOf_one m1 HW).
  destruct (Insert_blocks _ _ _ _ _ E4) as (HN4 & HI4 & _).
  destruct (Insert _ _ B4) as [r5 B5] eqn:E5.
  ran E5 HB4 (if Z.land val 1 =? 0 then 0 else 1) (mem m4)
    as (m5 & HB5 & Hmem5 & Hv5 & Ht5 & Hm5 & Hg5 & Hk5) by rewrite Hv4.
  destruct (Insert_blocks _ _ _ _ _ E5) as (HN5 & HI5 & _).
  assert (Hty4 : getType B4 value = IntPtrTy IGM).
  { rewrite (Hk4 value); [exact Hty3|by rewrite Hty3]. }
  assert (Hty5 : getType B5 value = IntPtrTy IGM).
  { rewrite (Hk5 value); [exact Hty4|by rewrite Hty4]. }
  assert (Hval5 := Hg5 _ _ (Hg4 _ _ (Hg1 _ _ Hval))).
  assert (Hdir5 := Hg5 _ _ (Hg4 _ _ Hv1)).
  pose proof (proj1 (ranTo_reached _ _) HB5) as (_ & _ & Hblock5 & _).
  destruct (Insert _ _ B5) as [r6 B6] eqn:E6. cbn [snd].
  destruct (branch_taken _ _ _ _ _
              (if (if Z.land val 1 =? 0 then 0 else 1) =? 0
               then contBB else indirectBB) E6 HB5)
    as (m6 & HR6 & Hgo6 & Hmem6 & Hblock6 & Hg6).
  { unfold FunctionIR.compute. cbn [fst snd]. rewrite Hv5. reflexivity. }
  destruct (Insert_blocks _ _ _ _ _ E6) as (HN6 & HI6 & HS6).
  (* the rest of the code, for the builder *)
  assert (Hty7 : getType (emitBlock indirectBB B6) value = IntPtrTy IGM).
  { rewrite <- Hty5.
    apply (getType_grows B5 _ [(CondBr r5 indirectBB contBB, VoidTy);
                               (Label indirectBB, VoidTy)]).
    - cbn [emitBlock Insts]. by rewrite HS6, <- app_assoc.
    - by rewrite Hty5. }
  rewrite Hty7.
  destruct (Insert _ _ (emitBlock indirectBB B6)) as [r8 B8] eqn:E8.
  destruct (Insert_blocks _ _ _ _ _ E8) as (HN8 & HI8 & HS8).
  destruct (Insert _ _ B8) as [r9 B9] eqn:E9.
  destruct (Insert_blocks _ _ _ _ _ E9) as (HN9 & HI9 & HS9).
  cbn [getAddress]. rewrite (proj1 (getType_Insert _ _ _ _ _ E9)).
  destruct (Insert _ _ B9) as [r10 B10] eqn:E10.
  destruct (Insert_blocks _ _ _ _ _ E10) as (HN10 & HI10 & HS10).
  destruct (Insert _ _ B10) as [r11 B11] eqn:E11. cbn [snd].
  destruct (Insert_blocks _ _ _ _ _ E11) as (HN11 & HI11 & HS11).
  pose proof (CreatePHI_addIncoming expectedType r1 (InsertBlock B) r10
                indirectBB (emitBlock contBB B11)) as E13.
  destruct (CreatePHI expectedType (emitBlock contBB B11)) as [phi B13].
  symmetry in E13.
  cbn [emitBlock NumBlocks InsertBlock] in HN8, HI8.
  assert (HcontN : (contBB < NumBlocks B11)%nat) by lia.
  assert (HindN : (indirectBB < NumBlocks B6)%nat) by lia.
  assert (Hdiff : indirectBB <> contBB) by lia.
  assert (Horig' : InsertBlock B <> indirectBB) by lia.
  destruct (Z.land val 1 =? 0) eqn:Hbit; cbn [Z.eqb] in Hgo6.
  - (* direct: the indirect block is passed over *)
    destruct (passed_over B6 m6 (Label indirectBB, VoidTy)
                (emitBlock indirectBB B6) contBB eq_refl HR6 Hgo6)
      as (m7 & HR7 & Hgo7 & Hmem7 & Hblock7 & Hg7).
    { cbn [fst]. congruence. }
    destruct (passed_over _ m7 _ B8 contBB HS8 HR7 Hgo7 ltac:(done))
      as (m8 & HR8 & Hgo8 & Hmem8 & Hblock8 & Hg8).
    destruct (passed_over _ m8 _ B9 contBB HS9 HR8 Hgo8 ltac:(done))
      as (m9 & HR9 & Hgo9 & Hmem9 & Hblock9 & Hg9).
    destruct (passed_over _ m9 _ B10 contBB HS10 HR9 Hgo9 ltac:(done))
      as (m10 & HR10 & Hgo10 & Hmem10 & Hblock10 & Hg10).
    destruct (passed_over _ m10 _ B11 contBB HS11 HR10 Hgo10 ltac:(done))
      as (m11 & HR11 & Hgo11 & Hmem11 & Hblock11 & Hg11).
    destruct (block_entered B11 m11 contBB HR11 Hgo11 HcontN)
      as (m12 & HB12 & Hmem12 & Hfrom12 & Hg12).
    destruct (Insert_ranTo _ _ _ _ _ _ (val mod 2 ^ W) (mem m12) E13 HB12)
      as (m13 & HB13 & Hmem13 & Hv13 & _).
    { apply compute_PHI. left. split.
      - rewrite Hfrom12, Hblock11, Hblock10, Hblock9, Hblock8, Hblock7,
          Hblock6, Hblock5. by rewrite HI5, HI4, HI3, HI2.
      - apply Hg12, Hg11, Hg10, Hg9, Hg8, Hg7, Hg6, Hdir5. }
    eexists _, _, m13. split; [reflexivity|]. split; [exact HB13|].
    split; [|exact Hv13]. congruence.
  - (* indirect: one more load *)
    destruct (block_entered B6 m6 indirectBB HR6 Hgo6 HindN)
      as (m7 & HB7 & Hmem7 & Hfrom7 & Hg7).
    assert (Hval7 := Hg7 _ _ (Hg6 _ _ Hval5)).
    ran E8 HB7 ((val - 1) mod 2 ^ W) (mem m7)
      as (m8 & HB8 & Hmem8 & Hv8 & Ht8 & Hm8 & Hg8 & Hk8)
      by rewrite Hval7, (valueOf_one m7 HW).
    ran E9 HB8 ((val - 1) mod 2 ^ W mod 2 ^ W) (mem m8)
      as (m9 & HB9 & Hmem9 & Hv9 & Ht9 & Hm9 & Hg9 & Hk9) by rewrite Hv8.
    ran E10 HB9 (mem m9 ((val - 1) mod 2 ^ W mod 2 ^ W)) (mem m9)
      as (m10 & HB10 & Hmem10 & Hv10 & Ht10 & Hm10 & Hg10 & Hk10)
      by rewrite Hv9.
    destruct (branch_taken _ _ _ _ _ contBB E11 HB10)
      as (m11 & HR11 & Hgo11 & Hmem11 & Hblock11 & Hg11).
    { reflexivity. }
    destruct (block_entered B11 m11 contBB HR11 Hgo11 HcontN)
      as (m12 & HB12 & Hmem12 & Hfrom12 & Hg12).
    pose proof (proj1 (ranTo_reached _ _) HB10) as (_ & _ & Hblock10 & _).
    destruct (Insert_ranTo _ _ _ _ _ _
                (mem m9 ((val - 1) mod 2 ^ W mod 2 ^ W)) (mem m12) E13 HB12)
      as (m13 & HB13 & Hmem13 & Hv13 & _).
    { apply compute_PHI. right. split; [|split; [exact Horig'|]].
      - by rewrite Hfrom12, Hblock11, Hblock10, HI10, HI9.
      - apply Hg12, Hg11, Hv10. }
    eexists _, _, m13. split; [reflexivity|]. split; [exact HB13|].
    split; [congruence|].
    rewrite Hv13, Hmem9, Hmem8, Hmem7, Hmem6, Hmem5, Hmem4, Hmem1.
    reflexivity.
Qed.


(** The end of [emitLoadOfRelativePointer]: the address is added to the
    offset loaded. *)
Lemma relative_load_addition B m value addr expectedType
    (pointerAlignment : Z) x a :
  ranTo B m ->
  valueOf m value = Some x ->
  valueOf m addr = Some a ->
  let W := pointerBits IGM in
  exists pointer B' m',
    (let '(addrInt, B) := CreatePtrToInt addr (IntPtrTy IGM) B in
     let '(uncastPointerInt, B) := CreateAdd addrInt value B in
     let '(uncastPointer, B) := CreateIntToPtr uncastPointerInt Int8PtrTy B in
     let uncastPointerAddress := mkAddress uncastPointer pointerAlignment in
     let '(pointer, B) :=
       CreateBitCast (getAddress uncastPointerAddress) expectedType B in
     Some (pointer, B)) = Some (pointer, B') /\
    ranTo B' m' /\
    valueOf m' pointer = Some ((a mod 2 ^ W + x) mod 2 ^ W mod 2 ^ W).
Proof.
  intros HB Hx Ha W.
  unfold CreatePtrToInt, CreateAdd, CreateIntToPtr, CreateBitCast.
  destruct (Insert _ _ B) as [r1 B1] eqn:E1.
  ran E1 HB (a mod 2 ^ W) (mem m)
    as (m1 & HB1 & Hmem1 & Hv1 & Ht1 & Hm1 & Hg1 & Hk1) by rewrite Ha.
  rewrite Ht1.
  destruct (Insert _ _ B1) as [r2 B2] eqn:E2.
  ran E2 HB1 ((a mod 2 ^ W + x) mod 2 ^ W) (mem m1)
    as (m2 & HB2 & Hmem2 & Hv2 & Ht2 & Hm2 & Hg2 & Hk2)
    by rewrite Hv1, (Hg1 _ _ Hx).
  destruct (Insert _ _ B2) as [r3 B3] eqn:E3.
  ran E3 HB2 ((a mod 2 ^ W + x) mod 2 ^ W mod 2 ^ W) (mem m2)
    as (m3 & HB3 & Hmem3 & Hv3 & Ht3 & Hm3 & Hg3 & Hk3) by rewrite Hv2.
  cbn [getAddress].
  destruct (Insert _ _ B3) as [r4 B4] eqn:E4.
  ran E4 HB3 ((a mod 2 ^ W + x) mod 2 ^ W mod 2 ^ W) (mem m3)
    as (m4 & HB4 & Hmem4 & Hv4 & Ht4 & Hm4 & Hg4 & Hk4) by rewrite Hv3.
  exists r4, B4, m4. split; [reflexivity|split; assumption].
Qed.

(** What the store and the load of a relative pointer compute. *)
Lemma relative_store_load_runs B m value addr (isFar : bool) expectedType
    pointerAlignment v a :
  ranTo B m ->
  valueOf m value = Some v ->
  valueOf m (getAddress addr) = Some a ->
  getType B (getAddress addr) =
    PointerTy (if isFar then FarRelativeAddressTy IGM
               else RelativeAddressTy IGM) ->
  let W := pointerBits IGM in
  let R := relativeBits IGM in
  let difference := (v mod 2 ^ W - a mod 2 ^ W) mod 2 ^ W in
  let loaded :=
    if isFar then difference
    else signed R (difference mod 2 ^ R) mod 2 ^ W in
  exists pointer B' m',
    emitLoadOfRelativePointer IGM addr isFar expectedType pointerAlignment
      (emitStoreOfRelativeIndirectablePointer IGM value addr isFar B)
      = Some (pointer, B') /\
    ranTo B' m' /\
    valueOf m' pointer = Some ((a mod 2 ^ W + loaded) mod 2 ^ W mod 2 ^ W).
Proof.
  intros HB Hv Ha Hty W R difference loaded.
  assert (Hne : getType B (getAddress addr) <> VoidTy) by (by rewrite Hty).
  unfold emitStoreOfRelativeIndirectablePointer, emitLoadOfRelativePointer.
  unfold CreatePtrToInt at 1 2, CreateSub, CreateTrunc, CreateStore,
    CreateLoad, CreateSExt.
  destruct (Insert _ _ B) as [r1 B1] eqn:E1.
  ran E1 HB (v mod 2 ^ W) (mem m)
    as (m1 & HB1 & Hmem1 & Hv1 & Ht1 & Hm1 & Hg1 & Hk1) by rewrite Hv.
  pose proof (Hk1 _ Hne) as Hk1a.
  destruct (Insert _ _ B1) as [r2 B2] eqn:E2.
  ran E2 HB1 (a mod 2 ^ W) (mem m1)
    as (m2 & HB2 & Hmem2 & Hv2 & Ht2 & Hm2 & Hg2 & Hk2)
    by rewrite (Hg1 _ _ Ha).
  assert (Hne1 : getType B1 (getAddress addr) <> VoidTy) by (by rewrite Hk1a).
  pose proof (Hk2 _ Hne1) as Hk2a.
  assert (Hty3 : getType B2 r1 = IntPtrTy IGM).
  { rewrite <- Ht1. apply Hk2. by rewrite Ht1. }
  rewrite Hty3.
  destruct (Insert _ _ B2) as [r3 B3] eqn:E3.
  ran E3 HB2 difference (mem m2)
    as (m3 & HB3 & Hmem3 & Hv3 & Ht3 & Hm3 & Hg3 & Hk3)
    by rewrite (Hg2 _ _ Hv1), Hv2.
  assert (Hne2 : getType B2 (getAddress addr) <> VoidTy)
    by (by rewrite Hk2a).
  pose proof (Hk3 _ Hne2) as Hk3a.
  assert (Ha3 := Hg3 _ _ (Hg2 _ _ (Hg1 _ _ Ha))).
  assert (HT3 : getType B3 (getAddress addr) =
                PointerTy (if isFar then FarRelativeAddressTy IGM
                           else RelativeAddressTy IGM))
    by (by rewrite Hk3a, Hk2a, Hk1a).
  assert (Hne3 : getType B3 (getAddress addr) <> VoidTy) by (by rewrite HT3).
  destruct isFar; cbn [negb].
  - (* far *)
    destruct (Insert _ _ B3) as [r4 B4] eqn:E4.
    ran E4 HB3 0 (fun a' => if a' =? a then difference else mem m3 a')
      as (m4 & HB4 & Hmem4 & Hv4 & Ht4 & Hm4 & Hg4 & Hk4) by rewrite Hv3, Ha3.
    cbn [snd].
    pose proof (Hk4 _ Hne3) as Hk4a.
    rewrite Hk4a, HT3.
    destruct (Insert _ _ B4) as [r5 B5] eqn:E5.
    ran E5 HB4 difference (mem m4)
      as (m5 & HB5 & Hmem5 & Hv5 & Ht5 & Hm5 & Hg5 & Hk5)
      by (rewrite (Hg4 _ _ Ha3); cbn [mbind option_bind option_ret mret];
          rewrite Hmem4; cbv beta; rewrite Z.eqb_refl).
    rewrite Ht5. unfold FarRelativeAddressTy, IntPtrTy.
    cbn [Ty_eqb]. rewrite Z.eqb_refl. cbn [llvm_assert mbind option_bind].
    apply (relative_load_addition B5 m5 r5 (getAddress addr) expectedType
             pointerAlignment difference a HB5 Hv5).
    apply Hg5, Hg4, Ha3.
  - (* near *)
    destruct (Insert _ _ B3) as [r4 B4] eqn:E4.
    ran E4 HB3 (difference mod 2 ^ R) (mem m3)
      as (m4 & HB4 & Hmem4 & Hv4 & Ht4 & Hm4 & Hg4 & Hk4) by rewrite Hv3.
    pose proof (Hk4 _ Hne3) as Hk4a.
    assert (Ha4 := Hg4 _ _ Ha3).
    destruct (Insert _ _ B4) as [r5 B5] eqn:E5.
    ran E5 HB4 0 (fun a' => if a' =? a then difference mod 2 ^ R
                            else mem m4 a')
      as (m5 & HB5 & Hmem5 & Hv5 & Ht5 & Hm5 & Hg5 & Hk5) by rewrite Hv4, Ha4.
    cbn [snd].
    assert (Hne4 : getType B4 (getAddress addr) <> VoidTy)
      by (by rewrite Hk4a, HT3).
    pose proof (Hk5 _ Hne4) as Hk5a.
    rewrite Hk5a, Hk4a, HT3.
    destruct (Insert _ _ B5) as [r6 B6] eqn:E6.
    ran E6 HB5 (difference mod 2 ^ R) (mem m5)
      as (m6 & HB6 & Hmem6 & Hv6 & Ht6 & Hm6 & Hg6 & Hk6)
      by (rewrite (Hg5 _ _ Ha4); cbn [mbind option_bind option_ret mret];
          rewrite Hmem5; cbv beta; rewrite Z.eqb_refl).
    rewrite Ht6. unfold RelativeAddressTy at 1 2.
    cbn [Ty_eqb]. rewrite Z.eqb_refl. cbn [llvm_assert mbind option_bind].
    destruct (Insert _ _ B6) as [r7 B7] eqn:E7.
    ran E7 HB6 (signed R (difference mod 2 ^ R) mod 2 ^ W) (mem m6)
      as (m7 & HB7 & Hmem7 & Hv7 & Ht7 & Hm7 & Hg7 & Hk7)
      by rewrite Hv6, Hm6.
    apply (relative_load_addition B7 m7 r7 (getAddress addr) expectedType
             pointerAlignment _ a HB7 Hv7).
    apply Hg7, Hg6, Hg5, Ha4.
Qed.
(** The code of [emitStoreOfRelativeIndirectablePointer], run. *)
Lemma relative_store_runs B m value addr (isFar : bool) v a :
  ranTo B m ->
  valueOf m value = Some v ->
  valueOf m (getAddress addr) = Some a ->
  let W := pointerBits IGM in
  let R := relativeBits IGM in
  let difference := (v mod 2 ^ W - a mod 2 ^ W) mod 2 ^ W in
  let stored := if isFar then difference else difference mod 2 ^ R in
  exists m',
    ranTo (emitStoreOfRelativeIndirectablePointer IGM value addr isFar B) m' /\
    mem m' = (fun a' => if a' =? a then stored else mem m a') /\
    (forall u y, valueOf m u = Some y -> valueOf m' u = Some y) /\
    (forall u, getType B u <> VoidTy ->
       getType (emitStoreOfRelativeIndirectablePointer IGM value addr isFar B)
         u = getType B u).
Proof.
  intros HB Hv Ha W R difference stored.
  unfold emitStoreOfRelativeIndirectablePointer.
  unfold CreatePtrToInt, CreateSub, CreateTrunc, CreateStore.
  destruct (Insert _ _ B) as [r1 B1] eqn:E1.
  ran E1 HB (v mod 2 ^ W) (mem m)
    as (m1 & HB1 & Hmem1 & Hv1 & Ht1 & Hm1 & Hg1 & Hk1) by rewrite Hv.
  destruct (Insert _ _ B1) as [r2 B2] eqn:E2.
  ran E2 HB1 (a mod 2 ^ W) (mem m1)
    as (m2 & HB2 & Hmem2 & Hv2 & Ht2 & Hm2 & Hg2 & Hk2)
    by rewrite (Hg1 _ _ Ha).
  assert (Hty3 : getType B2 r1 = IntPtrTy IGM).
  { rewrite <- Ht1. apply Hk2. by rewrite Ht1. }
  rewrite Hty3.
  destruct (Insert _ _ B2) as [r3 B3] eqn:E3.
  ran E3 HB2 difference (mem m2)
    as (m3 & HB3 & Hmem3 & Hv3 & Ht3 & Hm3 & Hg3 & Hk3)
    by rewrite (Hg2 _ _ Hv1), Hv2.
  assert (Ha3 := Hg3 _ _ (Hg2 _ _ (Hg1 _ _ Ha))).
  assert (Hkeep3 : forall u, getType B u <> VoidTy ->
            getType B3 u = getType B u).
  { intros u Hu.
    assert (H1 : getType B1 u = getType B u) by (by apply Hk1).
    assert (H2 : getType B2 u = getType B u)
      by (rewrite <- H1; apply Hk2; by rewrite H1).
    rewrite <- H2. apply Hk3. by rewrite H2. }
  destruct isFar; cbn [negb].
  - destruct (Insert _ _ B3) as [r4 B4] eqn:E4.
    ran E4 HB3 0 (fun a' => if a' =? a then difference else mem m3 a')
      as (m4 & HB4 & Hmem4 & Hv4 & Ht4 & Hm4 & Hg4 & Hk4) by rewrite Hv3, Ha3.
    cbn [snd]. exists m4. split; [exact HB4|]. split; [|split].
    + rewrite Hmem4, Hmem3, Hmem2, Hmem1. reflexivity.
    + intros u y Hu. apply Hg4, Hg3, Hg2, Hg1, Hu.
    + intros u Hu. rewrite <- (Hkeep3 u Hu). apply Hk4.
      by rewrite (Hkeep3 u Hu).
  - destruct (Insert _ _ B3) as [r4 B4] eqn:E4.
    ran E4 HB3 (difference mod 2 ^ R) (mem m3)
      as (m4 & HB4 & Hmem4 & Hv4 & Ht4 & Hm4 & Hg4 & Hk4) by rewrite Hv3.
    assert (Ha4 := Hg4 _ _ Ha3).
    destruct (Insert _ _ B4) as [r5 B5] eqn:E5.
    ran E5 HB4 0 (fun a' => if a' =? a then difference mod 2 ^ R
                            else mem m4 a')
      as (m5 & HB5 & Hmem5 & Hv5 & Ht5 & Hm5 & Hg5 & Hk5) by rewrite Hv4, Ha4.
    cbn [snd]. exists m5. split; [exact HB5|]. split; [|split].
    + rewrite Hmem5, Hmem4, Hmem3, Hmem2, Hmem1. reflexivity.
    + intros u y Hu. apply Hg5, Hg4, Hg3, Hg2, Hg1, Hu.
    + intros u Hu.
      assert (H4 : getType B4 u = getType B u)
        by (rewrite <- (Hkeep3 u Hu); apply Hk4; by rewrite (Hkeep3 u Hu)).
      rewrite <- H4. apply Hk5. by rewrite H4.
Qed.

Lemma Ty_eqb_refl ty : Ty_eqb ty ty = true.
Proof. induction ty; simpl; [apply Z.eqb_refl|assumption|reflexivity]. Qed.

(** The code of [emitLoadOfRelativeIndirectablePointer], run. *)
Lemma relative_indirectable_load_runs B m addr (isFar : bool) pointee
    (pointerAlignment : Z) a :
  ranTo B m ->
  valueOf m (getAddress addr) = Some a ->
  getType B (getAddress addr) =
    PointerTy (if isFar then FarRelativeAddressTy IGM
               else RelativeAddressTy IGM) ->
  0 < pointerBits IGM ->
  let W := pointerBits IGM in
  let R := relativeBits IGM in
  let value := if isFar then mem m a else signed R (mem m a) mod 2 ^ W in
  exists phi B' m',
    emitLoadOfRelativeIndirectablePointer IGM addr isFar (PointerTy pointee)
      pointerAlignment B = Some (phi, B') /\
    ranTo B' m' /\
    mem m' = mem m /\
    valueOf m' phi =
      Some (if Z.land value 1 =? 0 then value mod 2 ^ W
            else mem m ((value - 1) mod 2 ^ W mod 2 ^ W)).
Proof.
  intros HB Ha Hty HW W R value.
  unfold emitLoadOfRelativeIndirectablePointer.
  unfold CreateLoad at 1. unfold CreateSExt. rewrite Hty.
  destruct (Insert _ _ B) as [r1 B1] eqn:E1.
  ran E1 HB (mem m a) (mem m)
    as (m1 & HB1 & Hmem1 & Hv1 & Ht1 & Hm1 & Hg1 & Hk1) by rewrite Ha.
  rewrite Ht1.
  destruct isFar; cbn [negb].
  - rewrite Ty_eqb_refl. cbn [llvm_assert mbind option_bind].
    rewrite Ht1. unfold FarRelativeAddressTy. rewrite Ty_eqb_refl.
    cbn [llvm_assert mbind option_bind].
    destruct (relative_indirectable_tail B1 m1 r1 pointee pointerAlignment
                (mem m a) HB1 Hv1 Ht1 HW)
      as (phi & B' & m' & He & HB' & Hmem' & Hphi).
    exists phi, B', m'. split; [exact He|]. split; [exact HB'|].
    split; [congruence|]. by rewrite Hphi, Hmem1.
  - rewrite Ty_eqb_refl. cbn [llvm_assert mbind option_bind].
    destruct (Insert _ _ B1) as [r2 B2] eqn:E2.
    ran E2 HB1 (signed R (mem m a) mod 2 ^ W) (mem m1)
      as (m2 & HB2 & Hmem2 & Hv2 & Ht2 & Hm2 & Hg2 & Hk2)
      by rewrite Hv1, Hm1.
    rewrite Ht2, Ty_eqb_refl. cbn [llvm_assert mbind option_bind].
    destruct (relative_indirectable_tail B2 m2 r2 pointee pointerAlignment
                _ HB2 Hv2 Ht2 HW)
      as (phi & B' & m' & He & HB' & Hmem' & Hphi).
    exists phi, B', m'. split; [exact He|]. split; [exact HB'|].
    split; [congruence|]. by rewrite Hphi, Hmem2, Hmem1.
Qed.
End ExecProofs.

(** ** Relative pointers *)

Section SignedProofs.
Import FunctionIR.

Lemma pow2_half bits : 0 < bits -> 2 ^ bits = 2 * 2 ^ (bits - 1).
Proof.
  intros H. rewrite <- Z.pow_succ_r by lia. f_equal. lia.
Qed.

Lemma signed_spec bits x :
  0 < bits -> 0 <= x < 2 ^ bits ->
  - 2 ^ (bits - 1) <= signed bits x < 2 ^ (bits - 1) /\
  signed bits x mod 2 ^ bits = x.
Proof.
  intros Hb Hx. pose proof (pow2_half bits Hb) as Hp. unfold signed.
  destruct (Z.ltb_spec x (2 ^ (bits - 1))).
  - split; [lia|]. apply Z.mod_small. lia.
  - split; [lia|].
    replace (x - 2 ^ bits) with (x + (-1) * 2 ^ bits) by lia.
    rewrite Z_mod_plus_full. apply Z.mod_small. lia.
Qed.

(** Two numbers of the same signed window that agree modulo its size are
    equal. *)
Lemma window_unique h x y :
  0 < h -> - h <= x < h -> - h <= y < h ->
  x mod (2 * h) = y mod (2 * h) -> x = y.
Proof.
  intros Hh Hx Hy Heq. apply Z.cong_iff_ex in Heq as [n Hn].
  destruct (Z.lt_trichotomy n 0) as [Hlt|[->|Hgt]]; [nia|lia|nia].
Qed.

Lemma relative_round_trip_far W v a :
  0 < W -> 0 <= v < 2 ^ W -> 0 <= a < 2 ^ W ->
  (a mod 2 ^ W + (v mod 2 ^ W - a mod 2 ^ W) mod 2 ^ W) mod 2 ^ W mod 2 ^ W
    = v.
Proof.
  intros HW Hv Ha. rewrite Z.mod_mod by lia.
  rewrite (Z.mod_small v), (Z.mod_small a) by lia.
  rewrite Zplus_mod_idemp_r. replace (a + (v - a)) with v by lia.
  apply Z.mod_small. lia.
Qed.

Lemma relative_round_trip_near W R v a :
  0 < R <= W -> 0 <= v < 2 ^ W -> 0 <= a < 2 ^ W ->
  let difference := (v mod 2 ^ W - a mod 2 ^ W) mod 2 ^ W in
  (a mod 2 ^ W + signed R (difference mod 2 ^ R) mod 2 ^ W) mod 2 ^ W
     mod 2 ^ W = v <->
  - 2 ^ (R - 1) <= signed W ((v - a) mod 2 ^ W) < 2 ^ (R - 1).
Proof.
  intros HR Hv Ha difference. subst difference.
  rewrite (Z.mod_small v), (Z.mod_small a) by lia.
  set (D := (v - a) mod 2 ^ W).
  assert (HM : 0 < 2 ^ W) by (apply Z.pow_pos_nonneg; lia).
  assert (HP : 0 < 2 ^ R) by (apply Z.pow_pos_nonneg; lia).
  assert (HD : 0 <= D < 2 ^ W) by (apply Z.mod_pos_bound; lia).
  assert (Hsplit : 2 ^ W = 2 ^ R * 2 ^ (W - R)).
  { rewrite <- Z.pow_add_r by lia. f_equal. lia. }
  assert (HQ : 0 < 2 ^ (W - R)) by (apply Z.pow_pos_nonneg; lia).
  assert (Hh : 0 < 2 ^ (R - 1)) by (apply Z.pow_pos_nonneg; lia).
  pose proof (pow2_half R ltac:(lia)) as HhR.
  pose proof (pow2_half W ltac:(lia)) as HhW.
  assert (Hle : 2 ^ (R - 1) <= 2 ^ (W - 1)) by (apply Z.pow_le_mono_r; lia).
  destruct (signed_spec W D ltac:(lia) HD) as [HsW HsWm].
  assert (Ht : 0 <= D mod 2 ^ R < 2 ^ R) by (apply Z.mod_pos_bound; lia).
  destruct (signed_spec R (D mod 2 ^ R) ltac:(lia) Ht) as [HsR HsRm].
  set (sR := signed R (D mod 2 ^ R)) in *.
  set (sW := signed W D) in *.
  rewrite Z.mod_mod by lia. rewrite Zplus_mod_idemp_r.
  assert (Hvv : v = (a + D) mod 2 ^ W).
  { unfold D. rewrite Zplus_mod_idemp_r. replace (a + (v - a)) with v by lia.
    symmetry. apply Z.mod_small. lia. }
  split.
  - intros Hp. pose proof (eq_trans Hp Hvv) as Hp'. clear Hp.
    rename Hp' into Hp.
    apply Z.cong_iff_0 in Hp. replace (a + sR - (a + D)) with (sR - D) in Hp by lia.
    apply Z.cong_iff_0 in Hp. rewrite <- HsWm in Hp.
    rewrite Z.mod_mod in Hp by lia.
    assert (sR = sW).
    { apply (window_unique (2 ^ (W - 1))); try lia. by rewrite <- HhW. }
    lia.
  - intros Hrange.
    assert (sR = sW).
    { apply (window_unique (2 ^ (R - 1))); try lia. rewrite <- HhR, HsRm.
      assert (HsW' : sW = D \/ sW = D + (-1 * 2 ^ (W - R)) * 2 ^ R).
      { unfold sW, signed. destruct (D <? 2 ^ (W - 1)); [by left|right]. lia. }
      destruct HsW' as [->| ->]; [reflexivity|].
      by rewrite Z_mod_plus_full. }
    refine (eq_trans _ (eq_sym Hvv)). apply Z.cong_iff_0.
    replace (a + sR - (a + D)) with (sR - D) by lia.
    apply Z.cong_iff_0. rewrite H, HsWm. by rewrite Z.mod_small by lia.
Qed.
Lemma mod_pow2_mod_pow2 x a b :
  0 <= b <= a -> x mod 2 ^ a mod 2 ^ b = x mod 2 ^ b.
Proof.
  intros H. symmetry. apply Z.cong_iff_ex.
  exists (x / 2 ^ a * 2 ^ (a - b)).
  assert (Hs : 2 ^ a = 2 ^ (a - b) * 2 ^ b).
  { rewrite <- Z.pow_add_r by lia. f_equal. lia. }
  assert (Ha : 0 < 2 ^ a) by (apply Z.pow_pos_nonneg; lia).
  pose proof (Z.div_mod x (2 ^ a) ltac:(lia)) as Hdm.
  rewrite <- Z.mul_assoc, <- Hs. lia.
Qed.

(** A signed number of [W] bits that fits [R] bits is read the same from
    its low [R] bits. *)
Lemma signed_narrow W R D :
  0 < R <= W -> 0 <= D < 2 ^ W ->
  - 2 ^ (R - 1) <= signed W D < 2 ^ (R - 1) ->
  signed R (D mod 2 ^ R) = signed W D.
Proof.
  intros HR HD Hfit.
  assert (HP : 0 < 2 ^ R) by (apply Z.pow_pos_nonneg; lia).
  assert (Hh : 0 < 2 ^ (R - 1)) by (apply Z.pow_pos_nonneg; lia).
  pose proof (pow2_half R ltac:(lia)) as HhR.
  assert (Ht : 0 <= D mod 2 ^ R < 2 ^ R) by (apply Z.mod_pos_bound; lia).
  destruct (signed_spec W D ltac:(lia) HD) as [HsW HsWm].
  destruct (signed_spec R (D mod 2 ^ R) ltac:(lia) Ht) as [HsR HsRm].
  apply (window_unique (2 ^ (R - 1))); try lia.
  rewrite <- HhR, HsRm. rewrite <- HsWm at 1.
  by rewrite mod_pow2_mod_pow2 by lia.
Qed.
End SignedProofs.

(** X18: a pointer stored with [emitStoreOfRelativeIndirectablePointer]
    and loaded back from the same address with [emitLoadOfRelativePointer]
    is the pointer stored exactly when the reference is far, or the
    distance from the address to the pointer, as a signed number of the
    width of a pointer, fits the relative address type. *)
Theorem relative_pointer_round_trip (IGM : FunctionIR.IRGenModule)
    (env : nat -> Z) (memory : Z -> Z) (B : FunctionIR.IRBuilder)
    (m : FunctionIR.Machine) (value : FunctionIR.Value)
    (addr : FunctionIR.Address) (isFar : bool)
    (expectedType : FunctionIR.Ty) (pointerAlignment v a : Z) :
  let W := FunctionIR.pointerBits IGM in
  let R := FunctionIR.relativeBits IGM in
  0 < R <= W ->
  FunctionIR.ranTo IGM env memory B m ->
  FunctionIR.valueOf IGM env m value = Some v ->
  0 <= v < 2 ^ W ->
  FunctionIR.valueOf IGM env m (FunctionIR.getAddress addr) = Some a ->
  0 <= a < 2 ^ W ->
  FunctionIR.getType B (FunctionIR.getAddress addr) =
    FunctionIR.PointerTy
      (if isFar then FunctionIR.FarRelativeAddressTy IGM
       else FunctionIR.RelativeAddressTy IGM) ->
  exists pointer B' m' p,
    FunctionIR.emitLoadOfRelativePointer IGM addr isFar expectedType
      pointerAlignment
      (FunctionIR.emitStoreOfRelativeIndirectablePointer IGM value addr
         isFar B) = Some (pointer, B') /\
    FunctionIR.ranTo IGM env memory B' m' /\
    FunctionIR.valueOf IGM env m' pointer = Some p /\
    (p = v <->
     isFar = true \/
     - 2 ^ (R - 1) <= FunctionIR.signed W ((v - a) mod 2 ^ W) < 2 ^ (R - 1)).
Proof.
  intros W R HR HB Hv Hvr Ha Har Hty.
  destruct (relative_store_load_runs IGM env memory B m value addr isFar
              expectedType pointerAlignment v a HB Hv Ha Hty)
    as (pointer & B' & m' & Hemit & HB' & Hp).
  exists pointer, B', m'. eexists. split; [exact Hemit|].
  split; [exact HB'|]. split; [exact Hp|].
  destruct isFar.
  - split; [by left|]. intros _.
    apply relative_round_trip_far; [fold W; lia|assumption|assumption].
  - etrans; [by apply relative_round_trip_near|].
    split; [by right|]. by intros [?|?].
Qed.

Lemma relative_pointer_round_trip_witness :
  exists pointer B' m' p,
    FunctionIR.emitLoadOfRelativePointer Cases.optimizing Cases.relativeField
      false FunctionIR.Int8PtrTy 8
      (FunctionIR.emitStoreOfRelativeIndirectablePointer Cases.optimizing
         (FunctionIR.Argument 0 FunctionIR.Int8PtrTy) Cases.relativeField
         false FunctionIR.emptyBuilder) = Some (pointer, B') /\
    FunctionIR.ranTo Cases.optimizing Cases.arguments (fun _ => 0) B' m' /\
    FunctionIR.valueOf Cases.optimizing Cases.arguments m' pointer = Some p /\
    (p = 4160 <->
     false = true \/
     - 2 ^ (32 - 1) <= FunctionIR.signed 64 ((4160 - 4096) mod 2 ^ 64)
       < 2 ^ (32 - 1)).
Proof.
  apply (relative_pointer_round_trip Cases.optimizing Cases.arguments
           (fun _ => 0) FunctionIR.emptyBuilder
           (FunctionIR.mkMachine [] (fun _ => 0) 0%nat 0%nat None)
           (FunctionIR.Argument 0 FunctionIR.Int8PtrTy) Cases.relativeField
           false FunctionIR.Int8PtrTy 8 4160 4096).
  - simpl. lia.
  - split; [reflexivity|]. split; [reflexivity|]. simpl. lia.
  - reflexivity.
  - simpl. lia.
  - reflexivity.
  - simpl. lia.
  - reflexivity.
Defined.




(** X20: a pointer stored with [emitStoreOfRelativeIndirectablePointer]
    and loaded back from the same address with
    [emitLoadOfRelativeIndirectablePointer] does not come back: for a
    pointer at an even distance from the address, which fits the
    relative address type unless the reference is far, the value loaded
    is the distance from the address to the pointer, which is the
    pointer only when the address is 0. *)
Theorem relative_indirectable_store_load_gives_distance
    (IGM : FunctionIR.IRGenModule) (env : nat -> Z) (memory : Z -> Z)
    (B : FunctionIR.IRBuilder) (m : FunctionIR.Machine)
    (value : FunctionIR.Value) (addr : FunctionIR.Address) (isFar : bool)
    (pointee : FunctionIR.Ty) (pointerAlignment v a : Z) :
  let W := FunctionIR.pointerBits IGM in
  let R := FunctionIR.relativeBits IGM in
  0 < R <= W ->
  FunctionIR.ranTo IGM env memory B m ->
  FunctionIR.valueOf IGM env m value = Some v ->
  0 <= v < 2 ^ W ->
  FunctionIR.valueOf IGM env m (FunctionIR.getAddress addr) = Some a ->
  0 <= a < 2 ^ W ->
  FunctionIR.getType B (FunctionIR.getAddress addr) =
    FunctionIR.PointerTy
      (if isFar then FunctionIR.FarRelativeAddressTy IGM
       else FunctionIR.RelativeAddressTy IGM) ->
  isFar = true \/
  - 2 ^ (R - 1) <= FunctionIR.signed W ((v - a) mod 2 ^ W) < 2 ^ (R - 1) ->
  Z.even (v - a) = true ->
  exists pointer B' m',
    FunctionIR.emitLoadOfRelativeIndirectablePointer IGM addr isFar
      (FunctionIR.PointerTy pointee) pointerAlignment
      (FunctionIR.emitStoreOfRelativeIndirectablePointer IGM value addr
         isFar B) = Some (pointer, B') /\
    FunctionIR.ranTo IGM env memory B' m' /\
    FunctionIR.valueOf IGM env m' pointer = Some ((v - a) mod 2 ^ W) /\
    ((v - a) mod 2 ^ W = v <-> a = 0).
Proof.
  intros W R HR HB Hv Hvr Ha Har Hty Hfit Heven. subst W R.
  assert (HP : 0 < 2 ^ FunctionIR.pointerBits IGM) by (apply Z.pow_pos_nonneg; lia).
  destruct (relative_store_runs IGM env memory B m value addr isFar v a
              HB Hv Ha) as (m1 & HB1 & Hmem1 & Hg1 & Hk1).
  assert (Hty1 : FunctionIR.getType
                   (FunctionIR.emitStoreOfRelativeIndirectablePointer IGM
                      value addr isFar B) (FunctionIR.getAddress addr) =
                 FunctionIR.PointerTy
                   (if isFar then FunctionIR.FarRelativeAddressTy IGM
                    else FunctionIR.RelativeAddressTy IGM)).
  { rewrite Hk1; [exact Hty|by rewrite Hty]. }
  destruct (relative_indirectable_load_runs IGM env memory _ m1 addr isFar
              pointee pointerAlignment a HB1 (Hg1 _ _ Ha) Hty1 ltac:(lia))
    as (phi & B' & m' & He & HB' & _ & Hphi).
  exists phi, B', m'. split; [exact He|]. split; [exact HB'|].
  rewrite Hmem1 in Hphi. cbv beta in Hphi.
  rewrite Z.eqb_refl in Hphi.
  rewrite (Z.mod_small v), (Z.mod_small a) in Hphi by lia.
  set (D := (v - a) mod 2 ^ FunctionIR.pointerBits IGM) in *.
  assert (HD : 0 <= D < 2 ^ FunctionIR.pointerBits IGM) by (apply Z.mod_pos_bound; lia).
  assert (Hoff : FunctionIR.signed (FunctionIR.relativeBits IGM)
                   (D mod 2 ^ FunctionIR.relativeBits IGM)
                 mod 2 ^ FunctionIR.pointerBits IGM = D \/ isFar = true).
  { destruct Hfit as [|Hfit]; [by right|left].
    rewrite (signed_narrow _ _ D HR HD Hfit).
    apply signed_spec; lia. }
  assert (Hlow : Z.land D 1 = 0).
  { change 1 with (Z.ones 1). rewrite Z.land_ones by lia.
    unfold D. rewrite (mod_pow2_mod_pow2 _ (FunctionIR.pointerBits IGM) 1) by lia.
    change (2 ^ 1) with 2. rewrite Zeven_mod in Heven.
    by apply Z.eqb_eq. }
  assert (Hphi' : FunctionIR.valueOf IGM env m' phi = Some D).
  { destruct isFar.
    - rewrite Hlow in Hphi. cbn [Z.eqb] in Hphi.
      by rewrite (Z.mod_small D) in Hphi by lia.
    - destruct Hoff as [Hoff|]; [|discriminate].
      rewrite Hoff, Hlow in Hphi. cbn [Z.eqb] in Hphi.
      by rewrite (Z.mod_small D) in Hphi by lia. }
  clear Hphi. rename Hphi' into Hphi.
  split; [exact Hphi|].
  unfold D. split.
  - intros Heq. destruct (Z.lt_ge_cases v a) as [Hlt|Hge].
    + replace (v - a) with (v - a + 2 ^ FunctionIR.pointerBits IGM + (-1) * 2 ^ FunctionIR.pointerBits IGM) in Heq by lia.
      rewrite Z_mod_plus_full, Z.mod_small in Heq by lia. lia.
    + rewrite Z.mod_small in Heq by lia. lia.
  - intros ->. rewrite Z.sub_0_r. apply Z.mod_small. lia.
Qed.

Lemma relative_indirectable_store_load_gives_distance_witness :
  exists pointer B' m',
    FunctionIR.emitLoadOfRelativeIndirectablePointer Cases.optimizing
      Cases.relativeField false
      (FunctionIR.PointerTy (FunctionIR.IntegerTy 8)) 8
      (FunctionIR.emitStoreOfRelativeIndirectablePointer Cases.optimizing
         (FunctionIR.Argument 0 FunctionIR.Int8PtrTy) Cases.relativeField
         false FunctionIR.emptyBuilder) = Some (pointer, B') /\
    FunctionIR.ranTo Cases.optimizing Cases.arguments (fun _ => 0) B' m' /\
    FunctionIR.valueOf Cases.optimizing Cases.arguments m' pointer
      = Some ((4160 - 4096) mod 2 ^ 64) /\
    ((4160 - 4096) mod 2 ^ 64 = 4160 <-> 4096 = 0).
Proof.
  apply (relative_indirectable_store_load_gives_distance Cases.optimizing
           Cases.arguments (fun _ => 0) FunctionIR.emptyBuilder
           (FunctionIR.mkMachine [] (fun _ => 0) 0%nat 0%nat None)
           (FunctionIR.Argument 0 FunctionIR.Int8PtrTy) Cases.relativeField
           false (FunctionIR.IntegerTy 8) 8 4160 4096).
  - simpl. lia.
  - split; [reflexivity|]. split; [reflexivity|]. simpl. lia.
  - reflexivity.
  - simpl. lia.
  - reflexivity.
  - simpl. lia.
  - reflexivity.
  - right. vm_compute. split; [discriminate|reflexivity].
  - reflexivity.
Defined.

(** ** Alignment and offsets *)

Section AlignProofs.
Import FunctionIR.
Variable IGM : IRGenModule.
Variable env : nat -> Z.
Variable memory : Z -> Z.

Local Abbreviation ranTo := (FunctionIR.ranTo IGM env memory).
Local Abbreviation valueOf := (FunctionIR.valueOf IGM env).

Local Tactic Notation "ran" constr(E) constr(HB) constr(x) constr(mem')
    "as" simple_intropattern(p) "by" tactic3(t) :=
  destruct (Insert_ranTo IGM env memory _ _ _ _ _ _ x mem' E HB) as p;
  [unfold FunctionIR.compute, FunctionIR.result;
   cbn [fst snd mbind option_bind]; t; reflexivity|].

(** Masking with the complement of [2^k - 1] clears the low [k] bits. *)
Lemma land_high_mask w k y :
  0 <= k <= w -> 0 <= y < 2 ^ w ->
  Z.land y (2 ^ w - 1 - (2 ^ k - 1)) = y / 2 ^ k * 2 ^ k.
Proof.
  intros Hk Hy.
  rewrite <- Z.shiftr_div_pow2, <- Z.shiftl_mul_pow2 by lia.
  replace (2 ^ w - 1 - (2 ^ k - 1)) with (Z.shiftl (Z.ones (w - k)) k).
  2:{ rewrite Z.shiftl_mul_pow2, Z.ones_equiv by lia.
      rewrite <- Z.sub_1_r, Z.mul_sub_distr_r, <- Z.pow_add_r by lia.
      replace (w - k + k) with w by lia. lia. }
  apply Z.bits_inj'. intros n Hn.
  rewrite Z.land_spec, !Z.shiftl_spec by lia.
  destruct (Z.ltb_spec n k) as [Hlt|Hge].
  - rewrite !(Z.testbit_neg_r _ (n - k)) by lia. apply andb_false_r.
  - rewrite Z.shiftr_spec by lia. replace (n - k + k) with n by lia.
    rewrite Z.testbit_ones_nonneg by lia.
    destruct (Z.ltb_spec (n - k) (w - k)) as [Hin|Hout].
    + apply andb_true_r.
    + rewrite andb_false_r. symmetry.
      destruct (Z.eq_dec y 0) as [->|Hne]; [apply Z.bits_0|].
      apply Z.bits_above_log2; [lia|].
      assert (2 ^ w <= 2 ^ n) by (apply Z.pow_le_mono_r; lia).
      apply Z.log2_lt_pow2; lia.
Qed.

Lemma alignUpToMaximumAlignment_runs B m (k w : Z) val x :
  ranTo B m ->
  valueOf m val = Some x ->
  getType B val = IntegerTy w ->
  0 <= k <= w ->
  let M := 2 ^ k in
  exists r B' m',
    alignUpToMaximumAlignment M (IntegerTy w) val B = (r, B') /\
    ranTo B' m' /\
    valueOf m' r = Some (Z.land ((x + (M - 1)) mod 2 ^ w)
                           (2 ^ w - 1 - (M - 1))).
Proof.
  intros HB Hx Hty Hk M.
  assert (HM : 0 < M <= 2 ^ w).
  { split; [apply Z.pow_pos_nonneg; lia|apply Z.pow_le_mono_r; lia]. }
  assert (Hmask : (M - 1) mod 2 ^ w mod 2 ^ w = M - 1).
  { rewrite Z.mod_mod by lia. apply Z.mod_small. lia. }
  unfold alignUpToMaximumAlignment, CreateNot, CreateAdd, CreateAnd,
    ConstantInt_get.
  cbn [getType getIntegerBitWidth].
  destruct (Insert _ _ B) as [r1 B1] eqn:E1.
  ran E1 HB (2 ^ w - 1 - (M - 1)) (mem m)
    as (m1 & HB1 & Hmem1 & Hv1 & Ht1 & Hm1 & Hg1 & Hk1)
    by (cbn [FunctionIR.valueOf bitsOf]; rewrite Hmask).
  assert (Hty1 : getType B1 val = IntegerTy w).
  { rewrite <- Hty. apply Hk1. by rewrite Hty. }
  rewrite Hty1.
  destruct (Insert _ _ B1) as [r2 B2] eqn:E2.
  ran E2 HB1 ((x + (M - 1)) mod 2 ^ w) (mem m1)
    as (m2 & HB2 & Hmem2 & Hv2 & Ht2 & Hm2 & Hg2 & Hk2)
    by (rewrite (Hg1 _ _ Hx); cbn [FunctionIR.valueOf bitsOf];
        rewrite Hmask).
  rewrite Ht2.
  destruct (Insert _ _ B2) as [r3 B3] eqn:E3.
  ran E3 HB2 (Z.land ((x + (M - 1)) mod 2 ^ w) (2 ^ w - 1 - (M - 1))) (mem m2)
    as (m3 & HB3 & Hmem3 & Hv3 & Ht3 & Hm3 & Hg3 & Hk3)
    by rewrite Hv2, (Hg2 _ _ Hv1).
  exists r3, B3, m3. split; [reflexivity|split; assumption].
Qed.
End AlignProofs.

(** X21: [alignUpToMaximumAlignment] emits code that rounds a size up to
    a multiple of the maximum alignment, a power of two: the result is a
    multiple of the alignment, and it is the least one that is not below
    the size; when rounding up passes the largest number of the size type,
    the result is 0. *)
Theorem alignUpToMaximumAlignment_rounds_up (IGM : FunctionIR.IRGenModule)
    (env : nat -> Z) (memory : Z -> Z) (B : FunctionIR.IRBuilder)
    (m : FunctionIR.Machine) (val : FunctionIR.Value) (k w x : Z) :
  let MaximumAlignment := 2 ^ k in
  0 <= k <= w ->
  FunctionIR.ranTo IGM env memory B m ->
  FunctionIR.valueOf IGM env m val = Some x ->
  0 <= x < 2 ^ w ->
  FunctionIR.getType B val = FunctionIR.IntegerTy w ->
  exists r B' m' y,
    FunctionIR.alignUpToMaximumAlignment MaximumAlignment
      (FunctionIR.IntegerTy w) val B = (r, B') /\
    FunctionIR.ranTo IGM env memory B' m' /\
    FunctionIR.valueOf IGM env m' r = Some y /\
    y mod MaximumAlignment = 0 /\
    (x + MaximumAlignment - 1 < 2 ^ w -> x <= y < x + MaximumAlignment) /\
    (2 ^ w <= x + MaximumAlignment - 1 -> y = 0).
Proof.
  intros M Hk HB Hx Hxr Hty.
  destruct (alignUpToMaximumAlignment_runs IGM env memory B m k w val x
              HB Hx Hty Hk) as (r & B' & m' & He & HB' & Hr).
  exists r, B', m'. eexists. split; [exact He|]. split; [exact HB'|].
  split; [exact Hr|]. subst M.
  assert (HM : 0 < 2 ^ k <= 2 ^ w).
  { split; [apply Z.pow_pos_nonneg; lia|apply Z.pow_le_mono_r; lia]. }
  assert (Hs : 0 <= (x + (2 ^ k - 1)) mod 2 ^ w < 2 ^ w)
    by (apply Z.mod_pos_bound; lia).
  rewrite (land_high_mask w k _ Hk Hs).
  set (M := 2 ^ k) in *.
  split; [apply Z_mod_mult|]. split.
  - intros Hfit. rewrite (Z.mod_small (x + (M - 1))) by lia.
    pose proof (Z.div_mod (x + (M - 1)) M ltac:(lia)) as Hdm.
    pose proof (Z.mod_pos_bound (x + (M - 1)) M ltac:(lia)) as Hb.
    lia.
  - intros Hover.
    replace ((x + (M - 1)) mod 2 ^ w) with (x + (M - 1) - 2 ^ w).
    2:{ symmetry. replace (x + (M - 1)) with (x + (M - 1) - 2 ^ w + 1 * 2 ^ w)
          at 1 by lia.
        rewrite Z_mod_plus_full. apply Z.mod_small. lia. }
    rewrite Z.div_small by lia. reflexivity.
Qed.

Lemma alignUpToMaximumAlignment_rounds_up_witness :
  exists r B' m' y,
    FunctionIR.alignUpToMaximumAlignment (2 ^ 4) (FunctionIR.IntegerTy 64)
      (FunctionIR.Argument 0 (FunctionIR.IntegerTy 64))
      FunctionIR.emptyBuilder = (r, B') /\
    FunctionIR.ranTo Cases.optimizing Cases.arguments (fun _ => 0) B' m' /\
    FunctionIR.valueOf Cases.optimizing Cases.arguments m' r = Some y /\
    y mod 2 ^ 4 = 0 /\
    (4160 + 2 ^ 4 - 1 < 2 ^ 64 -> 4160 <= y < 4160 + 2 ^ 4) /\
    (2 ^ 64 <= 4160 + 2 ^ 4 - 1 -> y = 0).
Proof.
  apply (alignUpToMaximumAlignment_rounds_up Cases.optimizing Cases.arguments
           (fun _ => 0) FunctionIR.emptyBuilder
           (FunctionIR.mkMachine [] (fun _ => 0) 0%nat 0%nat None)
           (FunctionIR.Argument 0 (FunctionIR.IntegerTy 64)) 4 64 4160).
  - lia.
  - split; [reflexivity|]. split; [reflexivity|]. simpl. lia.
  - reflexivity.
  - simpl. lia.
  - reflexivity.
Defined.

(** X22: [Offset::offsetBy] adds a size to an offset modulo the range of
    the size type, and does so alike for a static and for a dynamic
    offset: what the new offset stands for is what the old one stood for
    plus the size.  A dynamic offset costs one instruction, a static one
    none.  The size type has at most the 64 bits of a static size. *)
Theorem offsetBy_adds_the_size (IGM : FunctionIR.IRGenModule)
    (env : nat -> Z) (memory : Z -> Z) (B : FunctionIR.IRBuilder)
    (m : FunctionIR.Machine) (offset : FunctionIR.Offset) (other x : Z) :
  let W := FunctionIR.pointerBits IGM in
  0 <= W <= 64 ->
  FunctionIR.ranTo IGM env memory B m ->
  FunctionIR.offsetValue IGM env m offset = Some x ->
  (forall v, offset = FunctionIR.Dynamic v ->
     FunctionIR.getType B v = FunctionIR.SizeTy IGM) ->
  exists offset' B' m',
    FunctionIR.offsetBy IGM offset other B = (offset', B') /\
    FunctionIR.ranTo IGM env memory B' m' /\
    FunctionIR.offsetValue IGM env m' offset' = Some ((x + other) mod 2 ^ W) /\
    length (FunctionIR.Insts B') =
      match offset with
      | FunctionIR.Static _ => length (FunctionIR.Insts B)
      | FunctionIR.Dynamic _ => S (length (FunctionIR.Insts B))
      end.
Proof.
  intros W HW HB Hx Hty.
  assert (HP : 0 < 2 ^ W) by (apply Z.pow_pos_nonneg; lia).
  destruct offset as [size|v]; unfold FunctionIR.offsetValue in *;
    cbn [FunctionIR.getAsValue FunctionIR.offsetBy] in *.
  - exists (FunctionIR.Static ((size + other) mod 2 ^ 64)), B, m.
    split; [reflexivity|]. split; [exact HB|]. split; [|reflexivity].
    revert Hx. cbn [FunctionIR.getAsValue].
    unfold FunctionIR.getSize, FunctionIR.ConstantInt_get.
    cbn [FunctionIR.getAsValue FunctionIR.valueOf FunctionIR.SizeTy
         FunctionIR.getIntegerBitWidth FunctionIR.bitsOf].
    fold W. intros [= <-]. f_equal.
    rewrite !Z.mod_mod by lia.
    rewrite (mod_pow2_mod_pow2 _ 64 W) by lia.
    by rewrite Zplus_mod_idemp_l.
  - unfold FunctionIR.CreateAdd. rewrite (Hty v eq_refl).
    destruct (FunctionIR.Insert _ _ B) as [r B'] eqn:E.
    destruct (Insert_ranTo IGM env memory _ _ _ _ _ _
                ((x + other) mod 2 ^ W) (FunctionIR.mem m) E HB)
      as (m' & HB' & _ & Hv & _).
    { unfold FunctionIR.compute, FunctionIR.result.
      cbn [fst snd]. rewrite Hx.
      unfold FunctionIR.ConstantInt_get.
      cbn [FunctionIR.valueOf FunctionIR.SizeTy FunctionIR.getIntegerBitWidth
           FunctionIR.bitsOf mbind option_bind].
      fold W. rewrite Z.mod_mod by lia. by rewrite Zplus_mod_idemp_r. }
    exists (FunctionIR.Dynamic r), B', m'.
    split; [reflexivity|]. split; [exact HB'|]. split; [exact Hv|].
    injection E as _ <-. cbn [FunctionIR.Insts]. rewrite length_app. simpl. lia.
Qed.

Lemma offsetBy_adds_the_size_witness :
  exists offset' B' m',
    FunctionIR.offsetBy Cases.optimizing
      (FunctionIR.Dynamic (FunctionIR.Argument 0 (FunctionIR.IntegerTy 64)))
      24 FunctionIR.emptyBuilder = (offset', B') /\
    FunctionIR.ranTo Cases.optimizing Cases.arguments (fun _ => 0) B' m' /\
    FunctionIR.offsetValue Cases.optimizing Cases.arguments m' offset'
      = Some ((4160 + 24) mod 2 ^ 64) /\
    length (FunctionIR.Insts B') = S (length (FunctionIR.Insts FunctionIR.emptyBuilder)).
Proof.
  apply (offsetBy_adds_the_size Cases.optimizing Cases.arguments (fun _ => 0)
           FunctionIR.emptyBuilder (FunctionIR.mkMachine [] (fun _ => 0) 0%nat 0%nat None)
           (FunctionIR.Dynamic (FunctionIR.Argument 0 (FunctionIR.IntegerTy 64)))
           24 4160).
  - simpl. lia.
  - split; [reflexivity|]. split; [reflexivity|]. simpl. lia.
  - reflexivity.
  - intros v [= <-]. reflexivity.
Defined.



(** ** Field offsets and generic arguments read from metadata *)

Section ClassPositionProofs.
Variable IGM : IRGenModule.
Variable TargetClass : ClassDecl.
Variable scannerSlots : ClassLayout.Hook -> Z.
Variable overridden : ClassLayout.Hook -> option bool.
Hypothesis overridden_one_slot :
  forall h b, overridden h = Some b ->
    classFieldCount h = 1 /\ ClassLayout.isNoteAddressPoint h = false.
Variable s0 : ClassMetadataBuilderBase.State.

Local Abbreviation bcall := (ClassMetadataBuilderBase.call IGM TargetClass).
Local Abbreviation blayout := (ClassMetadataBuilderBase.layout IGM TargetClass).
Local Abbreviation slayout :=
  (MetadataSearcher.layout ClassLayout.isNoteAddressPoint scannerSlots overridden).
Local Abbreviation scall :=
  (MetadataSearcher.call ClassLayout.isNoteAddressPoint scannerSlots overridden).
Local Abbreviation callAt := (targetCallAt IGM TargetClass overridden s0).



End ClassPositionProofs.








(** ** The metadata variable against the references to it *)

Section ReferenceProofs.
Variable IGM : IRGenModule.
Variable emitWitnessTableRefs : CanType -> IRGen (list Value).

(** A reference to the metadata of a declaration that is not an
    Objective-C class names the variable of its declared type: as it is
    for a declaration that is not generic, as the pattern given to the
    runtime for one that is. *)
Lemma nominal_reference_names_variable (decl : NominalTypeDecl) :
  (match getKind decl with Class => true | _ => false end)
  && negb (hasKnownSwiftMetadata decl) = false ->
  match getGenericParamsOfContext decl with
  | None =>
      forall IGF,
        emitTypeMetadataRef IGM emitWitnessTableRefs (NominalType decl) IGF
        = Some (Const (AddrOfTypeMetadata (getDeclaredType decl) false false),
                IGF)
  | Some _ =>
      forall replacements IGF result IGF',
        LocalTypeData IGF (BoundGenericType decl replacements) = None ->
        emitTypeMetadataRef IGM emitWitnessTableRefs
          (BoundGenericType decl replacements) IGF = Some (result, IGF') ->
        exists code arguments,
          Builder IGF' =
            code ++ [CreateCall GetGenericMetadataFn
                       [Const (AddrOfTypeMetadata (getDeclaredType decl)
                                 false true);
                        arguments]] /\
          result = Inst (length code)
  end.
Proof.
  intros Hobjc.
  destruct (getGenericParamsOfContext decl) as [generics|] eqn:Hgen.
  - intros replacements IGF result IGF' Hcache.
    unfold emitTypeMetadataRef. simpl.
    unfold emitNominalMetadataRef, isMetadataIndirect. rewrite Hobjc, Hgen.
    rewrite (bool_decide_eq_true_2 _ (mk_is_Some _ _ eq_refl)).
    simpl. unfold bind at 1. simpl. unfold bind at 1. simpl.
    unfold bind at 1. unfold tryGetLocalTypeData at 1. rewrite Hcache.
    unfold bind at 1. simpl.
    unfold bind at 1.
    match goal with
    | |- context [match ?c IGF with _ => _ end] =>
        destruct (c IGF) as [[genericArgs IGF1]|]; [|discriminate]
    end.
    unfold bind at 1. unfold emit at 1. unfold bind at 1.
    match goal with
    | |- context [storeArguments ?b ?i ?vs ?st] =>
        destruct (storeArguments b i vs st) as [[u IGF3]|]; [|discriminate]
    end.
    unfold bind at 1. unfold emit at 1. unfold emit.
    intros [= <- <-]. cbn [Builder].
    eexists _, _. split; reflexivity.
  - intros IGF. unfold emitTypeMetadataRef. simpl.
    unfold emitNominalMetadataRef. rewrite Hobjc, Hgen. reflexivity.
Qed.
End ReferenceProofs.

(** X26: the variable [emitStructMetadata] or [emitEnumMetadata] defines
    for a declaration is the one the references to its metadata name.
    It is a pattern exactly when the declaration is generic, and
    constant exactly when it is not a pattern.  For a declaration that
    is not generic, [emitTypeMetadataRef] on its type returns the
    address of the variable and emits no code; for a generic one, a
    reference that is not in the local type data ends in a call of the
    generic-metadata entry point on the address of the variable. *)
Theorem value_type_metadata_variable_is_referenced IGM
    (StructMetadataLayout EnumMetadataLayout
       : NominalTypeDecl -> list ValueLayout.Hook)
    (emitWitnessTableRefs : CanType -> IRGen (list Value))
    (decl : NominalTypeDecl) (var : TypeMetadataVariable) :
  getKind decl = Struct /\
  emitStructMetadata IGM StructMetadataLayout decl = Some var \/
  getKind decl = Enum /\
  emitEnumMetadata IGM EnumMetadataLayout decl = Some var ->
  let variable :=
    AddrOfTypeMetadata (declaredType var) (isIndirect var) (isPattern var) in
  isPattern var = bool_decide (is_Some (getGenericParamsOfContext decl)) /\
  isConstant var = negb (isPattern var) /\
  match getGenericParamsOfContext decl with
  | None =>
      forall IGF,
        emitTypeMetadataRef IGM emitWitnessTableRefs (NominalType decl) IGF
        = Some (Const variable, IGF)
  | Some _ =>
      forall replacements IGF result IGF',
        LocalTypeData IGF (BoundGenericType decl replacements) = None ->
        emitTypeMetadataRef IGM emitWitnessTableRefs
          (BoundGenericType decl replacements) IGF = Some (result, IGF') ->
        exists code arguments,
          Builder IGF' =
            code ++ [CreateCall GetGenericMetadataFn
                       [Const variable; arguments]] /\
          result = Inst (length code)
  end.
Proof.
  intros Hdef variable.
  assert (Hobjc : (match getKind decl with Class => true | _ => false end)
                  && negb (hasKnownSwiftMetadata decl) = false)
    by (destruct Hdef as [[-> _]|[-> _]]; reflexivity).
  pose proof (nominal_reference_names_variable IGM emitWitnessTableRefs decl
                Hobjc) as Href.
  assert (Hvar : declaredType var = getDeclaredType decl /\
                 isIndirect var = false /\
                 isPattern var
                   = bool_decide (is_Some (getGenericParamsOfContext decl)) /\
                 isConstant var = negb (isPattern var)).
  { destruct Hdef as [[_ Hdef]|[_ Hdef]];
      unfold emitStructMetadata, emitEnumMetadata in Hdef;
      destruct (getGenericParamsOfContext decl) as [generics|];
      simpl in Hdef;
      try (apply bind_Some in Hdef as ([init pat] & Hb & Hdef);
           apply bind_Some in Hb as (s & _ & Hb);
           apply bind_Some in Hb as (i & _ & Hb); injection Hb as _ <-);
      injection Hdef as <-; repeat split. }
  destruct Hvar as (Hty & Hind & Hpat & Hconst).
  split; [exact Hpat|]. split; [exact Hconst|].
  unfold variable. rewrite Hty, Hind, Hpat.
  destruct (getGenericParamsOfContext decl) as [generics|]; exact Href.
Qed.

Lemma value_type_metadata_variable_is_referenced_witness :
  isPattern Cases.boxVariable
    = bool_decide (is_Some (getGenericParamsOfContext Scenario.BoxDecl)) /\
  isConstant Cases.boxVariable = negb (isPattern Cases.boxVariable) /\
  match getGenericParamsOfContext Scenario.BoxDecl with
  | None =>
      forall IGF,
        emitTypeMetadataRef Scenario.IGM64 Scenario.noWitnessTables
          (NominalType Scenario.BoxDecl) IGF
        = Some (Const (AddrOfTypeMetadata (declaredType Cases.boxVariable)
                         (isIndirect Cases.boxVariable)
                         (isPattern Cases.boxVariable)), IGF)
  | Some _ =>
      forall replacements IGF result IGF',
        LocalTypeData IGF (BoundGenericType Scenario.BoxDecl replacements)
          = None ->
        emitTypeMetadataRef Scenario.IGM64 Scenario.noWitnessTables
          (BoundGenericType Scenario.BoxDecl replacements) IGF
          = Some (result, IGF') ->
        exists code arguments,
          Builder IGF' =
            code ++ [CreateCall GetGenericMetadataFn
                       [Const (AddrOfTypeMetadata
                                 (declaredType Cases.boxVariable)
                                 (isIndirect Cases.boxVariable)
                                 (isPattern Cases.boxVariable));
                        arguments]] /\
          result = Inst (length code)
  end.
Proof.
  apply (value_type_metadata_variable_is_referenced Scenario.IGM64
           (fun _ => Scenario.boxLayout) (fun _ => [])
           Scenario.noWitnessTables Scenario.BoxDecl Cases.boxVariable).
  left. split; [reflexivity|]. vm_compute. reflexivity.
Defined.

(** X27: the variable [emitClassMetadata] defines for a class with Swift
    metadata is the one the references to its metadata name.  It is a
    pattern exactly when the class is generic, and never constant; with
    Objective-C interoperation the metadata of a class that is not
    generic is added to the list of Objective-C classes, by the address
    that [emitTypeMetadataRef] on the class type returns without
    emitting code.  A reference to a generic class that is not in the
    local type data ends in a call of the generic-metadata entry point
    on the address of the variable. *)
Theorem class_metadata_variable_is_referenced IGM
    (NumHeapMetadataFields : nat)
    (ClassMetadataLayout : ClassDecl -> list ClassLayout.Hook)
    (emitWitnessTableRefs : CanType -> IRGen (list Value))
    (classDecl : ClassDecl) (var : TypeMetadataVariable) :
  let decl := asNominal classDecl in
  getKind decl = Class ->
  hasKnownSwiftMetadata decl = true ->
  emitClassMetadata IGM NumHeapMetadataFields ClassMetadataLayout classDecl
    = Some var ->
  let variable :=
    AddrOfTypeMetadata (declaredType var) (isIndirect var) (isPattern var) in
  isPattern var = bool_decide (is_Some (getGenericParamsOfContext decl)) /\
  isConstant var = false /\
  addedObjCClass var =
    (if ObjCInterop IGM && negb (isPattern var) then Some variable
     else None) /\
  match getGenericParamsOfContext decl with
  | None =>
      forall IGF,
        emitTypeMetadataRef IGM emitWitnessTableRefs (NominalType decl) IGF
        = Some (Const variable, IGF)
  | Some _ =>
      forall replacements IGF result IGF',
        LocalTypeData IGF (BoundGenericType decl replacements) = None ->
        emitTypeMetadataRef IGM emitWitnessTableRefs
          (BoundGenericType decl replacements) IGF = Some (result, IGF') ->
        exists code arguments,
          Builder IGF' =
            code ++ [CreateCall GetGenericMetadataFn
                       [Const variable; arguments]] /\
          result = Inst (length code)
  end.
Proof.
  intros decl Hkind Hswift Hdef variable.
  assert (Hobjc : (match getKind decl with Class => true | _ => false end)
                  && negb (hasKnownSwiftMetadata decl) = false)
    by (rewrite Hswift; apply andb_false_r).
  pose proof (nominal_reference_names_variable IGM emitWitnessTableRefs decl
                Hobjc) as Href.
  assert (Hvar : declaredType var = getDeclaredType decl /\
                 isIndirect var = false /\
                 isPattern var
                   = bool_decide (is_Some (getGenericParamsOfContext decl)) /\
                 isConstant var = false /\
                 addedObjCClass var =
                   (if ObjCInterop IGM && negb (isPattern var)
                    then Some (AddrOfTypeMetadata (getDeclaredType decl) false
                                 (isPattern var))
                    else None)).
  { unfold emitClassMetadata in Hdef. fold decl in Hdef.
    destruct (getGenericParamsOfContext decl) as [generics|]; simpl in Hdef.
    - apply bind_Some in Hdef as ([[init named] pat] & Hb & Hdef).
      apply bind_Some in Hb as (s & _ & Hb).
      apply bind_Some in Hb as (i & _ & Hb). injection Hb as _ _ <-.
      injection Hdef as <-. simpl. rewrite andb_false_r. repeat split.
    - apply bind_Some in Hdef as ([[init named] pat] & Hb & Hdef).
      apply bind_Some in Hb as (r & _ & Hb). injection Hb as _ _ <-.
      injection Hdef as <-. simpl. rewrite !andb_true_r. repeat split. }
  destruct Hvar as (Hty & Hind & Hpat & Hconst & Hobj).
  split; [exact Hpat|]. split; [exact Hconst|].
  unfold variable. rewrite Hty, Hind. split; [exact Hobj|]. rewrite Hpat.
  destruct (getGenericParamsOfContext decl) as [generics|]; exact Href.
Qed.

Lemma class_metadata_variable_is_referenced_witness :
  isPattern Cases.squareVariable
    = bool_decide (is_Some (getGenericParamsOfContext Scenario.SquareDecl)) /\
  isConstant Cases.squareVariable = false /\
  addedObjCClass Cases.squareVariable =
    (if ObjCInterop Scenario.IGM64 && negb (isPattern Cases.squareVariable)
     then Some (AddrOfTypeMetadata (declaredType Cases.squareVariable)
                  (isIndirect Cases.squareVariable)
                  (isPattern Cases.squareVariable))
     else None) /\
  match getGenericParamsOfContext Scenario.SquareDecl with
  | None =>
      forall IGF,
        emitTypeMetadataRef Scenario.IGM64 Scenario.noWitnessTables
          (NominalType Scenario.SquareDecl) IGF
        = Some (Const (AddrOfTypeMetadata (declaredType Cases.squareVariable)
                         (isIndirect Cases.squareVariable)
                         (isPattern Cases.squareVariable)), IGF)
  | Some _ =>
      forall replacements IGF result IGF',
        LocalTypeData IGF (BoundGenericType Scenario.SquareDecl replacements)
          = None ->
        emitTypeMetadataRef Scenario.IGM64 Scenario.noWitnessTables
          (BoundGenericType Scenario.SquareDecl replacements) IGF
          = Some (result, IGF') ->
        exists code arguments,
          Builder IGF' =
            code ++ [CreateCall GetGenericMetadataFn
                       [Const (AddrOfTypeMetadata
                                 (declaredType Cases.squareVariable)
                                 (isIndirect Cases.squareVariable)
                                 (isPattern Cases.squareVariable));
                        arguments]] /\
          result = Inst (length code)
  end.
Proof.
  apply (class_metadata_variable_is_referenced Scenario.IGM64 5
           (fun _ => Scenario.squareLayout) Scenario.noWitnessTables
           Scenario.SquareClass Cases.squareVariable).
  - reflexivity.
  - reflexivity.
  - vm_compute. reflexivity.
Defined.

